(** * Key Concept Extraction in Ontodia: a shallow embedding

    The development follows the TypeScript sources of the diagram model
    (the [DiagramModel] class with [extractKeyConcepts] and its scoring
    passes) and of the SPARQL response handlers that build the concept
    tree ([getClassTree], [getInstanceConceptsTree], [updateConceptTree],
    [getClassInfo]).

    Objects of the JavaScript heap are cells of a store addressed by their
    index; an array of object references is a list of indices, so object
    identity ([indexOf], [difference], [union] of lodash) is equality of
    indices.  Recursive methods take a fuel argument and return [None]
    where the JavaScript either never returns or throws. *)

From Stdlib Require Import ZArith Floats Ascii String.
From stdpp Require Import base option list strings relations.

Set Warnings "-inexact-float".

(** ** JavaScript numbers *)

(** The operations of the [number] type that the scoring code uses.  The
    instance [Float64] below is the IEEE 754 binary64 arithmetic of the
    JavaScript runtime. *)
Class JsNumber (N : Type) := {
  num_add : N → N → N;
  num_sub : N → N → N;
  num_mul : N → N → N;
  num_div : N → N → N;
  num_opp : N → N;
  num_abs : N → N;
  num_eqb : N → N → bool;
  num_ltb : N → N → bool;
  num_leb : N → N → bool;
  num_of_nat : nat → N;
}.

Declare Scope num_scope.
Delimit Scope num_scope with num.
Infix "+" := num_add : num_scope.
Infix "-" := num_sub : num_scope.
Infix "*" := num_mul : num_scope.
Infix "/" := num_div : num_scope.
Infix "=?" := num_eqb : num_scope.
Infix "<?" := num_ltb : num_scope.
Infix "<=?" := num_leb : num_scope.
Notation "x >? y" := (num_ltb y x) (only parsing) : num_scope.
Notation "x >=? y" := (num_leb y x) (only parsing) : num_scope.

Module Float64.

(** Conversion of an integer to the nearest binary64 value. *)
Definition of_nat (n : nat) : float :=
  SF2Prim (binary_normalize prec emax (Z.of_nat n) 0 false).

#[global] Instance number : JsNumber float := {
  num_add := PrimFloat.add;
  num_sub := PrimFloat.sub;
  num_mul := PrimFloat.mul;
  num_div := PrimFloat.div;
  num_opp := PrimFloat.opp;
  num_abs := PrimFloat.abs;
  num_eqb := PrimFloat.eqb;
  num_ltb := PrimFloat.ltb;
  num_leb := PrimFloat.leb;
  num_of_nat := of_nat;
}.

End Float64.

(** The two facts about comparison that the selection relies on: [<] is
    transitive, and nothing is greater than NaN (the result of [0 / 0]). *)
Class JsNumberLaws (N : Type) `{JsNumber N} : Prop := {
  num_ltb_trans : ∀ a b c : N,
    (a <? b)%num = true → (b <? c)%num = true → (a <? c)%num = true;
  num_ltb_NaN_l : ∀ x : N,
    (num_of_nat 0 / num_of_nat 0 <? x)%num = false;
}.

(** ** Monadic iteration *)

(** [each] of lodash over an array, threading the state the callback
    mutates; the callback may fail. *)
Fixpoint each {A B : Type} (f : B → A → option B) (l : list A) (acc : B)
  : option B :=
  match l with
  | [] => Some acc
  | x :: l' => acc' ← f acc x; each f l' acc'
  end.

(** ** Arrays of lodash

    [uniq] keeps the first occurrence of every value, in order; [union]
    is [uniq] of the concatenation; [difference] filters its first
    argument; [take] returns the first [n] elements, none for [n <= 0]. *)
Section Lodash.
Context {A : Type} `{EqDecision A}.

Definition uniq (l : list A) : list A :=
  fold_left (λ acc x, if bool_decide (x ∈ acc) then acc else acc ++ [x]) l [].

Definition union (a b : list A) : list A := uniq (a ++ b).

Definition union3 (a b c : list A) : list A := uniq (a ++ b ++ c).

Definition difference (a b : list A) : list A :=
  filter (λ x, x ∉ b) a.

Definition take_ (l : list A) (n : Z) : list A := take (Z.to_nat n) l.

(** [indexOf(x) < 0] on an array. *)
Definition notIn (x : A) (l : list A) : bool := bool_decide (x ∉ l).

(** The insertion step of a stable sort: the new element moves left past
    every element it is strictly less than. The argument is the sorted
    prefix, last element first. *)
Fixpoint insertSorted (lt : A → A → bool) (x : A) (rl : list A) : list A :=
  match rl with
  | [] => [x]
  | y :: rl' => if lt x y then y :: insertSorted lt x rl' else x :: rl
  end.

Definition stableSort (lt : A → A → bool) (l : list A) : list A :=
  rev (fold_left (λ rl x, insertSorted lt x rl) l []).

End Lodash.

(** ** The data model *)

Abbreviation ref := nat (only parsing).

(** [ConceptModel] of data/model.ts, restricted to the fields the
    extraction reads or writes.  [level] is [undefined] until
    [updateConceptTree] assigns it. *)
Record ConceptModel (N : Type) := mkConcept {
  id_ : string;
  count : nat;
  children : list ref;
  parent : list ref;
  level : option nat;
  aGlobalDensity : N;
  globalDensity : N;
  localDensity : N;
  density : N;
  contribution : nat;
  nameSimplicity : N;
  basicLevel : N;
  ncValue : N;
  propertyCount : nat;
  score : N;
  overallScore : N;
  covered : list ref;
  allSuperConcepts : list ref;
  allSubConcepts : list ref;
  indirectSubConcepts : list ref;
}.

Arguments mkConcept {N}.
Arguments id_ {N}.
Arguments count {N}.
Arguments children {N}.
Arguments parent {N}.
Arguments level {N}.
Arguments aGlobalDensity {N}.
Arguments globalDensity {N}.
Arguments localDensity {N}.
Arguments density {N}.
Arguments contribution {N}.
Arguments nameSimplicity {N}.
Arguments basicLevel {N}.
Arguments ncValue {N}.
Arguments propertyCount {N}.
Arguments score {N}.
Arguments overallScore {N}.
Arguments covered {N}.
Arguments allSuperConcepts {N}.
Arguments allSubConcepts {N}.
Arguments indirectSubConcepts {N}.

(** The heap of concept objects. *)
Abbreviation Store N := (list (ConceptModel N)).

Section Model.
Context {N : Type} `{JsNumber N}.

(** A decimal literal [p/q] of the source. *)
Definition decimal (p q : nat) : N := (num_of_nat p / num_of_nat q)%num.

Definition NaN : N := (num_of_nat 0 / num_of_nat 0)%num.

(** [getConceptModel] of the response handlers: a fresh concept. *)
Definition getConceptModel (i : string) : ConceptModel N := {|
  id_ := i; count := 0; children := []; parent := []; level := None;
  aGlobalDensity := num_of_nat 0; globalDensity := num_of_nat 0;
  localDensity := num_of_nat 0; density := num_of_nat 0;
  contribution := 0; nameSimplicity := num_of_nat 0;
  basicLevel := num_of_nat 0; ncValue := num_of_nat 0;
  propertyCount := 0; score := num_of_nat 0; overallScore := num_of_nat 0;
  covered := []; allSuperConcepts := []; allSubConcepts := [];
  indirectSubConcepts := [];
|}.

(** Every reference held in a [children] or [parent] array is an object
    of the store. *)
Definition refs_valid (s : Store N) : Prop :=
  ∀ c cm, s !! c = Some cm →
    (∀ x, x ∈ children cm → x < length s) ∧
    (∀ x, x ∈ parent cm → x < length s).

(** Field updates of a concept object. *)
Definition set_count (v : nat) (c : ConceptModel N) : ConceptModel N :=
  {| id_ := id_ c; count := v; children := children c; parent := parent c;
     level := level c; aGlobalDensity := aGlobalDensity c; globalDensity :=
     globalDensity c; localDensity := localDensity c; density := density c;
     contribution := contribution c; nameSimplicity := nameSimplicity c;
     basicLevel := basicLevel c; ncValue := ncValue c; propertyCount :=
     propertyCount c; score := score c; overallScore := overallScore c;
     covered := covered c; allSuperConcepts := allSuperConcepts c;
     allSubConcepts := allSubConcepts c; indirectSubConcepts :=
     indirectSubConcepts c |}.

Definition set_children (v : list ref) (c : ConceptModel N) : ConceptModel N :=
  {| id_ := id_ c; count := count c; children := v; parent := parent c; level
     := level c; aGlobalDensity := aGlobalDensity c; globalDensity :=
     globalDensity c; localDensity := localDensity c; density := density c;
     contribution := contribution c; nameSimplicity := nameSimplicity c;
     basicLevel := basicLevel c; ncValue := ncValue c; propertyCount :=
     propertyCount c; score := score c; overallScore := overallScore c;
     covered := covered c; allSuperConcepts := allSuperConcepts c;
     allSubConcepts := allSubConcepts c; indirectSubConcepts :=
     indirectSubConcepts c |}.

Definition set_parent (v : list ref) (c : ConceptModel N) : ConceptModel N :=
  {| id_ := id_ c; count := count c; children := children c; parent := v;
     level := level c; aGlobalDensity := aGlobalDensity c; globalDensity :=
     globalDensity c; localDensity := localDensity c; density := density c;
     contribution := contribution c; nameSimplicity := nameSimplicity c;
     basicLevel := basicLevel c; ncValue := ncValue c; propertyCount :=
     propertyCount c; score := score c; overallScore := overallScore c;
     covered := covered c; allSuperConcepts := allSuperConcepts c;
     allSubConcepts := allSubConcepts c; indirectSubConcepts :=
     indirectSubConcepts c |}.

Definition set_level (v : option nat) (c : ConceptModel N) : ConceptModel N :=
  {| id_ := id_ c; count := count c; children := children c; parent := parent
     c; level := v; aGlobalDensity := aGlobalDensity c; globalDensity :=
     globalDensity c; localDensity := localDensity c; density := density c;
     contribution := contribution c; nameSimplicity := nameSimplicity c;
     basicLevel := basicLevel c; ncValue := ncValue c; propertyCount :=
     propertyCount c; score := score c; overallScore := overallScore c;
     covered := covered c; allSuperConcepts := allSuperConcepts c;
     allSubConcepts := allSubConcepts c; indirectSubConcepts :=
     indirectSubConcepts c |}.

Definition set_aGlobalDensity (v : N) (c : ConceptModel N) : ConceptModel N :=
  {| id_ := id_ c; count := count c; children := children c; parent := parent
     c; level := level c; aGlobalDensity := v; globalDensity := globalDensity
     c; localDensity := localDensity c; density := density c; contribution :=
     contribution c; nameSimplicity := nameSimplicity c; basicLevel :=
     basicLevel c; ncValue := ncValue c; propertyCount := propertyCount c;
     score := score c; overallScore := overallScore c; covered := covered c;
     allSuperConcepts := allSuperConcepts c; allSubConcepts := allSubConcepts
     c; indirectSubConcepts := indirectSubConcepts c |}.

Definition set_globalDensity (v : N) (c : ConceptModel N) : ConceptModel N :=
  {| id_ := id_ c; count := count c; children := children c; parent := parent
     c; level := level c; aGlobalDensity := aGlobalDensity c; globalDensity
     := v; localDensity := localDensity c; density := density c; contribution
     := contribution c; nameSimplicity := nameSimplicity c; basicLevel :=
     basicLevel c; ncValue := ncValue c; propertyCount := propertyCount c;
     score := score c; overallScore := overallScore c; covered := covered c;
     allSuperConcepts := allSuperConcepts c; allSubConcepts := allSubConcepts
     c; indirectSubConcepts := indirectSubConcepts c |}.

Definition set_localDensity (v : N) (c : ConceptModel N) : ConceptModel N :=
  {| id_ := id_ c; count := count c; children := children c; parent := parent
     c; level := level c; aGlobalDensity := aGlobalDensity c; globalDensity
     := globalDensity c; localDensity := v; density := density c;
     contribution := contribution c; nameSimplicity := nameSimplicity c;
     basicLevel := basicLevel c; ncValue := ncValue c; propertyCount :=
     propertyCount c; score := score c; overallScore := overallScore c;
     covered := covered c; allSuperConcepts := allSuperConcepts c;
     allSubConcepts := allSubConcepts c; indirectSubConcepts :=
     indirectSubConcepts c |}.

Definition set_density (v : N) (c : ConceptModel N) : ConceptModel N :=
  {| id_ := id_ c; count := count c; children := children c; parent := parent
     c; level := level c; aGlobalDensity := aGlobalDensity c; globalDensity
     := globalDensity c; localDensity := localDensity c; density := v;
     contribution := contribution c; nameSimplicity := nameSimplicity c;
     basicLevel := basicLevel c; ncValue := ncValue c; propertyCount :=
     propertyCount c; score := score c; overallScore := overallScore c;
     covered := covered c; allSuperConcepts := allSuperConcepts c;
     allSubConcepts := allSubConcepts c; indirectSubConcepts :=
     indirectSubConcepts c |}.

Definition set_contribution (v : nat) (c : ConceptModel N) : ConceptModel N :=
  {| id_ := id_ c; count := count c; children := children c; parent := parent
     c; level := level c; aGlobalDensity := aGlobalDensity c; globalDensity
     := globalDensity c; localDensity := localDensity c; density := density
     c; contribution := v; nameSimplicity := nameSimplicity c; basicLevel :=
     basicLevel c; ncValue := ncValue c; propertyCount := propertyCount c;
     score := score c; overallScore := overallScore c; covered := covered c;
     allSuperConcepts := allSuperConcepts c; allSubConcepts := allSubConcepts
     c; indirectSubConcepts := indirectSubConcepts c |}.

Definition set_nameSimplicity (v : N) (c : ConceptModel N) : ConceptModel N :=
  {| id_ := id_ c; count := count c; children := children c; parent := parent
     c; level := level c; aGlobalDensity := aGlobalDensity c; globalDensity
     := globalDensity c; localDensity := localDensity c; density := density
     c; contribution := contribution c; nameSimplicity := v; basicLevel :=
     basicLevel c; ncValue := ncValue c; propertyCount := propertyCount c;
     score := score c; overallScore := overallScore c; covered := covered c;
     allSuperConcepts := allSuperConcepts c; allSubConcepts := allSubConcepts
     c; indirectSubConcepts := indirectSubConcepts c |}.

Definition set_basicLevel (v : N) (c : ConceptModel N) : ConceptModel N :=
  {| id_ := id_ c; count := count c; children := children c; parent := parent
     c; level := level c; aGlobalDensity := aGlobalDensity c; globalDensity
     := globalDensity c; localDensity := localDensity c; density := density
     c; contribution := contribution c; nameSimplicity := nameSimplicity c;
     basicLevel := v; ncValue := ncValue c; propertyCount := propertyCount c;
     score := score c; overallScore := overallScore c; covered := covered c;
     allSuperConcepts := allSuperConcepts c; allSubConcepts := allSubConcepts
     c; indirectSubConcepts := indirectSubConcepts c |}.

Definition set_ncValue (v : N) (c : ConceptModel N) : ConceptModel N :=
  {| id_ := id_ c; count := count c; children := children c; parent := parent
     c; level := level c; aGlobalDensity := aGlobalDensity c; globalDensity
     := globalDensity c; localDensity := localDensity c; density := density
     c; contribution := contribution c; nameSimplicity := nameSimplicity c;
     basicLevel := basicLevel c; ncValue := v; propertyCount := propertyCount
     c; score := score c; overallScore := overallScore c; covered := covered
     c; allSuperConcepts := allSuperConcepts c; allSubConcepts :=
     allSubConcepts c; indirectSubConcepts := indirectSubConcepts c |}.

Definition set_propertyCount (v : nat) (c : ConceptModel N) : ConceptModel N :=
  {| id_ := id_ c; count := count c; children := children c; parent := parent
     c; level := level c; aGlobalDensity := aGlobalDensity c; globalDensity
     := globalDensity c; localDensity := localDensity c; density := density
     c; contribution := contribution c; nameSimplicity := nameSimplicity c;
     basicLevel := basicLevel c; ncValue := ncValue c; propertyCount := v;
     score := score c; overallScore := overallScore c; covered := covered c;
     allSuperConcepts := allSuperConcepts c; allSubConcepts := allSubConcepts
     c; indirectSubConcepts := indirectSubConcepts c |}.

Definition set_score (v : N) (c : ConceptModel N) : ConceptModel N :=
  {| id_ := id_ c; count := count c; children := children c; parent := parent
     c; level := level c; aGlobalDensity := aGlobalDensity c; globalDensity
     := globalDensity c; localDensity := localDensity c; density := density
     c; contribution := contribution c; nameSimplicity := nameSimplicity c;
     basicLevel := basicLevel c; ncValue := ncValue c; propertyCount :=
     propertyCount c; score := v; overallScore := overallScore c; covered :=
     covered c; allSuperConcepts := allSuperConcepts c; allSubConcepts :=
     allSubConcepts c; indirectSubConcepts := indirectSubConcepts c |}.

Definition set_overallScore (v : N) (c : ConceptModel N) : ConceptModel N :=
  {| id_ := id_ c; count := count c; children := children c; parent := parent
     c; level := level c; aGlobalDensity := aGlobalDensity c; globalDensity
     := globalDensity c; localDensity := localDensity c; density := density
     c; contribution := contribution c; nameSimplicity := nameSimplicity c;
     basicLevel := basicLevel c; ncValue := ncValue c; propertyCount :=
     propertyCount c; score := score c; overallScore := v; covered := covered
     c; allSuperConcepts := allSuperConcepts c; allSubConcepts :=
     allSubConcepts c; indirectSubConcepts := indirectSubConcepts c |}.

Definition set_covered (v : list ref) (c : ConceptModel N) : ConceptModel N :=
  {| id_ := id_ c; count := count c; children := children c; parent := parent
     c; level := level c; aGlobalDensity := aGlobalDensity c; globalDensity
     := globalDensity c; localDensity := localDensity c; density := density
     c; contribution := contribution c; nameSimplicity := nameSimplicity c;
     basicLevel := basicLevel c; ncValue := ncValue c; propertyCount :=
     propertyCount c; score := score c; overallScore := overallScore c;
     covered := v; allSuperConcepts := allSuperConcepts c; allSubConcepts :=
     allSubConcepts c; indirectSubConcepts := indirectSubConcepts c |}.

Definition set_allSuperConcepts (v : list ref) (c : ConceptModel N) : ConceptModel N :=
  {| id_ := id_ c; count := count c; children := children c; parent := parent
     c; level := level c; aGlobalDensity := aGlobalDensity c; globalDensity
     := globalDensity c; localDensity := localDensity c; density := density
     c; contribution := contribution c; nameSimplicity := nameSimplicity c;
     basicLevel := basicLevel c; ncValue := ncValue c; propertyCount :=
     propertyCount c; score := score c; overallScore := overallScore c;
     covered := covered c; allSuperConcepts := v; allSubConcepts :=
     allSubConcepts c; indirectSubConcepts := indirectSubConcepts c |}.

Definition set_allSubConcepts (v : list ref) (c : ConceptModel N) : ConceptModel N :=
  {| id_ := id_ c; count := count c; children := children c; parent := parent
     c; level := level c; aGlobalDensity := aGlobalDensity c; globalDensity
     := globalDensity c; localDensity := localDensity c; density := density
     c; contribution := contribution c; nameSimplicity := nameSimplicity c;
     basicLevel := basicLevel c; ncValue := ncValue c; propertyCount :=
     propertyCount c; score := score c; overallScore := overallScore c;
     covered := covered c; allSuperConcepts := allSuperConcepts c;
     allSubConcepts := v; indirectSubConcepts := indirectSubConcepts c |}.

Definition set_indirectSubConcepts (v : list ref) (c : ConceptModel N) : ConceptModel N :=
  {| id_ := id_ c; count := count c; children := children c; parent := parent
     c; level := level c; aGlobalDensity := aGlobalDensity c; globalDensity
     := globalDensity c; localDensity := localDensity c; density := density
     c; contribution := contribution c; nameSimplicity := nameSimplicity c;
     basicLevel := basicLevel c; ncValue := ncValue c; propertyCount :=
     propertyCount c; score := score c; overallScore := overallScore c;
     covered := covered c; allSuperConcepts := allSuperConcepts c;
     allSubConcepts := allSubConcepts c; indirectSubConcepts := v |}.

(** Assignment to the object at [c]; [None] when there is no such object. *)
Definition modify (c : ref) (f : ConceptModel N → ConceptModel N)
    (s : Store N) : option (Store N) :=
  cm ← s !! c; Some (<[c := f cm]> s).

(** ** Building the concept tree (SPARQL response handlers) *)

Definition THING_URI : string := "http://www.w3.org/2002/07/owl#Thing".

(** A [ConceptBinding] of a SPARQL response: the concept and, when bound,
    its parent (or its child, for the reverse query). *)
Record ConceptBinding := mkBinding {
  concept : string;
  bparent : option string;
  bchild : option string;
}.

(** A [Dictionary<ConceptModel>]: keys in insertion order. *)
Definition Dictionary := list (string * ref).

Fixpoint dict_get (d : Dictionary) (k : string) : option ref :=
  match d with
  | [] => None
  | (k', v) :: d' => if bool_decide (k' = k) then Some v else dict_get d' k
  end.

(** [createdTreeNodes[id]] if present, otherwise a new concept stored
    under [id]. *)
Definition getOrCreate (st : Store N * Dictionary) (i : string)
  : Store N * Dictionary * ref :=
  let '(s, created) := st in
  match dict_get created i with
  | Some node => (s, created, node)
  | None => (s ++ [getConceptModel i], created ++ [(i, length s)], length s)
  end.

(** [parentNode.children.push(node); node.parent.push(parentNode)]. *)
Definition link (parentNode node : ref) (s : Store N) : option (Store N) :=
  s ← modify parentNode (λ c, set_children (children c ++ [node]) c) s;
  modify node (λ c, set_parent (parent c ++ [parentNode]) c) s.

(** One iteration of the loop of [getInstanceConceptsTree]. *)
Definition instanceStep (st : Store N * Dictionary) (sNode : ConceptBinding)
  : option (Store N * Dictionary) :=
  let '(s, created, node) := getOrCreate st (concept sNode) in
  match bparent sNode with
  | Some parentNodeId =>
    let '(s, created, parentNode) := getOrCreate (s, created) parentNodeId in
    s ← link parentNode node s;
    Some (s, created)
  | None => Some (s, created)
  end.


(** [getRootOfConceptsTree(createdTreeNodes)]: the result is [undefined]
    ([None]) when no node is without parent. *)
Definition getRootOfConceptsTree (st : Store N * Dictionary)
  : option (Store N * option ref) :=
  let '(s, createdTreeNodes) := st in
  conceptsTree ← each (λ acc node,
      cm ← s !! node;
      Some (if bool_decide (length (parent cm) = 0) then acc ++ [node] else acc))
    (createdTreeNodes.*2) [];
  if bool_decide (1 < length conceptsTree) then
    let thingConcept := length s in
    s ← each (λ s c, link thingConcept c s) conceptsTree
             (s ++ [getConceptModel THING_URI]);
    Some (s, head [thingConcept])
  else Some (s, head conceptsTree).

(** The first traversal of [updateConceptTree]: levels and sub concepts. *)
Fixpoint addSubConcept (fuel : nat) (c : ref) (lvl : nat) (s : Store N)
  : option (Store N) :=
  match fuel with
  | 0 => None
  | S fuel' =>
    cm ← s !! c;
    s ← modify c (set_level (Some lvl)) s;
    s ← modify c (λ c, set_allSubConcepts (allSubConcepts c ++ children c) c) s;
    if bool_decide (0 < length (children cm)) then
      let childLevel := lvl + 1 in
      each (λ s child,
          s ← addSubConcept fuel' child childLevel s;
          ch ← s !! child;
          s ← modify c (λ c, set_allSubConcepts
                               (allSubConcepts c ++ allSubConcepts ch) c) s;
          ch ← s !! child;
          modify c (λ c, set_indirectSubConcepts
                           (indirectSubConcepts c ++ allSubConcepts ch) c) s)
        (children cm) s
    else Some s
  end.

(** The second traversal: super concepts, then [covered]. *)
Fixpoint addSuperConcepts (fuel : nat) (c : ref) (s : Store N)
  : option (Store N) :=
  match fuel with
  | 0 => None
  | S fuel' =>
    cm ← s !! c;
    s ← each (λ s p,
          s ← modify c (λ c, set_allSuperConcepts (allSuperConcepts c ++ [p]) c) s;
          pm ← s !! p;
          modify c (λ c, set_allSuperConcepts
                           (allSuperConcepts c ++ allSuperConcepts pm) c) s)
        (parent cm) s;
    s ← modify c (λ cm, set_covered
            (union3 (allSuperConcepts cm) (allSubConcepts cm) [c]) cm) s;
    each (λ s child, addSuperConcepts fuel' child s) (children cm) s
  end.

(** [updateConceptTree(rootConcept)]; an [undefined] root throws. *)
Definition updateConceptTree (fuel : nat) (rootConcept : option ref)
    (s : Store N) : option (Store N) :=
  r ← rootConcept;
  s ← addSubConcept fuel r 1 s;
  addSuperConcepts fuel r s.

Definition getInstanceConceptsTree (fuel : nat) (sNodes : list ConceptBinding)
  : option (Store N * ref) :=
  st ← each instanceStep sNodes ([], []);
  '(s, rootConcept) ← getRootOfConceptsTree st;
  s ← updateConceptTree fuel rootConcept s;
  r ← rootConcept;
  Some (s, r).


(** ** Root-to-leaf paths *)

(** [calcAllPaths(start, path)] of the diagram model. *)
Fixpoint calcAllPaths (fuel : nat) (s : Store N) (start : ref)
    (path : list ref) : option (list (list ref)) :=
  match fuel with
  | 0 => None
  | S fuel' =>
    if bool_decide (start ∈ path) then Some []
    else
      c ← s !! start;
      let currentPath := path ++ [start] in
      let subConcepts := children c in
      if bool_decide (length subConcepts = 0) then Some [currentPath]
      else
        each (λ result subConcept,
                subResults ← calcAllPaths fuel' s subConcept currentPath;
                Some (result ++ subResults))
             subConcepts []
  end.

(** ** The diagram model *)

(** The part of [DiagramModel] the extraction works on: the heap of
    concepts, the concept list, the root-to-leaf paths, and the running
    maximum [maxAGlobalDensity], which lives as long as the model. *)
Record DiagramModel := mkModel {
  heap : Store N;
  concepts : list ref;
  paths : list (list ref);
  maxAGlobalDensity : N;
}.

(** [addConcept] of [resetConceptList]: one entry per visit. *)
Fixpoint addConcept (fuel : nat) (s : Store N) (c : ref) (acc : list ref)
  : option (list ref) :=
  match fuel with
  | 0 => None
  | S fuel' =>
    cm ← s !! c;
    each (λ acc child, addConcept fuel' s child acc) (children cm) (acc ++ [c])
  end.

(** [conceptsById[id]]: the last concept stored under the id. *)
Definition conceptsById (s : Store N) (cs : list ref) (i : string)
  : option ref :=
  last (filter (λ c, id_ <$> s !! c = Some i) cs).

(** [setConceptTree(rootConcept, propertyCount)]. *)
Definition setConceptTree (fuel : nat) (s : Store N) (rootConcept : ref)
    (propertyCounts : list (string * nat)) (maxA : N) : option DiagramModel :=
  cs ← addConcept fuel s rootConcept [];
  s ← each (λ s item,
        match conceptsById s cs item.1 with
        | Some c => modify c (set_propertyCount item.2) s
        | None => Some s
        end) propertyCounts s;
  ps ← calcAllPaths fuel s rootConcept [];
  Some (mkModel s cs ps maxA).

(** ** Scoring constants *)

Definition NC_CONSTANT : N := decimal 3 10.
Definition WEIGHT_BASIC_LEVEL : N := decimal 66 100.
Definition WEIGHT_NAME_SIMPLICITY : N := decimal 33 100.
Definition WEIGHT_LOCAL_DENSITY : N := decimal 32 100.
Definition WEIGHT_GLOBAL_DENSITY : N := decimal 8 100.
Definition WEIGHT_SUBCLASSES : N := decimal 8 10.
Definition WEIGHT_PROPERTIES : N := decimal 1 10.
Definition WEIGHT_INSTANCES : N := decimal 1 10.
Definition WEIGHT_CO : N := decimal 6 10.
Definition WEIGHT_CR : N := decimal 4 10.
Definition RATIO_DISTANCE : N := decimal 1 10.
Definition WEIGHT_GDL : N := decimal 5 10.

(** ** Neighbourhood of a concept *)

(** [concept.level + 1 - initLevel <= k]; false on an undefined level. *)
Definition subLevelWithin (l initLevel : option nat) (k : nat) : bool :=
  match l, initLevel with
  | Some l, Some i => bool_decide (l + 1 ≤ k + i)
  | _, _ => false
  end.

(** [initLevel - concept.level < k]; false on an undefined level. *)
Definition superLevelWithin (l initLevel : option nat) (k : nat) : bool :=
  match l, initLevel with
  | Some l, Some i => bool_decide (i < k + l)
  | _, _ => false
  end.

Fixpoint addSubConceptsKLevel (fuel : nat) (s : Store N)
    (initLevel : option nat) (c : ref) (k : nat) : option (list ref) :=
  match fuel with
  | 0 => None
  | S fuel' =>
    cm ← s !! c;
    if subLevelWithin (level cm) initLevel k then
      each (λ result subConcept,
          subResult ← addSubConceptsKLevel fuel' s initLevel subConcept k;
          Some (union (result ++ [subConcept]) subResult))
        (children cm) []
    else Some []
  end.

Fixpoint addSuperConceptsKLevel (fuel : nat) (s : Store N)
    (initLevel : option nat) (c : ref) (k : nat) : option (list ref) :=
  match fuel with
  | 0 => None
  | S fuel' =>
    cm ← s !! c;
    if superLevelWithin (level cm) initLevel k then
      each (λ result superConcept,
          superResult ← addSuperConceptsKLevel fuel' s initLevel superConcept k;
          Some (union (result ++ [superConcept]) superResult))
        (parent cm) []
    else Some []
  end.

(** [getNearestConceptsKLevel(k, concept)]. *)
Definition getNearestConceptsKLevel (fuel : nat) (s : Store N) (k : nat)
    (c : ref) : option (list ref) :=
  cm ← s !! c;
  subConceptsKLevel ← addSubConceptsKLevel fuel s (level cm) c k;
  superConceptsKLevel ← addSuperConceptsKLevel fuel s (level cm) c k;
  Some (union3 [c] subConceptsKLevel superConceptsKLevel).

(** ** Density *)

(** A level as a number; [undefined] converts to NaN. *)
Definition levelNum (l : option nat) : N :=
  match l with Some n => num_of_nat n | None => NaN end.

(** [calcLocalDensity(concept)]. *)
Definition calcLocalDensity (fuel : nat) (c : ref) (s : Store N)
  : option (Store N) :=
  cm ← s !! c;
  nearestConcepts ← getNearestConceptsKLevel fuel s 2 c;
  maxWeightedGlobalDensity ← each (λ mx nearestConcept,
      nm ← s !! nearestConcept;
      let weightedGlobalDensity :=
        ((num_of_nat 1 -
            (RATIO_DISTANCE * num_abs (levelNum (level cm) - levelNum (level nm))))
         * globalDensity nm)%num in
      Some (if (weightedGlobalDensity >? mx)%num
            then weightedGlobalDensity else mx))
    nearestConcepts (num_of_nat 0);
  modify c (set_localDensity
      (globalDensity cm / maxWeightedGlobalDensity
       + WEIGHT_GDL * globalDensity cm)%num) s.

(** [calcDensityOfConcepts()], on the heap and the running maximum. *)
Definition calcDensityOfConcepts (fuel : nat) (cs : list ref)
    (st : Store N * N) : option (Store N * N) :=
  '(s, maxA) ← each (λ '(s, maxA) c,
      cm ← s !! c;
      let a := (num_of_nat (length (children cm)) * WEIGHT_SUBCLASSES
                + num_of_nat (count cm) * WEIGHT_INSTANCES
                + num_of_nat (propertyCount cm) * WEIGHT_PROPERTIES)%num in
      s ← modify c (set_aGlobalDensity a) s;
      Some (s, if (a >? maxA)%num then a else maxA))
    cs st;
  s ← each (λ s c,
      s ← modify c (λ cm, set_globalDensity
                            (aGlobalDensity cm / maxA)%num cm) s;
      s ← calcLocalDensity fuel c s;
      modify c (λ cm, set_density
                        (WEIGHT_GLOBAL_DENSITY * globalDensity cm
                         + WEIGHT_LOCAL_DENSITY * localDensity cm)%num cm) s)
    cs s;
  Some (s, maxA).

(** ** Natural category value *)

Fixpoint lastIndexOfFrom (c : ascii) (str : string) (i : nat)
    (found : option nat) : option nat :=
  match str with
  | EmptyString => found
  | String a str' =>
    lastIndexOfFrom c str' (S i) (if Ascii.eqb a c then Some i else found)
  end.

(** [str.lastIndexOf(c)]; [None] for -1. *)
Definition lastIndexOf (c : ascii) (str : string) : option nat :=
  lastIndexOfFrom c str 0 None.

(** [str.substring(n)]. *)
Fixpoint substringFrom (n : nat) (str : string) : string :=
  match n, str with
  | 0, _ => str
  | S n', String _ str' => substringFrom n' str'
  | S _, EmptyString => EmptyString
  end.

(** [uri2name(uri)]. *)
Definition uri2name (uri : string) : string :=
  match lastIndexOf "#" uri with
  | Some hashIndex =>
    if negb (Nat.eqb (S hashIndex) (String.length uri))
    then substringFrom (hashIndex + 1) uri
    else
      match lastIndexOf "/" uri with
      | Some lastPartStart =>
        if negb (Nat.eqb (S lastPartStart) (String.length uri))
        then substringFrom (lastPartStart + 1) uri else uri
      | None => uri
      end
  | None =>
    match lastIndexOf "/" uri with
    | Some lastPartStart =>
      if negb (Nat.eqb (S lastPartStart) (String.length uri))
      then substringFrom (lastPartStart + 1) uri else uri
    | None => uri
    end
  end.

(** A character matched by [/[A-Z_]/]. *)
Definition isCompoundMarker (a : ascii) : bool :=
  let n := nat_of_ascii a in
  (Nat.leb 65 n && Nat.leb n 90) || Nat.eqb n 95.

(** [name.length - name.replace(/[A-Z_]/g, '').length]. *)
Fixpoint numberOfCompound (name : string) : nat :=
  match name with
  | EmptyString => 0
  | String a name' =>
    (if isCompoundMarker a then 1 else 0) + numberOfCompound name'
  end.

(** The value [calcNameSimplicityOfConcepts] stores for a name with [m]
    markers. *)
Definition nameSimplicityOf (m : nat) : N :=
  let v := (num_of_nat 1 - NC_CONSTANT * (num_of_nat m - num_of_nat 1))%num in
  if (v <? num_of_nat 0)%num then num_of_nat 0 else v.

Definition calcNameSimplicityOfConcepts (cs : list ref) (s : Store N)
  : option (Store N) :=
  each (λ s c,
      modify c (λ cm, set_nameSimplicity
          (nameSimplicityOf (numberOfCompound (uri2name (id_ cm)))) cm) s)
    cs s.

(** The inner loop of [calcBasicLevelOfConcepts] over the interior
    positions [i = 1 .. path.length - 2] of one path. *)
Definition voteInterior (path : list ref) (st : Store N * N)
  : option (Store N * N) :=
  each (λ '(s, mx) c,
      cm ← s !! c;
      let b := (basicLevel cm + num_of_nat 1)%num in
      s ← modify c (set_basicLevel b) s;
      Some (s, if (b >? mx)%num then b else mx))
    (take (length path - 2) (drop 1 path)) st.

Definition calcBasicLevelOfConcepts (cs : list ref) (ps : list (list ref))
    (s : Store N) : option (Store N) :=
  '(s, mx) ← each (λ st path,
      if bool_decide (3 ≤ length path) then voteInterior path st else Some st)
    ps (s, num_of_nat 0);
  each (λ s c, modify c (λ cm, set_basicLevel (basicLevel cm / mx)%num cm) s)
    cs s.

Definition calcNaturalCategoryValueOfConcepts (cs : list ref)
    (ps : list (list ref)) (s : Store N) : option (Store N) :=
  s ← calcNameSimplicityOfConcepts cs s;
  s ← calcBasicLevelOfConcepts cs ps s;
  each (λ s c,
      modify c (λ cm, set_ncValue
          (WEIGHT_BASIC_LEVEL * basicLevel cm
           + WEIGHT_NAME_SIMPLICITY * nameSimplicity cm)%num cm) s)
    cs s.

Definition calcScoreOfConcepts (cs : list ref) (s : Store N)
  : option (Store N) :=
  each (λ s c, modify c (λ cm, set_score (ncValue cm + density cm)%num cm) s)
    cs s.

(** ** Selection *)

(** [calcContributionOfConcepts(concepts)]: sets every [contribution]
    and returns the average. *)
Definition calcContributionOfConcepts (cs : list ref) (s : Store N)
  : option (Store N * N) :=
  '(s, sumContribution) ← each (λ '(s, sm) c,
      coverOfOtherConcepts ← each (λ cover el,
          if bool_decide (el ≠ c)
          then em ← s !! el; Some (union cover (covered em))
          else Some cover)
        cs [];
      cm ← s !! c;
      let contrib := length (difference (covered cm) coverOfOtherConcepts) in
      s ← modify c (set_contribution contrib) s;
      Some (s, (sm + num_of_nat contrib)%num))
    cs (s, num_of_nat 0);
  Some (s, (sumContribution / num_of_nat (length cs))%num).

Definition findMaxContribution (cs : list ref) (s : Store N) : option nat :=
  each (λ mx c, cm ← s !! c;
                Some (if bool_decide (mx < contribution cm)
                      then contribution cm else mx))
    cs 0.

(** [calcOverallScoreOfConcepts(concepts)]: sets every [overallScore]
    and returns the average. *)
Definition calcOverallScoreOfConcepts (cs : list ref) (s : Store N)
  : option (Store N * N) :=
  maxContribution ← findMaxContribution cs s;
  '(s, sumOverallScore) ← each (λ '(s, sm) c,
      cm ← s !! c;
      let o := (WEIGHT_CO * num_of_nat (contribution cm)
                  / num_of_nat maxContribution
                + WEIGHT_CR * score cm)%num in
      s ← modify c (set_overallScore o) s;
      Some (s, (sm + o)%num))
    cs (s, num_of_nat 0);
  Some (s, (sumOverallScore / num_of_nat (length cs))%num).

(** [findConceptWithWorstOverallScore(concepts)]; the inner [None] is
    [undefined]. *)
Definition findConceptWithWorstOverallScore (cs : list ref) (s : Store N)
  : option (option ref) :=
  snd <$> each (λ '(worstOverallScore, result) c,
      cm ← s !! c;
      Some (if (overallScore cm <? worstOverallScore)%num
            then (overallScore cm, Some c)
            else (worstOverallScore, result)))
    cs (num_of_nat 2, None).

(** The comparison [sortBy] of lodash makes between two numeric keys
    ([compareAscending] returning a negative value). *)
Definition keyBefore (x y : N) : bool :=
  negb (x =? y)%num
  && negb ((x >? y)%num || negb (x =? x)%num)
  && ((x <? y)%num || negb (y =? y)%num).

(** [sortBy(concepts, c => -c.score)]. *)
Definition sortByScore (cs : list ref) (s : Store N) : option (list ref) :=
  keyed ← mapM (λ c, cm ← s !! c; Some (c, num_opp (score cm))) cs;
  Some ((stableSort (λ a b, keyBefore a.2 b.2) keyed).*1).

(** [difference(bestConceptSet, [worstOverallScoreConcept])]. *)
Definition excludeWorst (best : list ref) (worst : option ref) : list ref :=
  match worst with
  | Some w => difference best [w]
  | None => best
  end.

(** The state of the selection loop: the heap, [bestConceptSet],
    [avgContribution] and [avgOverallScore]. *)
Definition Selection : Type := Store N * list ref * N * N.

(** One iteration of the loop over [remainConcepts]. *)
Definition swapStep (st : Selection) (r : ref) : option Selection :=
  let '(s, bestConceptSet, avgContribution, avgOverallScore) := st in
  worstOverallScoreConcept ← findConceptWithWorstOverallScore bestConceptSet s;
  let excludedWorstScoreConceptSet :=
    excludeWorst bestConceptSet worstOverallScoreConcept in
  let newConceptSet := union excludedWorstScoreConceptSet [r] in
  '(s, avgContribution1) ← calcContributionOfConcepts newConceptSet s;
  '(s, avgOverallScore1) ← calcOverallScoreOfConcepts newConceptSet s;
  if (avgOverallScore1 >? avgOverallScore)%num
     && (avgContribution1 >=? avgContribution)%num
  then Some (s, newConceptSet, avgContribution1, avgOverallScore1)
  else Some (s, bestConceptSet, avgContribution, avgOverallScore).

(** The three scoring passes at the head of [extractKeyConcepts]. *)
Definition scoreConcepts (fuel : nat) (m : DiagramModel)
  : option DiagramModel :=
  '(s, maxA) ← calcDensityOfConcepts fuel (concepts m)
                 (heap m, maxAGlobalDensity m);
  s ← calcNaturalCategoryValueOfConcepts (concepts m) (paths m) s;
  s ← calcScoreOfConcepts (concepts m) s;
  Some (mkModel s (concepts m) (paths m) maxA).

(** The selection of [extractKeyConcepts(n)] on the scored model. *)
Definition selectKeyConcepts (n : Z) (m : DiagramModel)
  : option (DiagramModel * list ref) :=
  if bool_decide (Z.of_nat (length (concepts m)) ≤ n)%Z then
    Some (m, concepts m)
  else
    sorted ← sortByScore (concepts m) (heap m);
    let bestConceptSet := take_ sorted n in
    '(s, avgContribution) ← calcContributionOfConcepts bestConceptSet (heap m);
    '(s, avgOverallScore) ← calcOverallScoreOfConcepts bestConceptSet s;
    let remainConcepts := difference sorted bestConceptSet in
    '(s, bestConceptSet, _, _) ←
      each swapStep remainConcepts
           (s, bestConceptSet, avgContribution, avgOverallScore);
    Some (mkModel s sorted (paths m) (maxAGlobalDensity m), bestConceptSet).

(** [extractKeyConcepts(n)]. *)
Definition extractKeyConcepts (fuel : nat) (n : Z) (m : DiagramModel)
  : option (DiagramModel * list ref) :=
  m ← scoreConcepts fuel m;
  selectKeyConcepts n m.

(** ** Graph relations used in the statements *)




(** Along every edge the level changes by one: what [updateConceptTree]
    leaves on a tree, where every concept is visited once. *)
Definition levels_consistent (s : Store N) : Prop :=
  ∀ p pm, s !! p = Some pm →
    ∃ l, level pm = Some l ∧
      (∀ x, x ∈ children pm →
         ∃ xm, s !! x = Some xm ∧ level xm = Some (l + 1)) ∧
      (∀ x, x ∈ parent pm →
         ∃ xm l', s !! x = Some xm ∧ level xm = Some l' ∧ l' + 1 = l).

(** The arrays of the object at [d], empty when there is no such object. *)
Definition kids (s : Store N) (d : ref) : list ref :=
  default [] (children <$> s !! d).
Definition pars (s : Store N) (d : ref) : list ref :=
  default [] (parent <$> s !! d).
Definition subs (s : Store N) (d : ref) : list ref :=
  default [] (allSubConcepts <$> s !! d).
Definition sups (s : Store N) (d : ref) : list ref :=
  default [] (allSuperConcepts <$> s !! d).
Definition cov (s : Store N) (d : ref) : list ref :=
  default [] (covered <$> s !! d).

(** [children] and [parent] arrays mirror each other, as the response
    handlers build them. *)
Definition links_consistent (s : Store N) : Prop :=
  ∀ a b, b ∈ kids s a ↔ a ∈ pars s b.

(** No closure has been computed yet, as in freshly created concepts. *)
Definition closures_fresh (s : Store N) : Prop :=
  ∀ d, subs s d = [] ∧ sups s d = [].

(** The concepts of the tree under [root]: the root and whatever is
    reached from it through [children]. *)
Definition inTree (s : Store N) (root d : ref) : Prop :=
  rtc (λ a b, b ∈ kids s a) root d.

(** ** The averages of a concept set

    Contribution, overall score and their averages as functions of a
    set, following the definitions of the selection (sums are taken in
    the order of the set, as the loops do). *)

Definition scoreAt (s : Store N) (c : ref) : N :=
  default NaN (score <$> s !! c).
Definition overallScoreAt (s : Store N) (c : ref) : N :=
  default NaN (overallScore <$> s !! c).
Definition contributionAt (s : Store N) (c : ref) : nat :=
  default 0 (contribution <$> s !! c).

(** The union of the [covered] arrays of the other members. *)
Definition coverOfOtherConcepts (s : Store N) (cs : list ref) (c : ref)
  : list ref :=
  fold_left (λ cover el,
               if bool_decide (el ≠ c) then union cover (cov s el) else cover)
            cs [].

Definition contributionOf (s : Store N) (cs : list ref) (c : ref) : nat :=
  length (difference (cov s c) (coverOfOtherConcepts s cs c)).

Definition maxOf (f : ref → nat) (cs : list ref) : nat :=
  fold_left (λ mx c, if bool_decide (mx < f c) then f c else mx) cs 0.

Definition sumOf (f : ref → N) (cs : list ref) : N :=
  fold_left (λ sm c, (sm + f c)%num) cs (num_of_nat 0).

Definition overallScoreOf (s : Store N) (cs : list ref) (c : ref) : N :=
  (WEIGHT_CO * num_of_nat (contributionOf s cs c)
     / num_of_nat (maxOf (contributionOf s cs) cs)
   + WEIGHT_CR * scoreAt s c)%num.

Definition avgContributionOf (s : Store N) (cs : list ref) : N :=
  (sumOf (λ c, num_of_nat (contributionOf s cs c)) cs
   / num_of_nat (length cs))%num.

Definition avgOverallScoreOf (s : Store N) (cs : list ref) : N :=
  (sumOf (overallScoreOf s cs) cs / num_of_nat (length cs))%num.

(** Two heaps with the same objects up to the fields the selection
    assigns ([contribution] and [overallScore]). *)
Definition sameScored (s s' : Store N) : Prop :=
  length s = length s' ∧
  ∀ d, cov s' d = cov s d ∧ scoreAt s' d = scoreAt s d.



(** Every concept of the list is an object of the heap. *)
Definition concepts_valid (m : DiagramModel) : Prop :=
  ∀ c, c ∈ concepts m → c < length (heap m).

(** ** Vocabulary of the selection loop *)

(** The overall score [calcOverallScoreOfConcepts] assigns, from the
    [contribution] fields as they are. *)
Definition overallScoreFrom (s : Store N) (cs : list ref) (c : ref) : N :=
  (WEIGHT_CO * num_of_nat (contributionAt s c)
     / num_of_nat (maxOf (contributionAt s) cs)
   + WEIGHT_CR * scoreAt s c)%num.

Definition two : N := num_of_nat 2.

(** The loop state of the search: nothing found yet, or a member below
    the bound whose score is the running minimum. *)
Definition worst_inv (s : Store N) (cs : list ref) (acc : N * option ref)
  : Prop :=
  (acc = (two, None)) ∨
  (∃ w, acc = (overallScoreAt s w, Some w) ∧ w ∈ cs
        ∧ (overallScoreAt s w <? two)%num = true).

(** The candidate set of a step: the working set without its worst
    member, with the next remaining concept added. *)
Definition candidateSet (best : list ref) (worst : option ref) (r : ref)
  : list ref :=
  union (excludeWorst best worst) [r].


End Model.


(** * Invariants of the closure traversals

    The graph is fixed by [K] (children) and [P] (parents); [T] is the set
    of the concepts of the tree. *)

Module ClosureInv.
Section Defs.
Context {N : Type} `{JsNumber N}.
Implicit Types s t : Store N.
Variables K P : ref → list ref.
Variable T : ref → Prop.

Local Abbreviation E := (λ a b : ref, b ∈ K a).
Local Abbreviation D := (tc E).
Local Abbreviation Ds := (rtc E).

Definition shape s : Prop := ∀ d, kids s d = K d ∧ pars s d = P d.

(** Every recorded sub concept is a proper descendant. *)
Definition sub_sound s : Prop := ∀ d x, x ∈ subs s d → D d x.

(** What the first traversal guarantees, relative to the state [s] it
    starts from. *)
Definition sub_post (c : ref) s s' : Prop :=
  shape s' ∧
  (∀ d, sups s' d = sups s d) ∧
  (∀ d x, x ∈ subs s d → x ∈ subs s' d) ∧
  (sub_sound s → sub_sound s') ∧
  (∀ d, Ds c d → ∀ x, D d x → x ∈ subs s' d).

(** The state of the loop over the children of [c]: [done] are the
    children already visited. *)
Definition sub_inv (c : ref) (done : list ref) s t : Prop :=
  shape t ∧
  (∀ d, sups t d = sups s d) ∧
  (∀ d x, x ∈ subs s d → x ∈ subs t d) ∧
  (sub_sound s → sub_sound t) ∧
  (∀ y, y ∈ done → ∀ d, Ds y d → ∀ x, D d x → x ∈ subs t d) ∧
  (∀ y, y ∈ done → ∀ x, Ds y x → x ∈ subs t c) ∧
  (∀ y, y ∈ K c → y ∈ subs t c).

(** Every path from [c] has fewer than [n] concepts. *)
Fixpoint bounded (n : nat) (c : ref) : Prop :=
  match n with
  | 0 => False
  | S n' => ∀ y, y ∈ K c → bounded n' y
  end.

(** Every recorded super concept is a proper ancestor. *)
Definition sup_sound s : Prop := ∀ d x, x ∈ sups s d → D x d.

(** Every ancestor of [d] in the tree is recorded. *)
Definition complete s (d : ref) : Prop := ∀ a, T a → D a d → a ∈ sups s d.

(** [covered] is the union of the closures and the concept itself. *)
Definition covOK s (d : ref) : Prop :=
  ∀ x, x ∈ cov s d ↔ x ∈ sups s d ∨ x ∈ subs s d ∨ x = d.

Definition sup_post (fuel : nat) (c : ref) s s' : Prop :=
  shape s' ∧
  (∀ d, subs s' d = subs s d) ∧
  (∀ d x, x ∈ sups s d → x ∈ sups s' d) ∧
  (sup_sound s → sup_sound s') ∧
  (∀ d, covOK s d → covOK s' d) ∧
  (∀ d, Ds c d → covOK s' d) ∧
  bounded fuel c ∧
  (∀ d, Ds c d →
     (∀ a, T a → D a d → ¬ Ds c a → complete s a) → complete s' d).

(** The state of the loop over the children: [done] are the children
    already visited, [sc] the state the loop started from. *)
Definition sup_inv (fuel : nat) (done : list ref) sc t : Prop :=
  shape t ∧
  (∀ d, subs t d = subs sc d) ∧
  (∀ d x, x ∈ sups sc d → x ∈ sups t d) ∧
  (sup_sound sc → sup_sound t) ∧
  (∀ d, covOK sc d → covOK t d) ∧
  (∀ y, y ∈ done → ∀ d, Ds y d → covOK t d) ∧
  (∀ y, y ∈ done → bounded fuel y) ∧
  (∀ d, (∃ y, y ∈ done ∧ Ds y d) →
     (∀ a, T a → D a d → (∀ y, y ∈ done → ¬ Ds y a) → complete sc a) →
     complete t d).

End Defs.
End ClosureInv.


Arguments swapStep : simpl never.

(** * The class tree (SPARQL response handlers)

    [getClassTree] and [getClassInfo] read the class bindings of a
    response.  The class models are objects of a heap; the [children]
    arrays are objects of their own, since [getClassTree] makes a created
    node share the array of its temporary node.  A dictionary keeps its
    keys in insertion order.  An instance count literal is represented by
    the number [+instcount.value], taken to be a natural number or NaN. *)

Module Classes.

Record LocalizedString := mkLocalized {
  text : string;
  lang : option string;
}.

Record RdfLiteral := mkLiteral {
  value : string;
  xml_lang : option string;
}.

(** A count as a JavaScript number: a natural number, or NaN ([None]). *)
Definition Count := option nat.


(** [Math.max(a, b)]. *)
Definition count_max (a b : Count) : Count :=
  x ← a; y ← b; Some (x `max` y).

Definition isNaN (a : Count) : bool := bool_decide (a = None).

(** A [ClassBinding]: [class], [instcount], [label] and [parent], each
    possibly unbound. *)
Record ClassBinding := mkClassBinding {
  bclass : option string;
  binstcount : option Count;
  blabel : option RdfLiteral;
  bparent : option string;
}.

(** A [ClassModel].  An entry of [label.values] can be [undefined]. *)
Record ClassModel := mkClass {
  id_ : string;
  label : list (option LocalizedString);
  count : Count;
  children : ref;
  parent : option string;
}.

Definition set_label (v : list (option LocalizedString)) (m : ClassModel)
  : ClassModel :=
  {| id_ := id_ m; label := v; count := count m; children := children m;
     parent := parent m |}.

Definition set_count (v : Count) (m : ClassModel) : ClassModel :=
  {| id_ := id_ m; label := label m; count := v; children := children m;
     parent := parent m |}.

Definition set_children (v : ref) (m : ClassModel) : ClassModel :=
  {| id_ := id_ m; label := label m; count := count m; children := v;
     parent := parent m |}.

Definition set_parent (v : option string) (m : ClassModel) : ClassModel :=
  {| id_ := id_ m; label := label m; count := count m;
     children := children m; parent := v |}.

(** [str.indexOf(c)]. *)
Fixpoint indexOfFrom (c : ascii) (str : string) (i : nat) : option nat :=
  match str with
  | EmptyString => None
  | String a str' => if Ascii.eqb a c then Some i else indexOfFrom c str' (S i)
  end.

Definition indexOf (c : ascii) (str : string) : option nat :=
  indexOfFrom c str 0.

(** [getNameFromId(id)]; the last token of [id.split('/')] is what follows
    the last slash, or [id] when it has none. *)
Definition getNameFromId (id : string) : string :=
  match indexOf "#" id with
  | Some sharpIndex => substringFrom (sharpIndex + 1) id
  | None =>
    match lastIndexOf "/" id with
    | Some k => substringFrom (k + 1) id
    | None => id
    end
  end.

(** [getLocalizedString(label, id)]; an empty [id] is falsy. *)
Definition getLocalizedString (label : option RdfLiteral) (id : option string)
  : option LocalizedString :=
  match label, id with
  | Some l, _ => Some (mkLocalized (value l) (xml_lang l))
  | None, Some i =>
    if bool_decide (i = EmptyString) then None
    else Some (mkLocalized (getNameFromId i) (Some EmptyString))
  | None, None => None
  end.

(** [getInstCount(instcount)]. *)
Definition getInstCount (instcount : option Count) : Count :=
  match instcount with
  | Some v => v
  | None => Some 0
  end.

(** The state of the loop of [getClassTree]. *)
Record TreeState := mkTreeState {
  objs : list ClassModel;
  arrays : list (list ref);
  tree : list ref;
  createdTreeNodes : Dictionary;
  tempNodes : Dictionary;
}.











(** *** [getClassInfo] *)

(** [classes[id]]: the position and the model. *)
Definition findClass (classes : list ClassModel) (i : string)
  : option (nat * ClassModel) :=
  list_find (λ m, id_ m = i) classes.

(** [values.some(label => isLocalizedEqual(label, newLabel))]; reading a
    field of [undefined] is a TypeError. *)
Fixpoint someLocalizedEqual (values : list (option LocalizedString))
    (newLabel : option LocalizedString) : option bool :=
  match values with
  | [] => Some false
  | lbl :: values' =>
    l ← lbl; r ← newLabel;
    if bool_decide (lang l = lang r) && bool_decide (text l = text r)
    then Some true
    else someLocalizedEqual values' newLabel
  end.

(** The body of the first loop of [getClassInfo].  No array is shared
    here: the [children] of the k-th model is the k-th array, empty. *)
Definition classInfoStep (classes : list ClassModel) (binding : ClassBinding)
  : option (list ClassModel) :=
  match bclass binding with
  | None => Some classes
  | Some id =>
    match findClass classes id with
    | Some (k, model) =>
      let newLabel := getLocalizedString (blabel binding) None in
      found ← someLocalizedEqual (label model) newLabel;
      let values := if found : bool then label model
                    else label model ++ [newLabel] in
      let instanceCount := getInstCount (binstcount binding) in
      let c := if isNaN instanceCount then count model
               else count_max (count model) instanceCount in
      Some (<[k := set_count c (set_label values model)]> classes)
    | None =>
      let label := getLocalizedString (blabel binding) None in
      Some (classes ++
              [mkClass id (match label with Some l => [Some l] | None => [] end)
                 (getInstCount (binstcount binding)) (length classes) None])
    end
  end.

Definition getClassInfo (bindings : list ClassBinding)
  : option (list ClassModel) :=
  classes ← each classInfoStep bindings [];
  Some (map (λ model,
          match label model with
          | [] => set_label [getLocalizedString None (Some (id_ model))] model
          | _ => model
          end) classes).

(** *** Statement vocabulary *)

(** The bindings of the class [i], in the order of the response. *)
Definition bindingsOf (i : string) (bindings : list ClassBinding)
  : list ClassBinding :=
  filter (λ b, bclass b = Some i) bindings.


(** The count [getClassInfo] leaves at a class: [Math.max] over its
    bindings, a NaN count after the first being skipped. *)
Definition maxCountFrom (c : Count) (bs : list ClassBinding) : Count :=
  fold_left (λ c b,
      let instanceCount := getInstCount (binstcount b) in
      if isNaN instanceCount then c else count_max c instanceCount) bs c.





(** The heap invariant of the loop: a dictionary entry leads to an object
    of that id. *)
Definition keyed (st : TreeState) : Prop :=
  (∀ k r, dict_get (createdTreeNodes st) k = Some r →
          id_ <$> objs st !! r = Some k) ∧
  (∀ k r, dict_get (tempNodes st) k = Some r →
          id_ <$> objs st !! r = Some k).

End Classes.

(** * Vocabulary of the further properties *)

Section PathVocabulary.
Context {N : Type}.

(** [l] follows [children]: every concept of [l] is a child of the one
    before it. *)
Fixpoint childChain (s : Store N) (l : list ref) : Prop :=
  match l with
  | [] => True
  | x :: l' =>
    match l' with
    | [] => True
    | y :: _ => y ∈ kids s x ∧ childChain s l'
    end
  end.

(** A concept without children. *)
Definition isLeaf (s : Store N) (c : ref) : Prop :=
  ∃ cm, s !! c = Some cm ∧ children cm = [].

End PathVocabulary.

(* ---- properties ---- *)

Section TraversalVocabulary.
Context {N : Type}.

(** Two heaps with the same objects and the same [children] and [parent]
    arrays. *)
Definition sameGraph (s s' : Store N) : Prop :=
  length s' = length s ∧ ∀ d, kids s' d = kids s d ∧ pars s' d = pars s d.

(** The [level] of the object at [d]. *)
Definition levelAt (s : Store N) (d : ref) : option nat :=
  cm ← s !! d; level cm.

(** [d] is a proper descendant of [a]. *)
Definition descendant (s : Store N) (a d : ref) : Prop :=
  tc (λ x y, y ∈ kids s x) a d.

(** The arrays hold objects of the heap. *)
Definition arrays_valid (s : Store N) : Prop :=
  ∀ d x, (x ∈ kids s d → x < length s) ∧ (x ∈ pars s d → x < length s).

End TraversalVocabulary.

Section BuilderVocabulary.
Context {N : Type}.

(** The id of the object at [r]. *)
Definition idAt (s : Store N) (r : ref) : option string := id_ <$> s !! r.











End BuilderVocabulary.

Section ListVocabulary.
Context {N : Type}.

(** The concepts below [c] in the order [addConcept] visits them, a
    concept once per path that leads to it; [fuel] bounds the depth. *)
Fixpoint preorder (fuel : nat) (s : Store N) (c : ref) : list ref :=
  match fuel with
  | 0 => []
  | S fuel' => c :: (k ← kids s c; preorder fuel' s k)
  end.

(** The [propertyCount] of the object at [c]. *)
Definition propertyCountAt (s : Store N) (c : ref) : option nat :=
  propertyCount <$> s !! c.

(** Every concept has at most one parent, and no [children] array names
    a concept twice. *)
Definition treeShaped (s : Store N) : Prop :=
  ∀ c, length (pars s c) ≤ 1 ∧ NoDup (kids s c).

End ListVocabulary.

(** The character [c] occurs in [str]. *)
Fixpoint occursIn (c : ascii) (str : string) : Prop :=
  match str with
  | EmptyString => False
  | String a str' => a = c ∨ occursIn c str'
  end.

#[global] Instance occursIn_dec c str : Decision (occursIn c str).
Proof. induction str as [|a str IH]; simpl; apply _. Defined.

Module ClassVocabulary.
Import Classes.



End ClassVocabulary.

Section ScoringVocabulary.
Context {N : Type}.

(** Every path consists of objects of the heap. *)
Definition paths_valid (m : DiagramModel (N := N)) : Prop :=
  ∀ p c, p ∈ paths m → c ∈ p → c < length (heap m).

End ScoringVocabulary.

(** * Concrete ontologies

    Small responses and the heaps the handlers build from them, over
    binary64 numbers. *)
Module Examples.
Import Float64.
Local Open Scope string_scope.

Definition binding (c : string) (p : option string) : ConceptBinding :=
  mkBinding c p None.

(** The heap after the bindings are read and the root is chosen, before
    [updateConceptTree]. *)
Definition linked (sNodes : list ConceptBinding) : Store float :=
  match each instanceStep sNodes ([], []) ≫= getRootOfConceptsTree with
  | Some (s, _) => s
  | None => []
  end.

(** The heap [getInstanceConceptsTree] returns. *)
Definition built (sNodes : list ConceptBinding) : Store float :=
  match getInstanceConceptsTree 16 sNodes with
  | Some (s, _) => s
  | None => []
  end.

(** A chain: Thing, Animal under it, Dog under Animal. *)
Definition chainBindings : list ConceptBinding :=
  [ binding "http://example.org/zoo#Thing" None;
    binding "http://example.org/zoo#Animal"
            (Some "http://example.org/zoo#Thing");
    binding "http://example.org/zoo#Dog"
            (Some "http://example.org/zoo#Animal") ].

Definition chainStore : Store float := Eval vm_compute in built chainBindings.




(** A tree: R with children A and B, A with child C. *)
Definition treeBindings : list ConceptBinding :=
  [ binding "R" None; binding "A" (Some "R"); binding "B" (Some "R");
    binding "C" (Some "A") ].

Definition treeStore : Store float := Eval vm_compute in built treeBindings.

(** A graph with a shared child: A is a child of R and of B; below A
    are C and then D. *)
Definition dagBindings : list ConceptBinding :=
  [ binding "R" None; binding "A" (Some "R"); binding "B" (Some "R");
    binding "A" (Some "B"); binding "C" (Some "A"); binding "D" (Some "C") ].

Definition dagLinked : Store float := Eval vm_compute in linked dagBindings.
Definition dagStore : Store float := Eval vm_compute in built dagBindings.

(** A heap with a cycle: 0 and 1 are children of each other, 2 is a
    child of 1. *)
Definition cyclicStore : Store float :=
  [ set_parent [1] (set_children [1] (getConceptModel "a"));
    set_parent [0] (set_children [0; 2] (getConceptModel "b"));
    set_parent [1] (getConceptModel "c") ].


(** The model [setConceptTree] makes of the tree of the bindings. *)
Definition modelOf (sNodes : list ConceptBinding) : DiagramModel :=
  default (mkModel [] [] [] 0%float)
    ('(s, r) ← getInstanceConceptsTree 16 sNodes;
     setConceptTree 16 s r [] 0%float).

Definition scored (m : DiagramModel) : DiagramModel :=
  default (mkModel [] [] [] 0%float) (scoreConcepts 16 m).

(** The state in which the selection loop starts from the working set
    [best]. *)
Definition selecting (m : DiagramModel) (best : list ref) : Selection :=
  default ([], [], 0%float, 0%float)
    ('(s, avgC) ← calcContributionOfConcepts best (heap m);
     '(s, avgO) ← calcOverallScoreOfConcepts best s;
     Some (s, best, avgC, avgO)).

(** Two branches: R with children A and X; A1 and A2 under A, A1a under
    A1, X1 under X.  The concepts are numbered in this order. *)
Definition branchBindings : list ConceptBinding :=
  [ binding "R" None; binding "A" (Some "R"); binding "A1" (Some "A");
    binding "A1a" (Some "A1"); binding "A2" (Some "A");
    binding "X" (Some "R"); binding "X1" (Some "X") ].

Definition branchModel : DiagramModel :=
  Eval vm_compute in modelOf branchBindings.
Definition branchScored : DiagramModel :=
  Eval vm_compute in scored branchModel.

(** The two best scored concepts are A and A1. *)
Definition branchSelecting : Selection :=
  Eval vm_compute in selecting branchScored [1; 2].


Definition dagModel : DiagramModel :=
  Eval vm_compute in modelOf dagBindings.


(** The tree of [treeBindings] before [updateConceptTree]. *)
Definition treeLinked : Store float := Eval vm_compute in linked treeBindings.





(** Property counts for the chain Thing, Animal, Dog: two for Dog and
    one for an id that is not in the tree. *)
Definition chainCounts : list (string * nat) :=
  [ ("http://example.org/zoo#Dog", 3); ("http://example.org/zoo#Dog", 4);
    ("http://example.org/zoo#Cat", 1) ].

Definition chainCounted : DiagramModel :=
  Eval vm_compute in
    default (mkModel [] [] [] 0%float)
            (setConceptTree 16 chainStore 0 chainCounts 0%float).

(** A class bound with a label and then again without one. *)
Definition unlabelledAgain : list Classes.ClassBinding :=
  [ Classes.mkClassBinding (Some "http://example.org/zoo#Dog") (Some (Some 3))
      (Some (Classes.mkLiteral "Dog" None)) None;
    Classes.mkClassBinding (Some "http://example.org/zoo#Dog") (Some (Some 5))
      None None ].

End Examples.

(** * Properties *)

(** A decidable statement about a concrete value, settled by evaluation. *)
Ltac by_evaluation :=
  match goal with
  | |- ?Q => apply (bool_decide_unpack Q); vm_compute; exact I
  end.

(** ** Iteration *)

Section Each.
Context {A B : Type}.

Lemma each_app (f : B → A → option B) l1 l2 acc :
  each f (l1 ++ l2) acc = acc' ← each f l1 acc; each f l2 acc'.
Proof.
  revert acc. induction l1 as [|x l1 IH]; intros acc; simpl; [done|].
  destruct (f acc x); simpl; [apply IH|done].
Qed.

(** An invariant of the loop body is an invariant of the loop. *)
Lemma each_inv (P : B → Prop) (f : B → A → option B) l acc r :
  (∀ acc x acc', x ∈ l → P acc → f acc x = Some acc' → P acc') →
  P acc → each f l acc = Some r → P r.
Proof.
  revert acc. induction l as [|x l IH]; intros acc Hf Hacc Hr; simpl in *.
  - by simplify_eq.
  - destruct (f acc x) as [acc'|] eqn:Heq; simplify_eq/=.
    eapply IH; [|by eapply Hf; [left|..]|done].
    intros ???? ; apply Hf. by right.
Qed.

(** A loop whose body succeeds under an invariant succeeds. *)
Lemma each_total (P : B → Prop) (f : B → A → option B) l acc :
  (∀ acc x, x ∈ l → P acc → ∃ acc', f acc x = Some acc' ∧ P acc') →
  P acc → ∃ r, each f l acc = Some r ∧ P r.
Proof.
  revert acc. induction l as [|x l IH]; intros acc Hf Hacc; simpl.
  - eauto.
  - destruct (Hf acc x) as (acc' & -> & Hacc'); [left|done|]. simpl.
    apply IH; [|done]. intros ????; apply Hf; [by right|done].
Qed.

End Each.

(** ** Arrays *)

Section LodashFacts.
Context {A : Type} `{EqDecision A}.
Implicit Types l a b : list A.

Lemma uniq_fold_spec l acc :
  NoDup acc →
  let r := fold_left (λ acc x, if bool_decide (x ∈ acc) then acc
                               else acc ++ [x]) l acc in
  NoDup r ∧ (∀ x, x ∈ r ↔ x ∈ acc ∨ x ∈ l) ∧ acc `prefix_of` r.
Proof.
  revert acc. induction l as [|y l IH]; intros acc Hacc; simpl.
  - split_and!; [done| |done]. intros x. rewrite elem_of_nil. tauto.
  - case_bool_decide as Hy.
    + destruct (IH acc Hacc) as (Hnd & Hin & Hpre). split_and!; [done| |done].
      intros x. rewrite Hin, elem_of_cons. split; [tauto|].
      intros [?|[->|?]]; tauto.
    + assert (NoDup (acc ++ [y])) as Hacc'.
      { apply NoDup_app. split_and!; [done| |apply NoDup_singleton].
        intros x Hx ->%list_elem_of_singleton. done. }
      destruct (IH _ Hacc') as (Hnd & Hin & Hpre). split_and!; [done| |].
      * intros x. rewrite Hin, elem_of_app, list_elem_of_singleton, elem_of_cons.
        tauto.
      * etrans; [|exact Hpre]. by apply prefix_app_r.
Qed.


Lemma elem_of_uniq l x : x ∈ uniq l ↔ x ∈ l.
Proof.
  destruct (uniq_fold_spec l [] (NoDup_nil_2)) as (_ & Hin & _).
  unfold uniq. rewrite Hin, elem_of_nil. tauto.
Qed.




Lemma elem_of_union_list a b x : x ∈ union a b ↔ x ∈ a ∨ x ∈ b.
Proof. unfold union. by rewrite elem_of_uniq, elem_of_app. Qed.


Lemma elem_of_union3 a b c x : x ∈ union3 a b c ↔ x ∈ a ∨ x ∈ b ∨ x ∈ c.
Proof. unfold union3. by rewrite elem_of_uniq, !elem_of_app. Qed.

Lemma elem_of_difference_list a b x : x ∈ difference a b ↔ x ∈ a ∧ x ∉ b.
Proof. unfold difference. rewrite list_elem_of_filter. tauto. Qed.


End LodashFacts.

(** ** The heap *)

Section Heap.
Context {N : Type} `{JsNumber N}.
Implicit Types s : Store N.

Lemma modify_Some c f s s' :
  modify c f s = Some s' ↔ ∃ cm, s !! c = Some cm ∧ s' = <[c := f cm]> s.
Proof.
  unfold modify. destruct (s !! c) as [cm|]; simpl; split.
  - intros [= <-]. eauto.
  - intros (? & [= <-] & ->). done.
  - done.
  - intros (? & [=] & _).
Qed.

Lemma modify_length c f s s' : modify c f s = Some s' → length s' = length s.
Proof. intros (cm & _ & ->)%modify_Some. by rewrite length_insert. Qed.

Lemma modify_lookup_eq c f s s' cm :
  modify c f s = Some s' → s !! c = Some cm → s' !! c = Some (f cm).
Proof.
  intros (cm' & Hc & ->)%modify_Some Hcm. simplify_eq.
  apply list_lookup_insert_eq. by eapply lookup_lt_Some.
Qed.

Lemma modify_lookup_ne c d f s s' :
  modify c f s = Some s' → c ≠ d → s' !! d = s !! d.
Proof. intros (cm' & Hc & ->)%modify_Some Hne. by apply list_lookup_insert_ne. Qed.

Lemma modify_total c f s : c < length s → is_Some (modify c f s).
Proof.
  intros [cm Hc]%lookup_lt_is_Some_2. unfold modify. rewrite Hc. by eexists.
Qed.

(** What a field update on [c] does to the object at any [d]. *)
Lemma modify_lookup c d f s s' :
  modify c f s = Some s' →
  s' !! d = if bool_decide (c = d) then f <$> s !! d else s !! d.
Proof.
  intros Hm. case_bool_decide as Hcd.
  - subst d. pose proof Hm as (cm & Hc & _)%modify_Some.
    rewrite Hc. simpl. by eapply modify_lookup_eq.
  - by eapply modify_lookup_ne.
Qed.

(** Sufficient conditions that are decided by evaluation on a concrete
    heap. *)
Lemma refs_valid_Forall s :
  Forall (λ cm, Forall (λ x, x < length s) (children cm)
                ∧ Forall (λ x, x < length s) (parent cm)) s →
  refs_valid s.
Proof.
  intros Hall c cm Hc.
  destruct (proj1 (Forall_lookup _ _) Hall c cm Hc) as [H1 H2].
  split; intros x Hx.
  - by apply (proj1 (Forall_forall _ _) H1).
  - by apply (proj1 (Forall_forall _ _) H2).
Qed.

Lemma links_consistent_Forall s :
  Forall (λ a, Forall (λ b, a ∈ pars s b) (kids s a)
               ∧ Forall (λ b, a ∈ kids s b) (pars s a))
         (seq 0 (length s)) →
  links_consistent s.
Proof.
  intros Hall a b.
  assert (∀ i l, i ∈ (default [] l : list ref) → is_Some l) as Hsome.
  { intros i [l|]; [by eexists|]. by intros ?%elem_of_nil. }
  split; intros Hx.
  - assert (a < length s) as Ha.
    { apply Hsome, fmap_is_Some in Hx. by apply lookup_lt_is_Some_1. }
    assert (a ∈ seq 0 (length s)) as Hin by (apply elem_of_seq; lia).
    destruct (proj1 (Forall_forall _ _) Hall a Hin) as [H1 _].
    by apply (proj1 (Forall_forall _ _) H1 b).
  - assert (b < length s) as Hb.
    { apply Hsome, fmap_is_Some in Hx. by apply lookup_lt_is_Some_1. }
    assert (b ∈ seq 0 (length s)) as Hin by (apply elem_of_seq; lia).
    destruct (proj1 (Forall_forall _ _) Hall b Hin) as [_ H2].
    by apply (proj1 (Forall_forall _ _) H2 a).
Qed.

Lemma closures_fresh_Forall s :
  Forall (λ cm, allSubConcepts cm = [] ∧ allSuperConcepts cm = []) s →
  closures_fresh s.
Proof.
  intros Hall d. unfold subs, sups.
  destruct (s !! d) as [cm|] eqn:Hd; [|done].
  destruct (proj1 (Forall_lookup _ _) Hall d cm Hd) as [H1 H2].
  simpl. by rewrite H1, H2.
Qed.


(** A field update leaves every projection it does not touch unchanged. *)
Lemma modify_frame {X} (g : ConceptModel N → X) c f s s' :
  modify c f s = Some s' → (∀ cm, g (f cm) = g cm) →
  ∀ d, g <$> s' !! d = g <$> s !! d.
Proof.
  intros Hm Hg d. rewrite (modify_lookup _ _ _ _ _ Hm).
  destruct (bool_decide (c = d)); [|done].
  destruct (s !! d); simpl; [|done]. by rewrite Hg.
Qed.

End Heap.

(** ** Root-to-leaf paths *)

Section Paths.
Context {N : Type} `{JsNumber N}.

Lemma bounded_NoDup_length (l : list nat) (n : nat) :
  NoDup l → (∀ x, x ∈ l → x < n) → length l ≤ n.
Proof.
  intros Hnd Hlt.
  assert (l ⊆+ seq 0 n) as Hsub.
  { apply NoDup_submseteq; [done|].
    intros x Hx. apply elem_of_seq. specialize (Hlt x Hx). lia. }
  apply submseteq_length in Hsub. by rewrite length_seq in Hsub.
Qed.

Lemma each_paths_spec (P : list ref → Prop)
    (f : ref → option (list (list ref))) (l : list ref) acc :
  (∀ x, x ∈ l → ∃ r, f x = Some r ∧ Forall P r) →
  Forall P acc →
  ∃ r, each (λ result x, subResults ← f x; Some (result ++ subResults)) l acc
       = Some r ∧ Forall P r.
Proof.
  revert acc. induction l as [|x l IH]; intros acc Hf Hacc; simpl.
  - eauto.
  - destruct (Hf x) as (r & -> & Hr); [left|]. simpl.
    apply IH.
    + intros y Hy. apply Hf. by right.
    + by apply Forall_app.
Qed.

Lemma calcAllPaths_S fuel (s : Store N) start path :
  calcAllPaths (S fuel) s start path =
    if bool_decide (start ∈ path) then Some []
    else
      c ← s !! start;
      if bool_decide (length (children c) = 0) then Some [path ++ [start]]
      else
        each (λ result subConcept,
                subResults ← calcAllPaths fuel s subConcept (path ++ [start]);
                Some (result ++ subResults))
             (children c) [].
Proof. reflexivity. Qed.

Lemma calcAllPaths_total (s : Store N) :
  refs_valid s →
  ∀ fuel start path,
    start < length s → NoDup path → (∀ x, x ∈ path → x < length s) →
    length s < fuel + length path →
    ∃ paths, calcAllPaths fuel s start path = Some paths ∧
             Forall (λ p, NoDup p ∧ path `prefix_of` p) paths.
Proof.
  intros Hvalid. induction fuel as [|fuel IH]; intros start path Hs Hnd Hin Hf.
  - pose proof (bounded_NoDup_length path (length s) Hnd Hin). simpl in *. lia.
  - rewrite calcAllPaths_S. case_bool_decide as Hmem; [eauto|].
    destruct (lookup_lt_is_Some_2 s start Hs) as [c Hc]. rewrite Hc. simpl.
    assert (NoDup (path ++ [start])) as Hnd'.
    { apply NoDup_app. split_and!; [done| |apply NoDup_singleton].
      intros x Hx ->%list_elem_of_singleton. done. }
    assert (∀ x, x ∈ path ++ [start] → x < length s) as Hin'.
    { intros x [?| ->%list_elem_of_singleton]%elem_of_app; auto. }
    case_bool_decide as Hleaf.
    + eexists. split; [done|]. constructor; [|constructor].
      split; [done|]. by apply prefix_app_r.
    + destruct (each_paths_spec (λ p, NoDup p ∧ path `prefix_of` p)
                  (λ x, calcAllPaths fuel s x (path ++ [start]))
                  (children c) []) as (r & Hr & HP); [|constructor|eauto].
      intros x Hx.
      destruct (IH x (path ++ [start])) as (r & Hr & HP); try done.
      * by apply (proj1 (Hvalid start c Hc)).
      * rewrite length_app. simpl. lia.
      * exists r. split; [done|].
        eapply Forall_impl; [exact HP|]. intros p [? Hp]. split; [done|].
        etrans; [|exact Hp]. by apply prefix_app_r.
Qed.

(** C10. [calcAllPaths] returns on every concept graph, cyclic or with
    shared children, once the fuel exceeds the number of objects, because
    a concept already on the current path is not extended; every path it
    returns consists of pairwise distinct concepts. *)
Theorem calcAllPaths_terminates_distinct (s : Store N) (start : ref) :
  refs_valid s → start < length s →
  ∀ fuel, length s < fuel →
    ∃ paths, calcAllPaths fuel s start [] = Some paths ∧ Forall NoDup paths.
Proof.
  intros Hvalid Hstart fuel Hfuel.
  destruct (calcAllPaths_total s Hvalid fuel start []) as (paths & Hp & HP).
  - done.
  - constructor.
  - intros x Hx. by apply elem_of_nil in Hx.
  - simpl. lia.
  - exists paths. split; [done|].
    eapply Forall_impl; [exact HP|]. by intros p [? _].
Qed.

End Paths.

(** The enumeration on a heap with a cycle. *)
Lemma calcAllPaths_cyclic_witness :
  ∃ paths, calcAllPaths 4 Examples.cyclicStore 0 [] = Some paths
           ∧ Forall NoDup paths.
Proof.
  apply (calcAllPaths_terminates_distinct Examples.cyclicStore 0).
  - apply refs_valid_Forall. by_evaluation.
  - vm_compute. lia.
  - vm_compute. lia.
Defined.

(** ** The neighbourhood of a concept *)

Section Nearest.
Context {N : Type} `{JsNumber N}.
Implicit Types s : Store N.





End Nearest.



(** ** The closures computed by [updateConceptTree] *)

Section Closure.
Context {N : Type} `{JsNumber N}.
Implicit Types s t : Store N.

(** The graph is fixed by [K] (children) and [P] (parents); both
    traversals leave it unchanged. *)
Variables K P : ref → list ref.

Local Abbreviation E := (λ a b : ref, b ∈ K a).
Local Abbreviation D := (tc E).
Local Abbreviation Ds := (rtc E).
Local Abbreviation shape := (ClosureInv.shape K P).
Local Abbreviation sub_sound := (ClosureInv.sub_sound K).
Local Abbreviation sub_post := (ClosureInv.sub_post K P).
Local Abbreviation sub_inv := (ClosureInv.sub_inv K P).
Local Abbreviation bounded := (ClosureInv.bounded K).
Local Abbreviation sup_sound := (ClosureInv.sup_sound K).
Local Abbreviation covOK := ClosureInv.covOK.

Lemma Ds_D_or_eq a b : Ds a b ↔ a = b ∨ D a b.
Proof.
  split.
  - intros [->|?]%rtc_tc; auto.
  - intros [->|?]; [done|by apply tc_rtc].
Qed.

Lemma D_first a b : D a b → ∃ y, E a y ∧ Ds y b.
Proof.
  intros [x y Hab|x y z Hxy Hyz].
  - exists y. by split.
  - exists y. split; [done|by apply tc_rtc].
Qed.

Lemma D_last a b : D a b → ∃ y, Ds a y ∧ E y b.
Proof.
  intros Hab. induction Hab as [a b Hab|a y b Hay Hyb IH].
  - exists a. split; [done|done].
  - destruct IH as (z & Hyz & Hzb). exists z. split; [|done].
    by eapply rtc_l.
Qed.

Lemma kids_lookup s d dm : s !! d = Some dm → kids s d = children dm.
Proof. unfold kids. by intros ->. Qed.

Lemma pars_lookup s d dm : s !! d = Some dm → pars s d = parent dm.
Proof. unfold pars. by intros ->. Qed.

(** Rewriting of the accessors through one field update. *)
Ltac through_modify Hm :=
  unfold kids, pars, subs, sups, cov;
  rewrite (modify_frame _ _ _ _ _ Hm) by (intros; reflexivity);
  try done.

Lemma subs_modify_app c (g : ConceptModel N → list ref) s s' cm :
  s !! c = Some cm →
  modify c (λ c, set_allSubConcepts (allSubConcepts c ++ g c) c) s = Some s' →
  ∀ d, subs s' d = if bool_decide (d = c) then subs s c ++ g cm else subs s d.
Proof.
  intros Hc Hm d. unfold subs. rewrite (modify_lookup _ _ _ _ _ Hm).
  destruct (decide (d = c)) as [->|Hne].
  - rewrite !bool_decide_eq_true_2 by done. by rewrite Hc.
  - rewrite !bool_decide_eq_false_2 by done. done.
Qed.

Lemma sups_modify_app c (g : ConceptModel N → list ref) s s' cm :
  s !! c = Some cm →
  modify c (λ c, set_allSuperConcepts (allSuperConcepts c ++ g c) c) s
    = Some s' →
  ∀ d, sups s' d = if bool_decide (d = c) then sups s c ++ g cm else sups s d.
Proof.
  intros Hc Hm d. unfold sups. rewrite (modify_lookup _ _ _ _ _ Hm).
  destruct (decide (d = c)) as [->|Hne].
  - rewrite !bool_decide_eq_true_2 by done. by rewrite Hc.
  - rewrite !bool_decide_eq_false_2 by done. done.
Qed.

(** *** First traversal *)

Lemma addSubConcept_loop fuel c lvl s :
  (∀ y l t t', shape t → addSubConcept fuel y l t = Some t' → sub_post y t t') →
  ∀ rest done t t',
    (∀ y, y ∈ rest → y ∈ K c) →
    sub_inv c done s t →
    each (λ s child,
          s ← addSubConcept fuel child lvl s;
          ch ← s !! child;
          s ← modify c (λ c, set_allSubConcepts
                               (allSubConcepts c ++ allSubConcepts ch) c) s;
          ch ← s !! child;
          modify c (λ c, set_indirectSubConcepts
                           (indirectSubConcepts c ++ allSubConcepts ch) c) s)
       rest t = Some t' →
    sub_inv c (done ++ rest) s t'.
Proof.
  intros IH. induction rest as [|y rest IHrest]; intros done t t' Hrest Hinv Hrun.
  - simpl in Hrun. simplify_eq. by rewrite app_nil_r.
  - simpl in Hrun.
    destruct (addSubConcept fuel y lvl t) as [t1|] eqn:Hrec; [|done].
    simpl in Hrun.
    destruct (t1 !! y) as [ch|] eqn:Hch; [|done]. simpl in Hrun.
    destruct (modify c _ t1) as [t2|] eqn:Hm2; [|done]. simpl in Hrun.
    destruct (t2 !! y) as [ch'|] eqn:Hch'; [|done]. simpl in Hrun.
    destruct (modify c _ t2) as [t3|] eqn:Hm3; [|done]. simpl in Hrun.
    destruct Hinv as (Hsh & Hsup & Hmono & Hsound & Hdone & Hdonec & Hkids).
    destruct (IH y lvl t t1 Hsh Hrec) as (Hsh1 & Hsup1 & Hmono1 & Hsound1 & Hcomp1).
    assert (subs t1 y = allSubConcepts ch) as Hsubs_y.
    { unfold subs. by rewrite Hch. }
    assert (∀ d, kids t3 d = kids t1 d ∧ pars t3 d = pars t1 d
                 ∧ sups t3 d = sups t1 d) as Hframe.
    { intros d. split_and!.
      - trans (kids t2 d); [through_modify Hm3|through_modify Hm2].
      - trans (pars t2 d); [through_modify Hm3|through_modify Hm2].
      - trans (sups t2 d); [through_modify Hm3|through_modify Hm2]. }
    assert (∀ d x, x ∈ subs t3 d ↔
                   x ∈ subs t1 d ∨ (d = c ∧ c < length t1 ∧ x ∈ subs t1 y))
      as Hsubs3.
    { intros d x.
      assert (subs t3 d = subs t2 d) as -> by through_modify Hm3.
      pose proof Hm2 as (cm & Hcm & _)%modify_Some.
      unfold subs at 1. rewrite (modify_lookup _ _ _ _ _ Hm2).
      case_bool_decide as Hcd.
      - subst d. unfold subs at 1. rewrite Hcm. simpl.
        rewrite elem_of_app, Hsubs_y.
        apply lookup_lt_Some in Hcm. split; [|tauto].
        intros [?|?]; [by left|by right].
      - unfold subs at 2. split; [by left|]. by intros [?|[? _]]. }
    replace (done ++ y :: rest) with ((done ++ [y]) ++ rest)
      by (by rewrite <- app_assoc).
    apply (IHrest _ t3); [|
      |done].
    { intros z Hz. apply Hrest. by right. }
    assert (y ∈ K c) as HyK by (apply Hrest; left).
    split_and!.
    + intros d. destruct (Hframe d) as (-> & -> & _). apply Hsh1.
    + intros d. destruct (Hframe d) as (_ & _ & ->). by rewrite Hsup1.
    + intros d x Hx. apply Hsubs3. left. by apply Hmono1, Hmono.
    + intros Hs d x [Hx|(-> & _ & Hx)]%Hsubs3.
      * by apply Hsound1; [apply Hsound|].
      * eapply tc_l; [exact HyK|]. by apply Hsound1; [apply Hsound|].
    + intros z [Hz| ->%list_elem_of_singleton]%elem_of_app d Hd x Hx.
      * apply Hsubs3. left. apply Hmono1. by apply (Hdone z Hz d Hd).
      * apply Hsubs3. left. by apply Hcomp1.
    + intros z [Hz| ->%list_elem_of_singleton]%elem_of_app x Hx.
      * apply Hsubs3. left. apply Hmono1. by apply (Hdonec z Hz).
      * apply Ds_D_or_eq in Hx as [<-|Hx].
        -- apply Hsubs3. left. by apply Hmono1, Hkids.
        -- apply Hsubs3. right. split; [done|]. split.
           ++ rewrite <- (proj1 (Hsh1 c)) in HyK. unfold kids in HyK.
              destruct (t1 !! c) eqn:Heq; [by eapply lookup_lt_Some|].
              by apply elem_of_nil in HyK.
           ++ apply Hcomp1; [done|done].
    + intros z Hz. apply Hsubs3. left. by apply Hmono1, Hkids.
Qed.

Lemma addSubConcept_post fuel :
  ∀ c lvl s s', shape s → addSubConcept fuel c lvl s = Some s' → sub_post c s s'.
Proof.
  induction fuel as [|fuel IH]; intros c lvl s s' Hsh Hrun; [done|].
  simpl in Hrun.
  destruct (s !! c) as [cm|] eqn:Hc; [|done]. simpl in Hrun.
  destruct (modify c (set_level (Some lvl)) s) as [sa|] eqn:Hma; [|done].
  simpl in Hrun.
  destruct (modify c _ sa) as [sb|] eqn:Hmb; [|done]. simpl in Hrun.
  assert (K c = children cm) as HK.
  { rewrite <- (proj1 (Hsh c)). by apply kids_lookup. }
  pose proof (modify_lookup_eq _ _ _ _ _ Hma Hc) as Hca. simpl in Hca.
  assert (∀ d, subs sa d = subs s d) as Hsa.
  { intros d. through_modify Hma. }
  assert (sub_inv c [] s sb) as Hinv.
  { split_and!.
    - intros d. rewrite <- (proj1 (Hsh d)), <- (proj2 (Hsh d)). split.
      + trans (kids sa d); [through_modify Hmb|through_modify Hma].
      + trans (pars sa d); [through_modify Hmb|through_modify Hma].
    - intros d. trans (sups sa d); [through_modify Hmb|through_modify Hma].
    - intros d x Hx. rewrite (subs_modify_app _ _ _ _ _ Hca Hmb), !Hsa.
      destruct (bool_decide (d = c)) eqn:Hd; [|done].
      apply bool_decide_eq_true_1 in Hd as ->. apply elem_of_app. by left.
    - intros Hs d x. rewrite (subs_modify_app _ _ _ _ _ Hca Hmb), !Hsa.
      destruct (bool_decide (d = c)) eqn:Hd; [|by apply Hs].
      apply bool_decide_eq_true_1 in Hd as ->.
      intros [?|Hx]%elem_of_app; [by apply Hs|].
      apply tc_once. rewrite HK. exact Hx.
    - intros y Hy. by apply elem_of_nil in Hy.
    - intros y Hy. by apply elem_of_nil in Hy.
    - intros y Hy. rewrite (subs_modify_app _ _ _ _ _ Hca Hmb).
      rewrite bool_decide_eq_true_2 by done.
      apply elem_of_app. right. simpl. by rewrite <- HK. }
  assert (sub_inv c (K c) s s') as Hfin.
  { case_bool_decide as Hne.
    - rewrite HK. apply (addSubConcept_loop fuel c (lvl + 1) s IH
                           (children cm) [] sb s'); [|done|done].
      intros y Hy. by rewrite HK.
    - simplify_eq. destruct (children cm) eqn:Hch; [|simpl in Hne; lia].
      by rewrite HK. }
  destruct Hfin as (Hsh' & Hsup & Hmono & Hsound & Hdone & Hdonec & _).
  split_and!; [done..|].
  intros d Hd x Hx. apply Ds_D_or_eq in Hd as [<-|Hd].
  - apply D_first in Hx as (y & Hy & Hyx). by apply (Hdonec y).
  - apply D_first in Hd as (y & Hy & Hyd). by apply (Hdone y Hy d).
Qed.

(** *** Second traversal *)

Hypothesis links : ∀ a b, b ∈ K a ↔ a ∈ P b.

(** The concepts of the tree, a set closed under [children]. *)
Variable T : ref → Prop.
Hypothesis T_closed : ∀ a b, T a → b ∈ K a → T b.

Local Abbreviation complete := (ClosureInv.complete K T).
Local Abbreviation sup_post := (ClosureInv.sup_post K P T).
Local Abbreviation sup_inv := (ClosureInv.sup_inv K P T).

Lemma T_closed_Ds a b : T a → Ds a b → T b.
Proof. intros Ha Hab. induction Hab; eauto. Qed.

Lemma bounded_S n c : bounded n c → bounded (S n) c.
Proof.
  revert c. induction n as [|n IH]; intros c Hb; [done|].
  intros y Hy. apply IH. by apply Hb.
Qed.

Lemma bounded_Ds n c d : bounded n c → Ds c d → bounded n d.
Proof.
  intros Hb Hcd. induction Hcd as [|a b d Hab _ IH]; [done|].
  apply IH. destruct n as [|n]; [done|]. apply bounded_S. by apply Hb.
Qed.

Lemma bounded_acyclic n d : bounded n d → ¬ D d d.
Proof.
  revert d. induction n as [|n IH]; intros d Hb Hdd; [done|].
  destruct (D_first d d Hdd) as (y & Hy & Hyd).
  apply (IH d); [|done]. eapply bounded_Ds; [|exact Hyd]. by apply Hb.
Qed.

Lemma em_False (Q : Prop) : ((Q ∨ ¬ Q) → False) → False.
Proof. intros HQ. apply HQ. right. intros Hq. apply HQ. by left. Qed.

Lemma complete_mono s s' d :
  (∀ x, x ∈ sups s d → x ∈ sups s' d) → complete s d → complete s' d.
Proof. intros Hm Hc a Ha Had. by apply Hm, Hc. Qed.

(** The loop over the parents of [c]. *)
Lemma addSuperConcepts_parents c :
  ∀ ps t t',
    each (λ s p,
          s ← modify c (λ c, set_allSuperConcepts (allSuperConcepts c ++ [p]) c) s;
          pm ← s !! p;
          modify c (λ c, set_allSuperConcepts
                           (allSuperConcepts c ++ allSuperConcepts pm) c) s)
       ps t = Some t' →
    (∀ p, p ∈ ps → c ∈ K p) →
    (∀ d, kids t' d = kids t d ∧ pars t' d = pars t d ∧ subs t' d = subs t d
          ∧ cov t' d = cov t d) ∧
    (∀ d, d ≠ c → sups t' d = sups t d) ∧
    (∀ x, x ∈ sups t c → x ∈ sups t' c) ∧
    (sup_sound t → sup_sound t') ∧
    (∀ p, p ∈ ps → p ∈ sups t' c ∧ (p ≠ c → ∀ x, x ∈ sups t p → x ∈ sups t' c)).
Proof.
  induction ps as [|p ps IH]; intros t t' Hrun Hps.
  - simpl in Hrun. simplify_eq. split_and!; [done..|].
    intros p Hp. by apply elem_of_nil in Hp.
  - simpl in Hrun.
    destruct (modify c _ t) as [t1|] eqn:Hm1; [|done]. simpl in Hrun.
    destruct (t1 !! p) as [pm|] eqn:Hpm; [|done]. simpl in Hrun.
    destruct (modify c _ t1) as [t2|] eqn:Hm2; [|done]. simpl in Hrun.
    pose proof Hm1 as (cm & Hc & _)%modify_Some.
    pose proof Hm2 as (cm1 & Hc1 & _)%modify_Some.
    pose proof (sups_modify_app c (λ _, [p]) _ _ _ Hc Hm1) as Hs1.
    pose proof (sups_modify_app c (λ _, allSuperConcepts pm) _ _ _ Hc1 Hm2)
      as Hs2.
    assert (sups t1 p = allSuperConcepts pm) as Hsp.
    { unfold sups. by rewrite Hpm. }
    destruct (IH t2 t' Hrun) as (Hfr & Hne & Hmono & Hsound & Hin).
    { intros q Hq. apply Hps. by right. }
    assert (∀ x, x ∈ sups t2 c ↔ x ∈ sups t c ∨ x = p ∨ x ∈ sups t1 p) as Hc2.
    { intros x. rewrite Hs2, bool_decide_eq_true_2 by done.
      rewrite Hs1, bool_decide_eq_true_2 by done.
      rewrite !elem_of_app, list_elem_of_singleton, Hsp. tauto. }
    assert (∀ d, d ≠ c → sups t2 d = sups t d) as Hne2.
    { intros d Hd. rewrite Hs2, bool_decide_eq_false_2 by done.
      by rewrite Hs1, bool_decide_eq_false_2 by done. }
    split_and!.
    + intros d. destruct (Hfr d) as (-> & -> & -> & ->). split_and!.
      * trans (kids t1 d); [through_modify Hm2|through_modify Hm1].
      * trans (pars t1 d); [through_modify Hm2|through_modify Hm1].
      * trans (subs t1 d); [through_modify Hm2|through_modify Hm1].
      * trans (cov t1 d); [through_modify Hm2|through_modify Hm1].
    + intros d Hd. by rewrite Hne, Hne2.
    + intros x Hx. apply Hmono, Hc2. by left.
    + intros Hs. apply Hsound. intros d x.
      destruct (decide (d = c)) as [->|Hd]; [|rewrite Hne2 by done; apply Hs].
      intros [Hx|[->|Hx]]%Hc2.
      * by apply Hs.
      * apply tc_once. apply Hps. by left.
      * eapply tc_r; [|apply Hps; by left].
        rewrite Hs1 in Hx. destruct (decide (p = c)) as [->|Hpc].
        -- rewrite bool_decide_eq_true_2 in Hx by done.
           apply elem_of_app in Hx as [Hx| ->%list_elem_of_singleton].
           ++ by apply Hs.
           ++ apply tc_once. apply Hps. by left.
        -- rewrite bool_decide_eq_false_2 in Hx by done. by apply Hs.
    + intros q [->|Hq]%elem_of_cons.
      * split.
        -- apply Hmono, Hc2. right. by left.
        -- intros Hpc x Hx. apply Hmono, Hc2. right. right.
           by rewrite Hs1, bool_decide_eq_false_2.
      * destruct (Hin q Hq) as [Hq1 Hq2]. split; [done|].
        intros Hqc x Hx. apply Hq2; [done|]. by rewrite Hne2.
Qed.

Lemma addSuperConcepts_children fuel sc :
  (∀ y t t', shape t → addSuperConcepts fuel y t = Some t' →
             sup_post fuel y t t') →
  ∀ rest done t t',
    sup_inv fuel done sc t →
    each (λ s child, addSuperConcepts fuel child s) rest t = Some t' →
    sup_inv fuel (done ++ rest) sc t'.
Proof.
  intros IH. induction rest as [|y rest IHrest]; intros done t t' Hinv Hrun.
  - simpl in Hrun. simplify_eq. by rewrite app_nil_r.
  - simpl in Hrun.
    destruct (addSuperConcepts fuel y t) as [t1|] eqn:Hrec; [|done].
    simpl in Hrun.
    replace (done ++ y :: rest) with ((done ++ [y]) ++ rest)
      by (by rewrite <- app_assoc).
    apply (IHrest _ t1); [|done].
    destruct Hinv as (Hsh & Hsub & Hmono & Hsound & Hcov & Hcovd & Hbd & HQ).
    destruct (IH y t t1 Hsh Hrec)
      as (Hsh1 & Hsub1 & Hmono1 & Hsound1 & Hcov1 & Hcovd1 & Hbd1 & Hmain).
    split_and!.
    + done.
    + intros d. by rewrite Hsub1.
    + intros d x Hx. by apply Hmono1, Hmono.
    + intros Hs. by apply Hsound1, Hsound.
    + intros d Hd. by apply Hcov1, Hcov.
    + intros z [Hz| ->%list_elem_of_singleton]%elem_of_app d Hd.
      * apply Hcov1. by apply (Hcovd z).
      * by apply Hcovd1.
    + intros z [Hz| ->%list_elem_of_singleton]%elem_of_app; [by apply Hbd|done].
    + intros d Hex Hanc a0 Ha0 Ha0d.
      destruct (decide (a0 ∈ sups t1 d)) as [|Hn]; [done|]. exfalso.
      apply (em_False (Ds y d)). intros [Hyd|Hnyd].
      * (* [d] is below the child just visited *)
        apply Hn. apply (Hmain d Hyd); [|done..].
        intros a Ha Had Hnya a1 Ha1 Ha1a.
        destruct (decide (a1 ∈ sups t a)) as [|Hn1]; [done|]. exfalso.
        apply (em_False (∃ z, z ∈ done ∧ Ds z a)). intros [Hz|Hnz].
        -- apply Hn1. apply (HQ a Hz); [|done..].
           intros a' Ha' Ha'a Hna'. apply Hanc; [done| |].
           ++ by eapply tc_trans.
           ++ intros z [Hz'| ->%list_elem_of_singleton]%elem_of_app;
                [by apply Hna'|].
              intros Hya'. apply Hnya. eapply rtc_trans; [exact Hya'|].
              by apply tc_rtc.
        -- apply Hn1. apply Hmono; [|done..]. apply Hanc; [done..| |done|done].
           intros z [Hz'| ->%list_elem_of_singleton]%elem_of_app; [|done].
           intros Hza. apply Hnz. eauto.
      * (* [d] is below an earlier child only *)
        apply Hn. apply Hmono1. apply HQ; [| |done..].
        -- destruct Hex as (z & [Hz| ->%list_elem_of_singleton]%elem_of_app
                              & Hzd); [eauto|done].
        -- intros a Ha Had Hna. apply Hanc; [done..|].
           intros z [Hz'| ->%list_elem_of_singleton]%elem_of_app;
             [by apply Hna|].
           intros Hya. apply Hnyd. eapply rtc_trans; [exact Hya|].
           by apply tc_rtc.
Qed.

Lemma addSuperConcepts_post fuel :
  ∀ c s s', shape s → addSuperConcepts fuel c s = Some s' →
            sup_post fuel c s s'.
Proof.
  induction fuel as [|fuel IH]; intros c s s' Hsh Hrun; [done|].
  simpl in Hrun.
  destruct (s !! c) as [cm|] eqn:Hc; [|done]. simpl in Hrun.
  destruct (each _ (parent cm) s) as [sp|] eqn:Hpar; [|done]. simpl in Hrun.
  destruct (modify c _ sp) as [sc|] eqn:Hmc; [|done]. simpl in Hrun.
  assert (K c = children cm) as HK.
  { rewrite <- (proj1 (Hsh c)). by apply kids_lookup. }
  assert (P c = parent cm) as HP.
  { rewrite <- (proj2 (Hsh c)). by apply pars_lookup. }
  destruct (addSuperConcepts_parents c (parent cm) s sp Hpar)
    as (Hfr & Hne & Hmono & Hsound & Hin).
  { intros p Hp. apply links. by rewrite HP. }
  pose proof Hmc as (cmp & Hcp & _)%modify_Some.
  assert (∀ d, kids sc d = kids s d ∧ pars sc d = pars s d
               ∧ subs sc d = subs s d ∧ sups sc d = sups sp d) as Hfc.
  { intros d. destruct (Hfr d) as (<- & <- & <- & _). split_and!.
    - through_modify Hmc.
    - through_modify Hmc.
    - through_modify Hmc.
    - through_modify Hmc. }
  assert (∀ d, d ≠ c → cov sc d = cov s d) as Hcovne.
  { intros d Hd. destruct (Hfr d) as (_ & _ & _ & <-).
    unfold cov. by rewrite (modify_lookup_ne _ _ _ _ _ Hmc). }
  assert (covOK sc c) as Hcovc.
  { intros x. destruct (Hfc c) as (_ & _ & -> & ->).
    destruct (Hfr c) as (_ & _ & <- & _).
    unfold cov. rewrite (modify_lookup_eq _ _ _ _ _ Hmc Hcp). simpl.
    rewrite elem_of_union3, list_elem_of_singleton.
    unfold sups, subs. by rewrite Hcp. }
  assert (sup_inv fuel [] sc sc) as Hinv0.
  { split_and!; try done.
    - intros d. destruct (Hfc d) as (-> & -> & _). apply Hsh.
    - intros y Hy. by apply elem_of_nil in Hy.
    - intros y Hy. by apply elem_of_nil in Hy.
    - intros d (y & Hy & _). by apply elem_of_nil in Hy. }
  pose proof (addSuperConcepts_children fuel sc IH (children cm) [] sc s'
                Hinv0 Hrun) as Hfin.
  simpl in Hfin. rewrite <- HK in Hfin.
  destruct Hfin as (Hsh' & Hsub' & Hmono' & Hsound' & Hcov' & Hcovd' & Hbd' & HQ).
  assert (∀ d x, x ∈ sups s d → x ∈ sups s' d) as Hmono_all.
  { intros d x Hx. apply Hmono'. destruct (Hfc d) as (_ & _ & _ & ->).
    destruct (decide (d = c)) as [->|Hd]; [by apply Hmono|by rewrite Hne]. }
  assert (bounded (S fuel) c) as Hbc by exact Hbd'.
  assert (¬ D c c) as Hacyc by (by eapply bounded_acyclic).
  assert ((∀ a, T a → D a c → ¬ Ds c a → complete s a) → complete sc c)
    as Hcompc.
  { intros Hanc a Ha Hac.
    destruct (D_last a c Hac) as (p & Hap & Hpc).
    assert (T p) as HTp by (by eapply T_closed_Ds).
    assert (p ≠ c) as Hpne.
    { intros ->. apply Hacyc. by apply tc_once. }
    assert (complete s p) as Hcp'.
    { apply Hanc; [done|by apply tc_once|].
      intros Hcp'. apply Hacyc. eapply tc_rtc_l; [exact Hcp'|by apply tc_once]. }
    assert (p ∈ parent cm) as Hpin.
    { rewrite <- HP. by apply links. }
    destruct (Hin p Hpin) as [Hp1 Hp2].
    destruct (Hfc c) as (_ & _ & _ & ->).
    apply rtc_tc in Hap as [->|Hap]; [done|].
    apply Hp2; [done|]. by apply Hcp'. }
  split_and!.
  - done.
  - intros d. rewrite Hsub'. by destruct (Hfc d) as (_ & _ & -> & _).
  - done.
  - intros Hs. apply Hsound'. intros d x. destruct (Hfc d) as (_ & _ & _ & ->).
    by apply Hsound.
  - intros d Hd. apply Hcov'. destruct (decide (d = c)) as [->|Hdc]; [done|].
    intros x. destruct (Hfc d) as (_ & _ & -> & ->).
    rewrite Hcovne, Hne by done. apply Hd.
  - intros d [->|Hcd]%Ds_D_or_eq; [by apply Hcov'|].
    destruct (D_first c d Hcd) as (y & Hy & Hyd). by apply (Hcovd' y).
  - done.
  - intros d Hcd Hanc.
    assert (complete sc c) as Hc'.
    { apply Hcompc. intros a Ha Hac Hnca. apply Hanc; [done| |done].
      eapply tc_rtc_r; [exact Hac|done]. }
    apply Ds_D_or_eq in Hcd as [<-|Hcd].
    { eapply complete_mono; [|exact Hc']. intros x. apply Hmono'. }
    destruct (D_first c d Hcd) as (y & Hy & Hyd).
    apply HQ; [by exists y|].
    intros a Ha Had Hna.
    destruct (decide (a = c)) as [->|Hac]; [done|].
    eapply complete_mono; [|apply Hanc; [done..|]].
    + intros x Hx. destruct (Hfc a) as (_ & _ & _ & ->). by rewrite Hne.
    + intros [->|Hca]%Ds_D_or_eq; [done|].
      destruct (D_first c a Hca) as (z & Hz & Hza). by apply (Hna z).
Qed.

End Closure.

Section CoveredSymmetric.
Context {N : Type} `{JsNumber N}.

(** After [updateConceptTree], within the tree: [covered] holds exactly
    the ancestors, the descendants and the concept itself. *)
Lemma updateConceptTree_covered (s s' : Store N) (fuel : nat) (root : ref) :
  links_consistent s → closures_fresh s →
  updateConceptTree fuel (Some root) s = Some s' →
  ∀ a b, inTree s root a → inTree s root b →
    (a ∈ cov s' b ↔
       tc (λ x y, y ∈ kids s x) a b ∨ tc (λ x y, y ∈ kids s x) b a ∨ a = b).
Proof.
  intros Hlinks Hfresh Hrun a b Ha Hb.
  unfold updateConceptTree in Hrun. simpl in Hrun.
  destruct (addSubConcept fuel root 1 s) as [s1|] eqn:Hp1; [|done].
  simpl in Hrun.
  assert (ClosureInv.shape (kids s) (pars s) s) as Hsh by done.
  destruct (addSubConcept_post (kids s) (pars s) fuel root 1 s s1 Hsh Hp1)
    as (Hsh1 & Hsup1 & _ & Hsound1 & Hcomp1).
  destruct (addSuperConcepts_post (kids s) (pars s) Hlinks (inTree s root)
              (λ x y Hx Hy, rtc_r _ _ _ Hx Hy) fuel root s1 s' Hsh1 Hrun)
    as (_ & Hsub2 & _ & Hsound2 & _ & Hcov2 & _ & Hmain).
  assert (ClosureInv.sub_sound (kids s) s1) as Hss1.
  { apply Hsound1. intros d x. rewrite (proj1 (Hfresh d)).
    by intros ?%elem_of_nil. }
  assert (ClosureInv.sup_sound (kids s) s') as Hss2.
  { apply Hsound2. intros d x. rewrite Hsup1, (proj2 (Hfresh d)).
    by intros ?%elem_of_nil. }
  assert (ClosureInv.complete (kids s) (inTree s root) s' b) as Hcb.
  { apply Hmain; [done|]. by intros x Hx _ []. }
  rewrite (Hcov2 b Hb a), Hsub2. split.
  - intros [Hx|[Hx| ->]]; [left; by apply Hss2|right; left; by apply Hss1|auto].
  - intros [Hab|[Hba| ->]]; [left; by apply Hcb|right; left|auto].
    by apply Hcomp1.
Qed.

(** C4. In the tree that [updateConceptTree] has finished, [covered] is
    symmetric: for all concepts [a] and [b] of the tree, [a] is in
    [b.covered] exactly when [b] is in [a.covered]. *)
Theorem covered_symmetric (s s' : Store N) (fuel : nat) (root : ref) :
  links_consistent s → closures_fresh s →
  updateConceptTree fuel (Some root) s = Some s' →
  ∀ a b, inTree s root a → inTree s root b →
    (a ∈ cov s' b ↔ b ∈ cov s' a).
Proof.
  intros Hlinks Hfresh Hrun a b Ha Hb.
  rewrite (updateConceptTree_covered s s' fuel root Hlinks Hfresh Hrun a b Ha Hb).
  rewrite (updateConceptTree_covered s s' fuel root Hlinks Hfresh Hrun b a Hb Ha).
  intuition.
Qed.

End CoveredSymmetric.

(** Symmetry between A (1) and D (4) in the graph with a shared child. *)
Lemma covered_symmetric_dag_witness :
  1 ∈ cov Examples.dagStore 4 ↔ 4 ∈ cov Examples.dagStore 1.
Proof.
  apply (covered_symmetric Examples.dagLinked Examples.dagStore 16 0).
  - apply links_consistent_Forall. by_evaluation.
  - apply closures_fresh_Forall. by_evaluation.
  - vm_compute. reflexivity.
  - eapply rtc_l; [|apply rtc_refl]. vm_compute. set_solver.
  - eapply rtc_l; [|eapply rtc_l; [|eapply rtc_l; [|apply rtc_refl]]].
    + instantiate (1 := 1). vm_compute. set_solver.
    + instantiate (1 := 3). vm_compute. set_solver.
    + vm_compute. set_solver.
Defined.

(** ** The root of the concept tree *)

(** C5, evaluated where no concept is without parent.  On an empty
    response, and on one whose two concepts are each other's parent,
    [getRootOfConceptsTree] returns [undefined] and the handler throws in
    [updateConceptTree]: no tree with a single top concept is built. *)
Theorem getRootOfConceptsTree_undefined_without_root
    {N : Type} `{JsNumber N} :
  getRootOfConceptsTree (N := N) ([], []) = Some ([], None) ∧
  (∀ fuel, getInstanceConceptsTree (N := N) fuel [] = None) ∧
  (∀ fuel, getInstanceConceptsTree (N := N) fuel
             [mkBinding "A" (Some "B") None; mkBinding "B" (Some "A") None]
           = None).
Proof. split_and!; [reflexivity|intros fuel; reflexivity..]. Qed.

(** ** Binary64 arithmetic: NaN *)

Module Float64Facts.
Import Float64.
Local Open Scope float_scope.

Lemma NaN_nan : NaN (N := float) = nan.
Proof. reflexivity. Qed.


Lemma add_nan_r x : x + nan = nan.
Proof.
  rewrite <- (SF2Prim_Prim2SF (x + nan)), add_spec.
  change (Prim2SF nan) with S754_nan. by destruct (Prim2SF x).
Qed.

Lemma mul_nan_l x : nan * x = nan.
Proof.
  rewrite <- (SF2Prim_Prim2SF (nan * x)), mul_spec.
  change (Prim2SF nan) with S754_nan. reflexivity.
Qed.


Lemma div_nan_l x : nan / x = nan.
Proof.
  rewrite <- (SF2Prim_Prim2SF (nan / x)), div_spec.
  change (Prim2SF nan) with S754_nan. reflexivity.
Qed.

Lemma ltb_nan_l x : (nan <? x) = false.
Proof. rewrite ltb_spec. change (Prim2SF nan) with S754_nan. reflexivity. Qed.


Lemma leb_nan_l x : (nan <=? x) = false.
Proof. rewrite leb_spec. change (Prim2SF nan) with S754_nan. reflexivity. Qed.

Lemma SFltb_trans a b c :
  SFltb a b = true → SFltb b c = true → SFltb a c = true.
Proof.
  unfold SFltb, SFcompare.
  destruct a as [[]| []| |[] ma ea], b as [[]| []| |[] mb eb],
           c as [[]| []| |[] mc ec];
    try done; rewrite ?Pos.compare_cont_spec; simpl;
    destruct (Z.compare_spec ea eb), (Z.compare_spec eb ec),
             (Z.compare_spec ea ec);
    try done; try lia; subst;
    destruct (Pos.compare_spec ma mb), (Pos.compare_spec mb mc),
             (Pos.compare_spec ma mc);
    try done; try lia.
Qed.


#[global] Instance float64_laws : JsNumberLaws float.
Proof.
  split.
  - intros a b c. simpl. rewrite !ltb_spec. apply SFltb_trans.
  - intros x. apply ltb_nan_l.
Qed.

End Float64Facts.

(** ** Passes that assign one field of every concept *)

Section FieldPass.
Context {N : Type} `{JsNumber N}.
Implicit Types s : Store N.


Lemma each_modify_total (f : ConceptModel N → ConceptModel N) cs s :
  (∀ c, c ∈ cs → c < length s) →
  is_Some (each (λ s c, modify c f s) cs s).
Proof.
  revert s. induction cs as [|c cs IH]; intros s Hcs; simpl; [by eexists|].
  destruct (modify_total c f s) as [s1 Hm]; [apply Hcs; left|].
  rewrite Hm. simpl. apply IH. intros d Hd.
  rewrite (modify_length _ _ _ _ Hm). apply Hcs. by right.
Qed.

Lemma modify_insert c f s cm :
  s !! c = Some cm → modify c f s = Some (<[c := f cm]> s).
Proof. intros Hc. unfold modify. by rewrite Hc. Qed.

Lemma lookup_insert_same c s (cm x : ConceptModel N) :
  s !! c = Some cm → <[c := x]> s !! c = Some x.
Proof. intros Hc. apply list_lookup_insert_eq. by eapply lookup_lt_Some. Qed.



End FieldPass.

(** ** Name simplicity *)

Section NameSimplicity.
Import Float64.



End NameSimplicity.



(** ** Divisions by zero in the scoring passes *)

Section ZeroDenominators.
Import Float64 Float64Facts.
Local Open Scope float_scope.







End ZeroDenominators.

(** ** The selection loop *)

Section Selection.
Context {N : Type} `{JsNumber N}.
Implicit Types s t : Store N.
Implicit Types cs best : list ref.

Lemma each_pure {A B : Type} (f : B → A → option B) (g : B → A → B) l acc :
  (∀ acc x, x ∈ l → f acc x = Some (g acc x)) →
  each f l acc = Some (fold_left g l acc).
Proof.
  revert acc. induction l as [|x l IH]; intros acc Hf; simpl; [done|].
  rewrite Hf by left. simpl. apply IH. intros ???. apply Hf. by right.
Qed.

Lemma fold_left_ext_in {A B : Type} (g g' : B → A → B) l acc :
  (∀ acc x, x ∈ l → g acc x = g' acc x) →
  fold_left g l acc = fold_left g' l acc.
Proof.
  revert acc. induction l as [|x l IH]; intros acc Hg; simpl; [done|].
  rewrite Hg by left. apply IH. intros ???. apply Hg. by right.
Qed.

Lemma sameScored_refl s : sameScored s s.
Proof. by split. Qed.

Lemma sameScored_trans s1 s2 s3 :
  sameScored s1 s2 → sameScored s2 s3 → sameScored s1 s3.
Proof.
  intros [Hl1 H1] [Hl2 H2]. split; [congruence|]. intros d.
  destruct (H1 d) as [<- <-]. apply H2.
Qed.

(** The averages depend on the heap through [covered] and [score] only. *)
Lemma coverOfOtherConcepts_same s s' cs c :
  sameScored s s' → coverOfOtherConcepts s' cs c = coverOfOtherConcepts s cs c.
Proof.
  intros [_ Hs]. unfold coverOfOtherConcepts. apply fold_left_ext_in.
  intros acc x _. by rewrite (proj1 (Hs x)).
Qed.

Lemma contributionOf_same s s' cs c :
  sameScored s s' → contributionOf s' cs c = contributionOf s cs c.
Proof.
  intros Hs. unfold contributionOf.
  by rewrite (coverOfOtherConcepts_same s s'), (proj1 (proj2 Hs c)).
Qed.

Lemma maxOf_ext f g cs : (∀ c, c ∈ cs → f c = g c) → maxOf f cs = maxOf g cs.
Proof.
  intros Hfg. unfold maxOf. apply fold_left_ext_in. intros acc x Hx.
  by rewrite Hfg.
Qed.

Lemma sumOf_ext (f g : ref → N) cs :
  (∀ c, c ∈ cs → f c = g c) → sumOf f cs = sumOf g cs.
Proof.
  intros Hfg. unfold sumOf. apply fold_left_ext_in. intros acc x Hx.
  by rewrite Hfg.
Qed.




(** A loop that assigns [upd (val c)] to every [c] of [cs] and folds the
    values into an accumulator. *)
Lemma each_assign {V : Type} (val : ref → V)
    (upd : V → ConceptModel N → ConceptModel N) (op : N → V → N)
    (Inv : Store N → Prop) (body : Store N * N → ref → option (Store N * N))
    cs s sm :
  (∀ v v' cm, upd v (upd v' cm) = upd v cm) →
  (∀ t sm c cm, c ∈ cs → Inv t → t !! c = Some cm →
     body (t, sm) c = Some (<[c := upd (val c) cm]> t, op sm (val c))) →
  (∀ t c cm, Inv t → t !! c = Some cm → Inv (<[c := upd (val c) cm]> t)) →
  (∀ c, c ∈ cs → c < length s) → Inv s →
  ∃ s', each body cs (s, sm)
        = Some (s', fold_left (λ sm c, op sm (val c)) cs sm) ∧
    Inv s' ∧ length s' = length s ∧
    ∀ d, s' !! d = (λ dm, if bool_decide (d ∈ cs) then upd (val d) dm else dm)
                   <$> s !! d.
Proof.
  intros Hupd Hbody Hinv.
  assert (∀ l t sm, (∀ c, c ∈ l → c ∈ cs) → (∀ c, c ∈ l → c < length t) →
            Inv t →
            ∃ t', each body l (t, sm)
                  = Some (t', fold_left (λ sm c, op sm (val c)) l sm) ∧
              Inv t' ∧ length t' = length t ∧
              ∀ d, t' !! d = (λ dm, if bool_decide (d ∈ l) then upd (val d) dm
                                    else dm) <$> t !! d) as Hgen.
  { induction l as [|c l IH]; intros t sm' Hl Hlt HI; simpl.
    - exists t. split_and!; [done..|]. intros d.
      by destruct (t !! d).
    - destruct (lookup_lt_is_Some_2 t c) as [cm Hcm]; [apply Hlt; left|].
      rewrite (Hbody t sm' c cm) by (done || apply Hl; left). simpl.
      destruct (IH (<[c := upd (val c) cm]> t) (op sm' (val c)))
        as (t' & Hrun & HI' & Hlen & Hlook).
      + intros d Hd. apply Hl. by right.
      + intros d Hd. rewrite length_insert. apply Hlt. by right.
      + by apply Hinv.
      + exists t'. split_and!; [done|done|by rewrite Hlen, length_insert|].
        intros d. rewrite Hlook.
        destruct (decide (d = c)) as [->|Hdc].
        * rewrite (lookup_insert_same _ _ _ _ Hcm), Hcm. simpl.
          rewrite (bool_decide_eq_true_2 (c ∈ c :: l)) by left.
          case_bool_decide; [by rewrite Hupd|done].
        * rewrite list_lookup_insert_ne by done.
          destruct (t !! d); simpl; [|done]. f_equal.
          destruct (decide (d ∈ l)).
          -- rewrite !bool_decide_eq_true_2; [done|by right|done].
          -- rewrite !bool_decide_eq_false_2; [done| |done].
             by intros [?|?]%elem_of_cons. }
  intros Hlt HI. by apply Hgen.
Qed.

Lemma cov_lookup s c cm : s !! c = Some cm → cov s c = covered cm.
Proof. unfold cov. by intros ->. Qed.

Lemma sameScored_insert s t c cm (f : ConceptModel N → ConceptModel N) :
  (∀ cm, covered (f cm) = covered cm ∧ score (f cm) = score cm) →
  sameScored s t → t !! c = Some cm → sameScored s (<[c := f cm]> t).
Proof.
  intros Hf [Hlen Hs] Hc. split; [by rewrite length_insert|].
  intros d. destruct (Hs d) as [<- <-]. unfold cov, scoreAt.
  destruct (decide (d = c)) as [->|Hdc].
  - rewrite (lookup_insert_same _ _ _ _ Hc), Hc. simpl.
    by destruct (Hf cm) as [-> ->].
  - by rewrite list_lookup_insert_ne.
Qed.

(** [calcContributionOfConcepts] computes [contributionOf] and its
    average. *)
Lemma calcContributionOfConcepts_spec cs s :
  (∀ c, c ∈ cs → c < length s) →
  ∃ s', calcContributionOfConcepts cs s = Some (s', avgContributionOf s cs) ∧
    sameScored s s' ∧
    ∀ d, s' !! d =
      (λ dm, if bool_decide (d ∈ cs)
             then set_contribution (contributionOf s cs d) dm else dm)
      <$> s !! d.
Proof.
  intros Hlt. unfold calcContributionOfConcepts.
  match goal with |- context [each ?body cs (s, ?z)] =>
    destruct (each_assign (λ c, contributionOf s cs c) set_contribution
                (λ sm v, (sm + num_of_nat v)%num)
                (λ t, sameScored s t) body cs s z)
      as (s' & Hrun & Hsame & Hlen & Hlook)
  end.
  - done.
  - intros t sm c cm Hc Hsame Hcm. simpl.
    destruct Hsame as [Hlen Hs].
    rewrite (each_pure _ (λ cover el, if bool_decide (el ≠ c)
                                      then union cover (cov t el) else cover)).
    + simpl. rewrite Hcm. simpl. rewrite (modify_insert _ _ _ _ Hcm). simpl.
      assert (length (difference (covered cm)
                (fold_left (λ cover el, if bool_decide (el ≠ c)
                                        then union cover (cov t el) else cover)
                           cs []))
              = contributionOf s cs c) as ->; [|done].
      rewrite <- (contributionOf_same s t cs c) by done.
      unfold contributionOf, coverOfOtherConcepts.
      by rewrite (cov_lookup _ _ _ Hcm).
    + intros cover el Hel. case_bool_decide; [|done].
      destruct (lookup_lt_is_Some_2 t el) as [em Hem].
      { rewrite <- Hlen. by apply Hlt. }
      rewrite Hem. simpl. by rewrite (cov_lookup _ _ _ Hem).
  - intros t c cm Hsame Hcm. by apply sameScored_insert.
  - done.
  - apply sameScored_refl.
  - exists s'. rewrite Hrun. simpl. split_and!; done.
Qed.

Lemma findMaxContribution_spec cs s :
  (∀ c, c ∈ cs → c < length s) →
  findMaxContribution cs s = Some (maxOf (contributionAt s) cs).
Proof.
  intros Hlt. unfold findMaxContribution, maxOf. apply each_pure.
  intros mx c Hc. destruct (lookup_lt_is_Some_2 s c (Hlt c Hc)) as [cm Hcm].
  unfold contributionAt. by rewrite Hcm.
Qed.

Lemma calcOverallScoreOfConcepts_spec cs s :
  (∀ c, c ∈ cs → c < length s) →
  ∃ s', calcOverallScoreOfConcepts cs s
        = Some (s', (sumOf (overallScoreFrom s cs) cs
                     / num_of_nat (length cs))%num) ∧
    sameScored s s' ∧
    (∀ d, contributionAt s' d = contributionAt s d) ∧
    ∀ d, s' !! d =
      (λ dm, if bool_decide (d ∈ cs)
             then set_overallScore (overallScoreFrom s cs d) dm else dm)
      <$> s !! d.
Proof.
  intros Hlt. unfold calcOverallScoreOfConcepts.
  rewrite (findMaxContribution_spec cs s Hlt). simpl.
  match goal with |- context [each ?body cs (s, ?z)] =>
    destruct (each_assign (overallScoreFrom s cs) set_overallScore
                (λ sm v, (sm + v)%num)
                (λ t, sameScored s t
                      ∧ ∀ d, contributionAt t d = contributionAt s d)
                body cs s z)
      as (s' & Hrun & [Hsame Hcon] & Hlen & Hlook)
  end.
  - done.
  - intros t sm c cm Hc [Hsame Hcon] Hcm. simpl. rewrite Hcm. simpl.
    rewrite (modify_insert _ _ _ _ Hcm). simpl.
    assert (contribution cm = contributionAt s c) as ->.
    { rewrite <- Hcon. unfold contributionAt. by rewrite Hcm. }
    assert (score cm = scoreAt s c) as ->; [|done].
    rewrite <- (proj2 (proj2 Hsame c)). unfold scoreAt. by rewrite Hcm.
  - intros t c cm [Hsame Hcon] Hcm. split; [by apply sameScored_insert|].
    intros d. rewrite <- Hcon. unfold contributionAt.
    destruct (decide (d = c)) as [->|Hdc].
    + by rewrite (lookup_insert_same _ _ _ _ Hcm), Hcm.
    + by rewrite list_lookup_insert_ne.
  - done.
  - split; [apply sameScored_refl|done].
  - exists s'. rewrite Hrun. simpl. split_and!; done.
Qed.

(** Both passes on a set: the averages are [avgContributionOf] and
    [avgOverallScoreOf]; only the members change, in [contribution] and
    [overallScore]. *)
Lemma averages_spec cs s :
  (∀ c, c ∈ cs → c < length s) →
  ∃ s1 s2,
    calcContributionOfConcepts cs s = Some (s1, avgContributionOf s cs) ∧
    calcOverallScoreOfConcepts cs s1 = Some (s2, avgOverallScoreOf s cs) ∧
    sameScored s s2 ∧
    (∀ d, d ∈ cs → overallScoreAt s2 d = overallScoreOf s cs d) ∧
    (∀ d, d ∉ cs → overallScoreAt s2 d = overallScoreAt s d).
Proof.
  intros Hlt.
  destruct (calcContributionOfConcepts_spec cs s Hlt)
    as (s1 & Hrun1 & Hsame1 & Hlook1).
  assert (∀ c, c ∈ cs → c < length s1) as Hlt1.
  { intros c Hc. rewrite <- (proj1 Hsame1). by apply Hlt. }
  destruct (calcOverallScoreOfConcepts_spec cs s1 Hlt1)
    as (s2 & Hrun2 & Hsame2 & Hcon2 & Hlook2).
  assert (∀ c, c ∈ cs → contributionAt s1 c = contributionOf s cs c) as Hc1.
  { intros c Hc. unfold contributionAt. rewrite Hlook1.
    destruct (lookup_lt_is_Some_2 s c (Hlt c Hc)) as [cm ->]. simpl.
    by rewrite bool_decide_eq_true_2. }
  assert (∀ c, c ∈ cs → overallScoreFrom s1 cs c = overallScoreOf s cs c) as Ho.
  { intros c Hc. unfold overallScoreFrom, overallScoreOf.
    rewrite (Hc1 c Hc), (proj2 (proj2 Hsame1 c)).
    by rewrite (maxOf_ext (contributionAt s1) (contributionOf s cs) cs). }
  exists s1, s2. split_and!.
  - done.
  - rewrite Hrun2. unfold avgOverallScoreOf.
    by rewrite (sumOf_ext (overallScoreFrom s1 cs) (overallScoreOf s cs) cs).
  - by eapply sameScored_trans.
  - intros d Hd. unfold overallScoreAt. rewrite Hlook2.
    destruct (lookup_lt_is_Some_2 s1 d (Hlt1 d Hd)) as [dm ->]. simpl.
    rewrite bool_decide_eq_true_2 by done. simpl. by apply Ho.
  - intros d Hd. unfold overallScoreAt. rewrite Hlook2, Hlook1.
    destruct (s !! d) as [dm|]; simpl; [|done].
    by rewrite !bool_decide_eq_false_2.
Qed.

(** *** The worst member *)

Lemma findWorst_loop `{!JsNumberLaws N} s cs l acc :
  (∀ c, c ∈ l → c ∈ cs ∧ c < length s) →
  worst_inv s cs acc →
  ∃ acc', each (λ '(worstOverallScore, result) c,
                  cm ← s !! c;
                  Some (if (overallScore cm <? worstOverallScore)%num
                        then (overallScore cm, Some c)
                        else (worstOverallScore, result)))
               l acc = Some acc' ∧
    worst_inv s cs acc' ∧
    (acc'.2 = None ↔
       acc.2 = None ∧ ∀ c, c ∈ l → (overallScoreAt s c <? two)%num = false).
Proof.
  revert acc. induction l as [|c l IH]; intros acc Hl Hinv; simpl.
  - exists acc. split_and!; [done..|]. split; [|tauto]. intros ?. split; [done|].
    by intros ? ?%elem_of_nil.
  - destruct (Hl c) as [Hccs Hclt]; [left|].
    destruct (lookup_lt_is_Some_2 s c Hclt) as [cm Hcm].
    destruct acc as [worst res]. rewrite Hcm. simpl.
    assert (overallScore cm = overallScoreAt s c) as Ho.
    { unfold overallScoreAt. by rewrite Hcm. }
    rewrite Ho.
    destruct (overallScoreAt s c <? worst)%num eqn:Hlt.
    + destruct (IH (overallScoreAt s c, Some c)) as (acc' & Hrun & Hinv' & Hnone).
      * intros d Hd. apply Hl. by right.
      * right. exists c. split_and!; [done..|].
        destruct Hinv as [[= -> ->]|(w & [= -> ->] & _ & Hw)]; [done|].
        by eapply num_ltb_trans.
      * exists acc'. split_and!; [done..|]. split.
        -- intros [[=] _]%Hnone.
        -- intros [Hres Hall].
           destruct Hinv as [[= -> ->]|(w & [= -> ->] & _ & _)]; [|done].
           rewrite Hall in Hlt by left. done.
    + destruct (IH (worst, res)) as (acc' & Hrun & Hinv' & Hnone).
      * intros d Hd. apply Hl. by right.
      * done.
      * exists acc'. split_and!; [done..|]. rewrite Hnone. simpl. split.
        -- intros [-> Hall]. split; [done|].
           intros d [->|Hd]%elem_of_cons; [|by apply Hall].
           destruct Hinv as [[= -> ]|(w & [=] & _)]. done.
        -- intros [-> Hall]. split; [done|]. intros d Hd. apply Hall. by right.
Qed.

(** [findConceptWithWorstOverallScore] returns a member whose overall
    score is below 2, and [undefined] exactly when no member has one. *)
Lemma findConceptWithWorstOverallScore_spec `{!JsNumberLaws N} cs s :
  (∀ c, c ∈ cs → c < length s) →
  ∃ r, findConceptWithWorstOverallScore cs s = Some r ∧
    (∀ w, r = Some w → w ∈ cs ∧ (overallScoreAt s w <? two)%num = true) ∧
    (r = None ↔ ∀ c, c ∈ cs → (overallScoreAt s c <? two)%num = false).
Proof.
  intros Hlt. unfold findConceptWithWorstOverallScore.
  destruct (findWorst_loop s cs cs (two, None)) as ([wo r] & Hrun & Hinv & Hnone).
  - intros c Hc. split; [done|by apply Hlt].
  - by left.
  - unfold two in Hrun. rewrite Hrun. simpl. exists r. split_and!; [done| |].
    + intros w ->. destruct Hinv as [[=]|(w' & [= -> ->] & ? & ?)]. done.
    + simpl in Hnone. rewrite Hnone. tauto.
Qed.

(** *** One step of the search *)

Lemma candidateSet_elem best worst r x :
  x ∈ candidateSet best worst r ↔ (x ∈ best ∧ Some x ≠ worst) ∨ x = r.
Proof.
  unfold candidateSet. rewrite elem_of_union_list, list_elem_of_singleton.
  destruct worst as [w|]; simpl.
  - rewrite elem_of_difference_list, list_elem_of_singleton.
    split; intros [[? ?]|?]; auto; left; split; auto; congruence.
  - split.
    + intros [?|?]; [left; by split|by right].
    + intros [[? _]|?]; [by left|by right].
Qed.

Lemma swapStep_spec s best avgC avgO r :
  (∀ c, c ∈ best → c < length s) → r < length s →
  ∀ worst, findConceptWithWorstOverallScore best s = Some worst →
  let cand := candidateSet best worst r in
  ∃ s',
    sameScored s s' ∧
    (∀ d, d ∈ cand → overallScoreAt s' d = overallScoreOf s cand d) ∧
    (∀ d, d ∉ cand → overallScoreAt s' d = overallScoreAt s d) ∧
    swapStep (s, best, avgC, avgO) r =
      Some (if (avgOverallScoreOf s cand >? avgO)%num
               && (avgContributionOf s cand >=? avgC)%num
            then (s', cand, avgContributionOf s cand, avgOverallScoreOf s cand)
            else (s', best, avgC, avgO)).
Proof.
  intros Hlt Hr worst Hworst cand.
  assert (∀ c, c ∈ cand → c < length s) as Hcand.
  { intros c [[Hc _]| ->]%candidateSet_elem; [by apply Hlt|done]. }
  destruct (averages_spec cand s Hcand) as (s1 & s2 & Hrun1 & Hrun2 & Hsame & Hin & Hout).
  exists s2. split_and!; [done..|].
  unfold swapStep. rewrite Hworst. simpl.
  fold (candidateSet best worst r). fold cand.
  rewrite Hrun1. simpl. rewrite Hrun2. simpl.
  by destruct (_ && _).
Qed.


(** *** Sizes *)






(** *** The whole loop *)








(** *** Sorting and the initial set *)

Lemma insertSorted_Permutation {A} (lt : A → A → bool) x rl :
  insertSorted lt x rl ≡ₚ x :: rl.
Proof.
  induction rl as [|y rl IH]; simpl; [done|].
  destruct (lt x y); [|done]. rewrite IH. apply Permutation_swap.
Qed.

Lemma stableSort_Permutation {A} (lt : A → A → bool) l :
  stableSort lt l ≡ₚ l.
Proof.
  unfold stableSort. rewrite <- Permutation_rev.
  assert (∀ acc, fold_left (λ rl x, insertSorted lt x rl) l acc ≡ₚ acc ++ l)
    as Hgen; [|apply (Hgen [])].
  induction l as [|x l IH]; intros acc; simpl; [by rewrite app_nil_r|].
  rewrite IH, insertSorted_Permutation. simpl. apply Permutation_middle.
Qed.

Lemma sortByScore_spec cs s :
  (∀ c, c ∈ cs → c < length s) →
  ∃ sorted, sortByScore cs s = Some sorted ∧ sorted ≡ₚ cs.
Proof.
  intros Hlt. unfold sortByScore.
  assert (∃ keyed, mapM (λ c, cm ← s !! c; Some (c, num_opp (score cm))) cs
                   = Some keyed ∧ keyed.*1 = cs) as (keyed & -> & Hfst).
  { induction cs as [|c cs IH]; simpl; [by exists []|].
    destruct (lookup_lt_is_Some_2 s c) as [cm ->]; [apply Hlt; left|].
    destruct IH as (keyed & -> & Hk); [intros; apply Hlt; by right|].
    exists ((c, num_opp (score cm)) :: keyed). split; [done|].
    rewrite fmap_cons. simpl. by f_equal. }
  simpl. eexists. split; [done|].
  rewrite <- Hfst. apply fmap_Permutation, stableSort_Permutation.
Qed.



End Selection.

(** ** The selection on concrete ontologies *)









(** * Duplicate class bindings *)

Module ClassFacts.
Import Classes.



Lemma bindingsOf_cons i b bs :
  bindingsOf i (b :: bs)
  = if bool_decide (bclass b = Some i) then b :: bindingsOf i bs
    else bindingsOf i bs.
Proof.
  unfold bindingsOf. rewrite filter_cons.
  case_bool_decide; by destruct (decide _).
Qed.

Lemma someLocalizedEqual_true values newLabel :
  someLocalizedEqual values newLabel = Some true → newLabel ∈ values.
Proof.
  induction values as [|[l|] values IH]; simpl; [done| |done].
  destruct newLabel as [r|]; simpl; [|done].
  destruct (_ && _) eqn:Heq.
  - intros _. apply andb_prop in Heq as [Hl Ht].
    apply bool_decide_eq_true in Hl, Ht.
    destruct l, r; simpl in *; subst. left.
  - intros ?. right. by apply IH.
Qed.

(** One step of [getClassInfo] on classes with distinct ids. *)
Lemma classInfoStep_spec classes b classes1 :
  NoDup (id_ <$> classes) → classInfoStep classes b = Some classes1 →
  NoDup (id_ <$> classes1) ∧
  (∀ k m, classes !! k = Some m →
     ∃ m1, classes1 !! k = Some m1 ∧ id_ m1 = id_ m ∧
       label m ⊆ label m1 ∧
       if bool_decide (bclass b = Some (id_ m))
       then count m1 = maxCountFrom (count m) [b] ∧
            getLocalizedString (blabel b) None ∈ label m1
       else count m1 = count m) ∧
  (∀ k m1, classes1 !! k = Some m1 → length classes ≤ k →
     bclass b = Some (id_ m1) ∧ count m1 = getInstCount (binstcount b) ∧
     (∀ lit, blabel b = Some lit →
        getLocalizedString (blabel b) None ∈ label m1)).
Proof.
  intros Hnd. unfold classInfoStep.
  destruct (bclass b) as [i|] eqn:Hclass.
  2:{ intros [= <-]. split_and!; [done| |].
      - intros k m Hk. exists m. by rewrite bool_decide_eq_false_2.
      - intros k m1 Hk Hle. apply lookup_lt_Some in Hk. lia. }
  unfold findClass.
  destruct (list_find _ classes) as [[j model]|] eqn:Hfind.
  - apply list_find_Some in Hfind as (Hj & Hid & _).
    destruct (someLocalizedEqual _ _) as [found|] eqn:Hsome; [|done].
    simpl. intros [= <-].
    assert (id_ <$> <[j:=set_count
       (if isNaN (getInstCount (binstcount b)) then count model
        else count_max (count model) (getInstCount (binstcount b)))
       (set_label (if found then label model
                   else label model ++ [getLocalizedString (blabel b) None])
          model)]> classes = id_ <$> classes) as Hids.
    { rewrite list_fmap_insert. simpl. apply list_insert_id.
      by rewrite list_lookup_fmap, Hj. }
    split_and!.
    + by rewrite Hids.
    + intros k m Hk. destruct (decide (k = j)) as [->|Hne].
      * simplify_eq. eexists. rewrite list_lookup_insert_eq
          by (by eapply lookup_lt_Some).
        split; [done|]. simpl. split; [done|].
        rewrite bool_decide_eq_true_2 by done. split_and!.
        -- destruct found; [done|]. set_solver.
        -- done.
        -- destruct found; [by apply someLocalizedEqual_true|]. set_solver.
      * exists m. rewrite list_lookup_insert_ne by done.
        split_and!; [done..|]. case_bool_decide as Hsame; [|done].
        exfalso. apply Hne. injection Hsame as Hsame.
        eapply (NoDup_lookup (id_ <$> classes)); [done| |].
        -- by rewrite list_lookup_fmap, Hk.
        -- rewrite list_lookup_fmap, Hj. simpl. by rewrite Hid, Hsame.
    + intros k m1 Hk Hle. apply lookup_lt_Some in Hk.
      rewrite length_insert in Hk. lia.
  - intros [= <-]. rewrite list_find_None in Hfind.
    split_and!.
    + rewrite fmap_app. simpl. apply NoDup_app. split_and!; [done| |].
      * intros x Hx ->%list_elem_of_singleton.
        apply list_elem_of_fmap in Hx as (m & Hm & Hin).
        rewrite Forall_forall in Hfind. by apply (Hfind m).
      * apply NoDup_singleton.
    + intros k m Hk. exists m. rewrite lookup_app_l
        by (by eapply lookup_lt_Some).
      split_and!; [done..|]. rewrite bool_decide_eq_false_2; [done|].
      intros [= Heq]. rewrite Forall_forall in Hfind.
      apply (Hfind m); [by eapply list_elem_of_lookup_2|done].
    + intros k m1 Hk Hle.
      rewrite lookup_app_r in Hk by done.
      apply list_lookup_singleton_Some in Hk as [_ <-]. simpl.
      split_and!; [done..|]. intros lit ->. simpl. left.
Qed.

(** The models present before a run of the loop. *)
Lemma classInfoLoop_old bs classes classes' :
  NoDup (id_ <$> classes) → each classInfoStep bs classes = Some classes' →
  NoDup (id_ <$> classes') ∧
  ∀ k m, classes !! k = Some m →
    ∃ m', classes' !! k = Some m' ∧ id_ m' = id_ m ∧ label m ⊆ label m' ∧
      count m' = maxCountFrom (count m) (bindingsOf (id_ m) bs) ∧
      ∀ b lit, b ∈ bindingsOf (id_ m) bs → blabel b = Some lit →
        getLocalizedString (Some lit) None ∈ label m'.
Proof.
  revert classes. induction bs as [|b bs IH]; intros classes Hnd; simpl.
  - intros [= <-]. split; [done|]. intros k m Hk. exists m.
    split_and!; [done..|]. by intros b lit ?%elem_of_nil.
  - destruct (classInfoStep classes b) as [classes1|] eqn:Hstep; [|done].
    simpl. intros Hrun.
    destruct (classInfoStep_spec _ _ _ Hnd Hstep) as (Hnd1 & Hold & _).
    destruct (IH _ Hnd1 Hrun) as (Hnd' & Hrest).
    split; [done|]. intros k m Hk.
    destruct (Hold k m Hk) as (m1 & Hk1 & Hid1 & Hsub1 & Hcase).
    destruct (Hrest k m1 Hk1) as (m' & Hk' & Hid' & Hsub' & Hcount & Hlab).
    exists m'. rewrite Hid1 in *. rewrite bindingsOf_cons.
    split_and!; [done|done| | |].
    + intros x Hx. by apply Hsub', Hsub1.
    + case_bool_decide; [|by rewrite <- Hcase].
      destruct Hcase as [Hc _]. by rewrite Hcount, Hc.
    + intros b' lit. case_bool_decide; [|by apply Hlab].
      intros [->|Hb']%elem_of_cons Hlit; [|by eapply Hlab].
      destruct Hcase as [_ Hin]. rewrite Hlit in Hin. by apply Hsub'.
Qed.





















End ClassFacts.

(** * Further properties *)

Set Warnings "-clear-no-such-hyp".

Section PathFacts.
Context {N : Type} `{JsNumber N}.
Implicit Types s : Store N.

Lemma each_concat_elem {A B : Type} (f : A → option (list B)) (l : list A)
    (acc r : list B) :
  each (λ result x, subResults ← f x; Some (result ++ subResults)) l acc
    = Some r →
  (∀ x, x ∈ l → is_Some (f x)) ∧
  ∀ p, p ∈ r ↔ p ∈ acc ∨ ∃ x sub, x ∈ l ∧ f x = Some sub ∧ p ∈ sub.
Proof.
  revert acc. induction l as [|x l IH]; intros acc; simpl.
  - intros [= <-]. split; [by intros x ?%elem_of_nil|]. intros p. split; [auto|].
    intros [?|(x & sub & ?%elem_of_nil & _)]; done.
  - destruct (f x) as [sub|] eqn:Hfx; [|done]. simpl. intros Hrun.
    destruct (IH _ Hrun) as [Hsome Hiff]. split.
    + intros y [->|Hy]%elem_of_cons; [by rewrite Hfx|by apply Hsome].
    + intros p. rewrite Hiff, elem_of_app. split.
      * intros [[?|?]|(y & sub' & Hy & Hfy & Hp)]; [by left| |].
        -- right. exists x, sub. split_and!; [left|done..].
        -- right. exists y, sub'. split_and!; [by right|done..].
      * intros [?|(y & sub' & [->|Hy]%elem_of_cons & Hfy & Hp)];
          [by left; left| |].
        -- left. right. congruence.
        -- right. by exists y, sub'.
Qed.

Lemma last_cons_default {A} (y d : A) q : List.last (y :: q) d = List.last q y.
Proof.
  revert y d. induction q as [|z q IH]; intros y d; [done|].
  change (List.last (z :: q) d = List.last (z :: q) y).
  by rewrite (IH z d), (IH z y).
Qed.

Lemma childChain_cons s x y l :
  childChain s (x :: y :: l) ↔ y ∈ kids s x ∧ childChain s (y :: l).
Proof. done. Qed.

(** X1.  The paths of [calcAllPaths(start, path)] are exactly the
    extensions of [path] by a chain of children from [start] to a concept
    without children, whose concepts are distinct and not on [path]. *)
Theorem calcAllPaths_exact fuel s start path paths :
  calcAllPaths fuel s start path = Some paths →
  ∀ p, p ∈ paths ↔
    ∃ q, p = path ++ start :: q ∧ childChain s (start :: q) ∧
         isLeaf s (List.last q start) ∧
         NoDup (start :: q) ∧ (∀ x, x ∈ start :: q → x ∉ path).
Proof.
  revert start path paths.
  induction fuel as [|fuel IH]; intros start path paths; [done|].
  rewrite calcAllPaths_S. case_bool_decide as Hmem.
  { intros [= <-] p. split; [by intros ?%elem_of_nil|].
    intros (q & _ & _ & _ & _ & Hout). exfalso. apply (Hout start); [left|done]. }
  destruct (s !! start) as [c|] eqn:Hc; [|done]. simpl.
  case_bool_decide as Hleaf.
  - intros [= <-] p. rewrite list_elem_of_singleton.
    apply nil_length_inv in Hleaf. split.
    + intros ->. exists []. split_and!; [done|done| | |].
      * by exists c.
      * apply NoDup_singleton.
      * by intros x ->%list_elem_of_singleton.
    + intros (q & -> & Hchain & _ & _ & _). destruct q as [|y q]; [done|].
      apply childChain_cons in Hchain as [Hy _]. unfold kids in Hy. rewrite Hc in Hy.
      simpl in Hy. rewrite Hleaf in Hy. by apply elem_of_nil in Hy.
  - intros Hrun. apply each_concat_elem in Hrun as [Hsome Hiff]. intros p.
    rewrite Hiff. clear Hiff. split.
    + intros [?%elem_of_nil|(y & sub & Hy & Hsub & Hp)]; [done|].
      apply (IH _ _ _ Hsub) in Hp as (q & -> & Hchain & Hlast & Hnd & Hout).
      exists (y :: q). split; [by rewrite <- app_assoc|].
      split; [apply childChain_cons; split; [unfold kids; by rewrite Hc|done]|].
      split; [by rewrite last_cons_default|]. split.
      * apply NoDup_cons. split; [|done]. intros Hin.
        apply (Hout start Hin). apply elem_of_app. right. left.
      * intros x [->|Hx]%elem_of_cons; [done|]. intros Hxp.
        apply (Hout x Hx). apply elem_of_app. by left.
    + intros (q & -> & Hchain & Hlast & Hnd & Hout). right.
      destruct q as [|y q].
      { destruct Hlast as (cm & Hcm & Hch). simpl in Hcm. simplify_eq.
        by rewrite Hch in Hleaf. }
      apply childChain_cons in Hchain as [Hy Hchain].
      unfold kids in Hy. rewrite Hc in Hy. simpl in Hy.
      destruct (Hsome y Hy) as [sub Hsub]. exists y, sub.
      split_and!; [done..|]. apply (IH _ _ _ Hsub). exists q.
      rewrite last_cons_default in Hlast.
      apply NoDup_cons in Hnd as [Hstart Hnd].
      split_and!; [by rewrite <- app_assoc|done|done|done|].
      intros x Hx [Hxp| ->%list_elem_of_singleton]%elem_of_app.
      * apply (Hout x); [by right|done].
      * done.
Qed.
End PathFacts.

Section TraversalFacts.
Context {N : Type} `{JsNumber N}.
Implicit Types s t : Store N.

Lemma sameGraph_refl s : sameGraph s s.
Proof. by split. Qed.

Lemma sameGraph_trans s1 s2 s3 :
  sameGraph s1 s2 → sameGraph s2 s3 → sameGraph s1 s3.
Proof.
  intros [Hl1 Hg1] [Hl2 Hg2]. split; [congruence|].
  intros d. destruct (Hg1 d), (Hg2 d). split; congruence.
Qed.

Lemma sameGraph_modify c f s s' :
  modify c f s = Some s' →
  (∀ cm, children (f cm) = children cm) → (∀ cm, parent (f cm) = parent cm) →
  sameGraph s s'.
Proof.
  intros Hm Hk Hp. split; [by eapply modify_length|]. intros d.
  unfold kids, pars.
  by rewrite (modify_frame children _ _ _ _ Hm Hk d),
             (modify_frame parent _ _ _ _ Hm Hp d).
Qed.

Lemma bounded_ext (K K' : ref → list ref) n c :
  (∀ d, K d = K' d) → ClosureInv.bounded K n c → ClosureInv.bounded K' n c.
Proof.
  intros HK. revert c. induction n as [|n IH]; intros c; [done|]. simpl.
  intros Hb y Hy. apply IH, Hb. by rewrite HK.
Qed.

Lemma each_calls {A B : Type} (P : B → Prop) (Q : A → Prop)
    (f : B → A → option B) l acc r :
  (∀ acc x acc', x ∈ l → P acc → f acc x = Some acc' → P acc' ∧ Q x) →
  P acc → each f l acc = Some r → P r ∧ ∀ x, x ∈ l → Q x.
Proof.
  revert acc. induction l as [|x l IH]; intros acc Hf Hacc Hr; simpl in *.
  - simplify_eq. split; [done|]. by intros x ?%elem_of_nil.
  - destruct (f acc x) as [acc'|] eqn:Heq; simplify_eq/=.
    destruct (Hf acc x acc') as [Hacc' Hx]; [left|done..|].
    destruct (IH acc') as [Hr' Hl]; [|done..|].
    { intros ???? ; apply Hf. by right. }
    split; [done|]. intros y [->|Hy]%elem_of_cons; auto.
Qed.

(** The first traversal keeps the graph; where it returns, no path of
    children from [c] has [fuel] concepts. *)
Lemma addSubConcept_graph fuel :
  ∀ c lvl s s', addSubConcept fuel c lvl s = Some s' →
    sameGraph s s' ∧ ClosureInv.bounded (kids s) fuel c.
Proof.
  induction fuel as [|fuel IH]; intros c lvl s s' Hrun; [done|].
  simpl in Hrun.
  destruct (s !! c) as [cm|] eqn:Hc; [|done]. simpl in Hrun.
  destruct (modify c (set_level (Some lvl)) s) as [sa|] eqn:Hma; [|done].
  simpl in Hrun.
  destruct (modify c _ sa) as [sb|] eqn:Hmb; [|done]. simpl in Hrun.
  assert (sameGraph s sb) as Hsb.
  { eapply sameGraph_trans; eapply sameGraph_modify; done. }
  case_bool_decide as Hne.
  - apply (each_calls (λ t, sameGraph s t)
             (λ y, ClosureInv.bounded (kids s) fuel y)) in Hrun
      as [Hs' Hb]; [| |done].
    + split; [done|]. intros y Hy. apply Hb.
      by rewrite (kids_lookup _ _ _ Hc) in Hy.
    + intros t y t' Hy Ht Hbody.
      destruct (addSubConcept fuel y (lvl + 1) t) as [t1|] eqn:Hrec; [|done].
      simpl in Hbody. destruct (IH _ _ _ _ Hrec) as [Ht1 Hby].
      destruct (t1 !! y) as [ch|]; [|done]. simpl in Hbody.
      destruct (modify c _ t1) as [t2|] eqn:Hm2; [|done]. simpl in Hbody.
      destruct (t2 !! y) as [ch2|]; [|done]. simpl in Hbody.
      split.
      * eapply sameGraph_trans; [exact Ht|].
        eapply sameGraph_trans; [exact Ht1|].
        eapply sameGraph_trans; eapply sameGraph_modify; done.
      * eapply bounded_ext; [|exact Hby]. intros d. apply Ht.
  - simplify_eq. split; [done|]. intros y Hy.
    rewrite (kids_lookup _ _ _ Hc) in Hy.
    destruct (children cm); [by apply elem_of_nil in Hy|simpl in Hne; lia].
Qed.

Lemma addSubConcept_total fuel :
  ∀ c lvl s, arrays_valid s → c < length s →
    ClosureInv.bounded (kids s) fuel c →
    is_Some (addSubConcept fuel c lvl s).
Proof.
  induction fuel as [|fuel IH]; intros c lvl s Hvalid Hc Hb; [done|].
  simpl.
  destruct (lookup_lt_is_Some_2 s c Hc) as [cm Hcm]. rewrite Hcm. simpl.
  destruct (modify_total c (set_level (Some lvl)) s Hc) as [sa Hma].
  rewrite Hma. simpl.
  assert (c < length sa) as Hca by (by rewrite (modify_length _ _ _ _ Hma)).
  destruct (modify_total c (λ c, set_allSubConcepts
              (allSubConcepts c ++ children c) c) sa Hca) as [sb Hmb].
  rewrite Hmb. simpl.
  assert (sameGraph s sb) as Hsb.
  { eapply sameGraph_trans; eapply sameGraph_modify; done. }
  case_bool_decide as Hne; [|done].
  destruct (each_total (λ t, sameGraph s t)
    (λ s child,
       s ← addSubConcept fuel child (lvl + 1) s;
       ch ← s !! child;
       s ← modify c (λ c, set_allSubConcepts
                            (allSubConcepts c ++ allSubConcepts ch) c) s;
       ch ← s !! child;
       modify c (λ c, set_indirectSubConcepts
                        (indirectSubConcepts c ++ allSubConcepts ch) c) s)
    (children cm) sb) as (r & -> & _); [|done|done].
  intros t y Hy [Hlen Hg].
  assert (y < length s) as Hys.
  { apply (proj1 (Hvalid c y)). by rewrite (kids_lookup _ _ _ Hcm). }
  destruct (IH y (lvl + 1) t) as [t1 Hrec].
  { intros d x. rewrite Hlen, (proj1 (Hg d)), (proj2 (Hg d)). apply Hvalid. }
  { by rewrite Hlen. }
  { eapply bounded_ext; [intros d; symmetry; apply Hg|].
    apply Hb. by rewrite (kids_lookup _ _ _ Hcm). }
  rewrite Hrec. simpl.
  destruct (addSubConcept_graph _ _ _ _ _ Hrec) as [[Hlen1 Hg1] _].
  destruct (lookup_lt_is_Some_2 t1 y) as [ch ->]; [lia|]. simpl.
  destruct (modify_total c (λ c, set_allSubConcepts
              (allSubConcepts c ++ allSubConcepts ch) c) t1) as [t2 Hm2];
    [lia|].
  rewrite Hm2. simpl. pose proof (modify_length _ _ _ _ Hm2) as Hlen2.
  destruct (lookup_lt_is_Some_2 t2 y) as [ch2 ->]; [lia|]. simpl.
  destruct (modify_total c (λ c, set_indirectSubConcepts
              (indirectSubConcepts c ++ allSubConcepts ch2) c) t2) as [t3 Hm3];
    [lia|].
  exists t3. split; [done|].
  eapply sameGraph_trans; [by split|].
  eapply sameGraph_trans; [by split|].
  eapply sameGraph_trans; eapply sameGraph_modify; done.
Qed.

Lemma addSuperConcepts_graph fuel :
  ∀ c s s', addSuperConcepts fuel c s = Some s' →
    sameGraph s s' ∧ ∀ d, levelAt s' d = levelAt s d.
Proof.
  induction fuel as [|fuel IH]; intros c s s' Hrun; [done|].
  simpl in Hrun.
  destruct (s !! c) as [cm|] eqn:Hc; [|done]. simpl in Hrun.
  destruct (each _ (parent cm) s) as [sp|] eqn:Hpar; [|done]. simpl in Hrun.
  destruct (modify c _ sp) as [sc|] eqn:Hmc; [|done]. simpl in Hrun.
  set (P := λ t : Store N, sameGraph s t ∧ ∀ d, levelAt t d = levelAt s d).
  assert (∀ t t' g, P t → modify c g t = Some t' →
            (∀ cm, children (g cm) = children cm) →
            (∀ cm, parent (g cm) = parent cm) →
            (∀ cm, level (g cm) = level cm) → P t') as Hstep.
  { intros t t' g [Hg Hl] Hm Hk Hp Hlv. split.
    - eapply sameGraph_trans; [done|]. by eapply sameGraph_modify.
    - intros d. rewrite <- Hl. unfold levelAt.
      pose proof (modify_frame level _ _ _ _ Hm Hlv d) as Hfr.
      destruct (t' !! d), (t !! d); simpl in *; congruence. }
  assert (P sp) as Hsp.
  { eapply (each_inv P); [|split; [apply sameGraph_refl|done]|exact Hpar].
    intros t p t' _ Ht Hbody. simpl in Hbody.
    destruct (modify c _ t) as [t1|] eqn:Hm1; [|done]. simpl in Hbody.
    destruct (t1 !! p) as [pm|]; [|done]. simpl in Hbody.
    assert (P t1) as Ht1 by (eapply Hstep; done).
    eapply Hstep; done. }
  assert (P sc) as Hsc by (eapply Hstep; done).
  eapply (each_inv P); [|exact Hsc|exact Hrun].
  intros t y t' _ [Hg Hl] Hrec. destruct (IH _ _ _ Hrec) as [Hg' Hl'].
  split; [by eapply sameGraph_trans|]. intros d. by rewrite Hl', Hl.
Qed.

Lemma addSuperConcepts_total fuel :
  ∀ c s, arrays_valid s → c < length s →
    ClosureInv.bounded (kids s) fuel c →
    is_Some (addSuperConcepts fuel c s).
Proof.
  induction fuel as [|fuel IH]; intros c s Hvalid Hc Hb; [done|].
  simpl.
  destruct (lookup_lt_is_Some_2 s c Hc) as [cm Hcm]. rewrite Hcm. simpl.
  destruct (each_total (λ t, sameGraph s t)
    (λ s p,
       s ← modify c (λ c, set_allSuperConcepts (allSuperConcepts c ++ [p]) c) s;
       pm ← s !! p;
       modify c (λ c, set_allSuperConcepts
                        (allSuperConcepts c ++ allSuperConcepts pm) c) s)
    (parent cm) s) as (sp & -> & [Hlenp Hgp]);
    [|apply sameGraph_refl|].
  { intros t p Hp [Hlen Hg].
    assert (p < length s) as Hps.
    { apply (proj2 (Hvalid c p)). by rewrite (pars_lookup _ _ _ Hcm). }
    destruct (modify_total c (λ c, set_allSuperConcepts
                (allSuperConcepts c ++ [p]) c) t) as [t1 Hm1]; [lia|].
    rewrite Hm1. simpl. pose proof (modify_length _ _ _ _ Hm1) as Hlen1.
    destruct (lookup_lt_is_Some_2 t1 p) as [pm ->]; [lia|]. simpl.
    destruct (modify_total c (λ c, set_allSuperConcepts
                (allSuperConcepts c ++ allSuperConcepts pm) c) t1)
      as [t2 Hm2]; [lia|].
    exists t2. split; [done|].
    eapply sameGraph_trans; [by split|].
    eapply sameGraph_trans; eapply sameGraph_modify; done. }
  simpl.
  destruct (modify_total c (λ cm, set_covered
              (union3 (allSuperConcepts cm) (allSubConcepts cm) [c]) cm) sp)
    as [sc Hmc]; [lia|].
  rewrite Hmc. simpl.
  assert (sameGraph s sc) as Hsc.
  { eapply sameGraph_trans; [by split|]. by eapply sameGraph_modify. }
  destruct (each_total (λ t, sameGraph s t)
    (λ s child, addSuperConcepts fuel child s) (children cm) sc)
    as (r & -> & _); [|done|done].
  intros t y Hy [Hlen Hg].
  destruct (IH y t) as [t1 Hrec].
  { intros d x. rewrite Hlen, (proj1 (Hg d)), (proj2 (Hg d)). apply Hvalid. }
  { rewrite Hlen. apply (proj1 (Hvalid c y)).
    by rewrite (kids_lookup _ _ _ Hcm). }
  { eapply bounded_ext; [intros d; symmetry; apply Hg|].
    apply Hb. by rewrite (kids_lookup _ _ _ Hcm). }
  exists t1. split; [done|].
  eapply sameGraph_trans; [by split|]. by eapply addSuperConcepts_graph.
Qed.

Lemma refs_valid_arrays s : refs_valid s → arrays_valid s.
Proof.
  intros Hv d x. unfold kids, pars.
  destruct (s !! d) as [dm|] eqn:Hd; simpl.
  - destruct (Hv d dm Hd) as [H1 H2]. split; [apply H1|apply H2].
  - split; by intros ?%elem_of_nil.
Qed.

(** Without a cycle every path along [K] is shorter than the number of
    objects. *)
Lemma acyclic_bounded (K : ref → list ref) (m : nat) :
  (∀ c y, y ∈ K c → y < m) → (∀ d, ¬ tc (λ a b, b ∈ K a) d d) →
  ∀ n c path,
    c < m → NoDup path →
    (∀ x, x ∈ path → x < m ∧ tc (λ a b, b ∈ K a) x c) →
    m < n + length path →
    ClosureInv.bounded K n c.
Proof.
  intros Hvalid Hacyc. induction n as [|n IH]; intros c path Hc Hnd Hpath Hn.
  - pose proof (bounded_NoDup_length path m Hnd) as Hle.
    simpl in Hn. specialize (Hle (λ x Hx, proj1 (Hpath x Hx))). lia.
  - intros y Hy. apply (IH y (path ++ [c])).
    + by apply (Hvalid c y).
    + apply NoDup_app. split_and!; [done| |apply NoDup_singleton].
      intros x Hx ->%list_elem_of_singleton.
      apply (Hacyc c). by apply Hpath.
    + intros x [Hx| ->%list_elem_of_singleton]%elem_of_app.
      * split; [by apply Hpath|].
        eapply tc_r; [by apply Hpath|done].
      * split; [done|by apply tc_once].
    + rewrite length_app. simpl. lia.
Qed.

(** Two sufficient conditions that are decided by evaluation on a
    concrete heap. *)
Lemma kids_Forall s (P : ref → ref → Prop) :
  Forall (λ a, Forall (P a) (kids s a)) (seq 0 (length s)) →
  ∀ a b, b ∈ kids s a → P a b.
Proof.
  intros Hall a b Hb.
  assert (a < length s) as Ha.
  { unfold kids in Hb. destruct (s !! a) eqn:Hsa; [by eapply lookup_lt_Some|].
    by apply elem_of_nil in Hb. }
  assert (a ∈ seq 0 (length s)) as Hin by (apply elem_of_seq; lia).
  pose proof (proj1 (Forall_forall _ _) Hall a Hin) as Hk. simpl in Hk.
  by apply (proj1 (Forall_forall _ _) Hk b).
Qed.

Lemma ranked_acyclic s (rank : ref → nat) :
  (∀ a b, b ∈ kids s a → rank a < rank b) → ∀ c, ¬ descendant s c c.
Proof.
  intros Hrank c Hc.
  assert (∀ a b, descendant s a b → rank a < rank b) as Hlt.
  { intros a b Hab. induction Hab as [a b Hab|a y b Hay _ IH].
    - by apply Hrank.
    - apply Hrank in Hay. lia. }
  apply Hlt in Hc. lia.
Qed.

(** X2.  On a graph with a cycle below the root, [updateConceptTree] does
    not return, whatever the depth allowed to the recursion. *)
Theorem updateConceptTree_diverges_on_cycle s root c :
  inTree s root c → descendant s c c →
  ∀ fuel, updateConceptTree fuel (Some root) s = None.
Proof.
  intros Hc Hcyc fuel. unfold updateConceptTree. simpl.
  destruct (addSubConcept fuel root 1 s) as [s1|] eqn:Hrun; [|done].
  exfalso. destruct (addSubConcept_graph _ _ _ _ _ Hrun) as [_ Hb].
  apply (bounded_acyclic (kids s) fuel c); [|done].
  by eapply bounded_Ds.
Qed.

(** Where no path of children from the root has [fuel] concepts, both
    traversals return. *)
Lemma updateConceptTree_bounded fuel root s :
  arrays_valid s → root < length s →
  ClosureInv.bounded (kids s) fuel root →
  ∃ s', updateConceptTree fuel (Some root) s = Some s' ∧ sameGraph s s'.
Proof.
  intros Hvalid Hroot Hb. unfold updateConceptTree. simpl.
  destruct (addSubConcept_total fuel root 1 s) as [s1 Hrun]; [done..|].
  rewrite Hrun. simpl.
  destruct (addSubConcept_graph _ _ _ _ _ Hrun) as [[Hlen Hg] _].
  destruct (addSuperConcepts_total fuel root s1) as [s2 Hrun2].
  { intros d x. rewrite Hlen, (proj1 (Hg d)), (proj2 (Hg d)). apply Hvalid. }
  { by rewrite Hlen. }
  { eapply bounded_ext; [intros d; symmetry; apply Hg|done]. }
  exists s2. split; [done|].
  eapply sameGraph_trans; [by split|]. by eapply addSuperConcepts_graph.
Qed.

(** X3.  On a graph without a cycle, [updateConceptTree] returns as soon
    as the recursion may go deeper than the number of concepts, and it
    changes no [children] or [parent] array. *)
Theorem updateConceptTree_returns_on_acyclic s root :
  refs_valid s → root < length s → (∀ c, ¬ descendant s c c) →
  ∀ fuel, length s < fuel →
    ∃ s', updateConceptTree fuel (Some root) s = Some s' ∧ sameGraph s s'.
Proof.
  intros Hvalid%refs_valid_arrays Hroot Hacyc fuel Hfuel.
  apply updateConceptTree_bounded; [done..|].
  apply (acyclic_bounded (kids s) (length s)
           (λ c y, proj1 (Hvalid c y)) Hacyc fuel root []);
    [done|constructor|by intros x ?%elem_of_nil|simpl; lia].
Qed.

(** X4.  After [updateConceptTree], at every concept of the tree
    [allSubConcepts] holds exactly its proper descendants and
    [allSuperConcepts] holds ancestors only, among them every ancestor
    that is in the tree. *)
Theorem updateConceptTree_closures s s' fuel root :
  links_consistent s → closures_fresh s →
  updateConceptTree fuel (Some root) s = Some s' →
  ∀ b, inTree s root b →
    (∀ a, a ∈ subs s' b ↔ descendant s b a) ∧
    (∀ a, a ∈ sups s' b → descendant s a b) ∧
    (∀ a, inTree s root a → descendant s a b → a ∈ sups s' b).
Proof.
  intros Hlinks Hfresh Hrun b Hb.
  unfold updateConceptTree in Hrun. simpl in Hrun.
  destruct (addSubConcept fuel root 1 s) as [s1|] eqn:Hp1; [|done].
  simpl in Hrun.
  assert (ClosureInv.shape (kids s) (pars s) s) as Hsh by done.
  destruct (addSubConcept_post (kids s) (pars s) fuel root 1 s s1 Hsh Hp1)
    as (Hsh1 & Hsup1 & _ & Hsound1 & Hcomp1).
  destruct (addSuperConcepts_post (kids s) (pars s) Hlinks (inTree s root)
              (λ x y Hx Hy, rtc_r _ _ _ Hx Hy) fuel root s1 s' Hsh1 Hrun)
    as (_ & Hsub2 & _ & Hsound2 & _ & _ & _ & Hmain).
  assert (ClosureInv.sub_sound (kids s) s1) as Hss1.
  { apply Hsound1. intros d x. rewrite (proj1 (Hfresh d)).
    by intros ?%elem_of_nil. }
  assert (ClosureInv.sup_sound (kids s) s') as Hss2.
  { apply Hsound2. intros d x. rewrite Hsup1, (proj2 (Hfresh d)).
    by intros ?%elem_of_nil. }
  assert (ClosureInv.complete (kids s) (inTree s root) s' b) as Hcb.
  { apply Hmain; [done|]. by intros x Hx _ []. }
  split_and!.
  - intros a. rewrite Hsub2. split; [apply Hss1|by apply Hcomp1].
  - intros a. apply Hss2.
  - intros a Ha Hab. by apply Hcb.
Qed.

(** *** Levels *)

Lemma each_mono {A B : Type} (R : B → B → Prop) (Q : A → B → Prop)
    (f : B → A → option B) l acc r :
  (∀ a, R a a) → (∀ a b c, R a b → R b c → R a c) →
  (∀ x a b, Q x a → R a b → Q x b) →
  (∀ a x a', x ∈ l → R acc a → f a x = Some a' → R a a' ∧ Q x a') →
  each f l acc = Some r → R acc r ∧ ∀ x, x ∈ l → Q x r.
Proof.
  intros Hrefl Htrans Hmono. revert acc.
  induction l as [|x l IH]; intros acc Hf Hr; simpl in *.
  - simplify_eq. split; [done|]. by intros x ?%elem_of_nil.
  - destruct (f acc x) as [acc'|] eqn:Heq; simplify_eq/=.
    destruct (Hf acc x acc') as [Hacc' Hx]; [left|done..|].
    destruct (IH acc') as [Hr' Hl]; [|done|].
    { intros a y a' Hy Ha Hfa. apply Hf; [by right| |done].
      by eapply Htrans. }
    split; [by eapply Htrans|].
    intros y [->|Hy]%elem_of_cons; [by eapply Hmono|auto].
Qed.

Lemma levelAt_modify c f s s' :
  modify c f s = Some s' → (∀ cm, level (f cm) = level cm) →
  ∀ d, levelAt s' d = levelAt s d.
Proof.
  intros Hm Hlv d. unfold levelAt.
  pose proof (modify_frame level _ _ _ _ Hm Hlv d) as Hfr.
  destruct (s' !! d), (s !! d); simpl in *; congruence.
Qed.

Lemma rtc_kids_ext s t x y :
  (∀ d, kids t d = kids s d) →
  rtc (λ a b, b ∈ kids t a) x y → rtc (λ a b, b ∈ kids s a) x y.
Proof.
  intros Hk Hxy. induction Hxy as [|a b c Hab _ IH]; [done|].
  eapply rtc_l; [|done]. simpl. by rewrite <- Hk.
Qed.

Section Graded.
Variable dep : ref → nat.

Local Abbreviation okAt := (λ (t : Store N) x, levelAt t x = Some (S (dep x))).

Lemma addSubConcept_levels fuel :
  ∀ c lvl s s',
    addSubConcept fuel c lvl s = Some s' →
    (∀ a b, b ∈ kids s a → dep b = S (dep a)) → lvl = S (dep c) →
    (∀ x, okAt s x → okAt s' x) ∧
    (∀ x, inTree s c x → okAt s' x).
Proof.
  induction fuel as [|fuel IH]; intros c lvl s s' Hrun Hdep Hlvl; [done|].
  pose proof (addSubConcept_graph _ _ _ _ _ Hrun) as [Hgraph _].
  simpl in Hrun.
  destruct (s !! c) as [cm|] eqn:Hc; [|done]. simpl in Hrun.
  destruct (modify c (set_level (Some lvl)) s) as [sa|] eqn:Hma; [|done].
  simpl in Hrun.
  destruct (modify c _ sa) as [sb|] eqn:Hmb; [|done]. simpl in Hrun.
  assert (sameGraph s sb) as Hsb.
  { eapply sameGraph_trans; eapply sameGraph_modify; done. }
  assert (okAt sb c) as Hcb.
  { rewrite (levelAt_modify _ _ _ _ Hmb) by done. unfold levelAt.
    rewrite (modify_lookup_eq _ _ _ _ _ Hma Hc). simpl. by rewrite Hlvl. }
  assert (∀ x, okAt s x → okAt sb x) as Hpres.
  { intros x Hx. destruct (decide (x = c)) as [->|Hne]; [done|].
    rewrite (levelAt_modify _ _ _ _ Hmb) by done. unfold levelAt.
    by rewrite (modify_lookup_ne _ _ _ _ _ Hma) by done. }
  set (R := λ t t' : Store N, sameGraph t t' ∧ ∀ x, okAt t x → okAt t' x).
  assert (R sb s' ∧ ∀ y, y ∈ children cm → ∀ x, inTree s y x → okAt s' x)
    as [[_ Hkeep] Hsub].
  { case_bool_decide as Hne.
    2:{ simplify_eq. split; [split; [apply sameGraph_refl|done]|].
        intros y Hy. destruct (children cm); [by apply elem_of_nil in Hy|].
        simpl in Hne. lia. }
    apply (each_mono R (λ y t, ∀ x, inTree s y x → okAt t x)) in Hrun;
      [done| | | |].
    - intros t. split; [apply sameGraph_refl|done].
    - intros t1 t2 t3 [Hg1 Hk1] [Hg2 Hk2].
      split; [by eapply sameGraph_trans|auto].
    - intros y t1 t2 Hq [_ Hk] x Hx. by apply Hk, Hq.
    - intros t y t' Hy [Hg Hk] Hbody. simpl in Hbody.
      destruct (addSubConcept fuel y (lvl + 1) t) as [t1|] eqn:Hrec; [|done].
      simpl in Hbody.
      assert (sameGraph s t) as Hst by (by eapply sameGraph_trans).
      destruct (IH _ _ _ _ Hrec) as [Hk1 Hin1].
      { intros a b. rewrite (proj1 (proj2 Hst a)). apply Hdep. }
      { rewrite (Hdep c y); [lia|]. by rewrite (kids_lookup _ _ _ Hc). }
      pose proof (addSubConcept_graph _ _ _ _ _ Hrec) as [Hg1 _].
      destruct (t1 !! y) as [ch|]; [|done]. simpl in Hbody.
      destruct (modify c _ t1) as [t2|] eqn:Hm2; [|done]. simpl in Hbody.
      destruct (t2 !! y) as [ch2|]; [|done]. simpl in Hbody.
      assert (∀ x, levelAt t' x = levelAt t1 x) as Hlv.
      { intros x. rewrite (levelAt_modify _ _ _ _ Hbody) by done.
        by rewrite (levelAt_modify _ _ _ _ Hm2) by done. }
      split; [split|].
      + eapply sameGraph_trans; [exact Hg1|].
        eapply sameGraph_trans; eapply sameGraph_modify; done.
      + intros x Hx. rewrite Hlv. by apply Hk1.
      + intros x Hx. rewrite Hlv. apply Hin1.
        eapply rtc_kids_ext; [|exact Hx]. intros d.
        by rewrite (proj1 (proj2 Hst d)). }
  split.
  - intros x Hx. by apply Hkeep, Hpres.
  - intros x Hx. apply rtc_inv in Hx as [<-|(y & Hy & Hyx)].
    + by apply Hkeep.
    + apply (Hsub y); [|done]. by rewrite (kids_lookup _ _ _ Hc) in Hy.
Qed.

(** X5.  On a graph where every edge leads one step deeper, the [level] of
    every concept of the tree is its depth, counted from 1 at the root;
    where every object is in the tree the levels are consistent along all
    edges. *)
Theorem updateConceptTree_levels s s' fuel root :
  updateConceptTree fuel (Some root) s = Some s' →
  dep root = 0 → (∀ a b, b ∈ kids s a → dep b = S (dep a)) →
  (∀ x, inTree s root x → levelAt s' x = Some (S (dep x))) ∧
  (links_consistent s → (∀ d, d < length s → inTree s root d) →
   levels_consistent s').
Proof.
  intros Hrun Hroot Hdep. unfold updateConceptTree in Hrun. simpl in Hrun.
  destruct (addSubConcept fuel root 1 s) as [s1|] eqn:Hp1; [|done].
  simpl in Hrun.
  destruct (addSubConcept_levels _ _ _ _ _ Hp1 Hdep) as [_ Hin];
    [by rewrite Hroot|].
  destruct (addSubConcept_graph _ _ _ _ _ Hp1) as [Hg1 _].
  destruct (addSuperConcepts_graph _ _ _ _ Hrun) as [Hg2 Hlv].
  destruct (sameGraph_trans _ _ _ Hg1 Hg2) as [Hlen Hg].
  assert (∀ x, inTree s root x → levelAt s' x = Some (S (dep x))) as Hall.
  { intros x Hx. rewrite Hlv. by apply Hin. }
  split; [done|]. intros Hlinks Htree p pm Hp.
  assert (inTree s root p) as Hpt.
  { apply Htree. rewrite <- Hlen. by eapply lookup_lt_Some. }
  pose proof (Hall p Hpt) as Hlp. unfold levelAt in Hlp. rewrite Hp in Hlp.
  simpl in Hlp. exists (S (dep p)). split; [done|]. split.
  - intros x Hx.
    assert (x ∈ kids s p) as Hxk.
    { rewrite <- (proj1 (Hg p)). by rewrite (kids_lookup _ _ _ Hp). }
    pose proof (Hall x (rtc_r _ _ _ Hpt Hxk)) as Hlx. unfold levelAt in Hlx.
    destruct (s' !! x) as [xm|]; [|done]. simpl in Hlx.
    exists xm. split; [done|]. rewrite Hlx, (Hdep p x Hxk). f_equal. lia.
  - intros x Hx.
    assert (p ∈ kids s x) as Hxk.
    { apply Hlinks. rewrite <- (proj2 (Hg p)).
      by rewrite (pars_lookup _ _ _ Hp). }
    assert (x < length s) as Hxl.
    { unfold kids in Hxk. destruct (s !! x) eqn:Hsx;
        [by eapply lookup_lt_Some|by apply elem_of_nil in Hxk]. }
    pose proof (Hall x (Htree x Hxl)) as Hlx. unfold levelAt in Hlx.
    destruct (s' !! x) as [xm|]; [|done]. simpl in Hlx.
    exists xm, (S (dep x)). split_and!; [done..|].
    rewrite (Hdep x p Hxk). lia.
Qed.

End Graded.

End TraversalFacts.

Section BuilderFacts.
Context {N : Type} `{JsNumber N}.
Implicit Types s t : Store N.






















(** *** The root *)






End BuilderFacts.

(** ** The handlers as a whole *)

Section HandlerFacts.
Context {N : Type} `{JsNumber N}.
Implicit Types s t : Store N.




(** Steps along [parent], read backwards, are steps along [children]. *)
Lemma pars_tc_descendant s a b :
  links_consistent s → tc (λ x y, y ∈ pars s x) a b → descendant s b a.
Proof.
  intros Hlinks Hab. induction Hab as [a b Hab|a y b Hay _ IH].
  - apply tc_once. by apply Hlinks.
  - eapply tc_r; [exact IH|]. by apply Hlinks.
Qed.










End HandlerFacts.

(** ** The worst member is a minimum *)

Section WorstMember.
Context {N : Type} `{JsNumber N} `{!JsNumberLaws N}.
Implicit Types s : Store N.

(** No number is less than itself. *)
Hypothesis num_ltb_irrefl : ∀ x : N, (x <? x)%num = false.

(** The state of the search after the concepts [pre]: no concept seen
    is below the running minimum, which is the score of the result. *)
Local Abbreviation min_inv := (λ (s : Store N) (pre : list ref)
    (acc : N * option ref),
  (∀ c, c ∈ pre → (overallScoreAt s c <? acc.1)%num = false) ∧
  (acc.2 = None ∨ ∃ w, acc.2 = Some w ∧ acc.1 = overallScoreAt s w ∧ w ∈ pre)).

Lemma findWorst_min_loop s l :
  ∀ pre acc acc',
    min_inv s pre acc →
    each (λ '(worstOverallScore, result) c,
            cm ← s !! c;
            Some (if (overallScore cm <? worstOverallScore)%num
                  then (overallScore cm, Some c)
                  else (worstOverallScore, result)))
         l acc = Some acc' →
    min_inv s (pre ++ l) acc'.
Proof.
  induction l as [|c l IH]; intros pre [worst res] acc' Hinv Hrun.
  - simpl in Hrun. injection Hrun as <-. by rewrite app_nil_r.
  - simpl in Hrun. destruct (s !! c) as [cm|] eqn:Hc; [|done].
    simpl in Hrun.
    assert (overallScore cm = overallScoreAt s c) as Ho.
    { unfold overallScoreAt. by rewrite Hc. }
    rewrite Ho in Hrun.
    replace (pre ++ c :: l) with ((pre ++ [c]) ++ l)
      by (by rewrite <- app_assoc).
    destruct Hinv as [Hlow Hres]. simpl in Hlow, Hres.
    destruct (overallScoreAt s c <? worst)%num eqn:Hlt;
      (eapply IH; [|exact Hrun]); simpl; split.
    + intros d [Hd| ->%list_elem_of_singleton]%elem_of_app; [|done].
      destruct (overallScoreAt s d <? overallScoreAt s c)%num eqn:Hdc; [|done].
      rewrite <- (Hlow d Hd). symmetry. by eapply num_ltb_trans.
    + right. exists c. split_and!; [done..|]. apply elem_of_app. right. left.
    + intros d [Hd| ->%list_elem_of_singleton]%elem_of_app; [by apply Hlow|done].
    + destruct Hres as [?|(w & ? & ? & ?)]; [by left|].
      right. exists w. split_and!; [done..|]. apply elem_of_app. by left.
Qed.

(** X11.  The concept [findConceptWithWorstOverallScore] returns is a
    member of the list with a minimal overall score: no member has a
    strictly lower one. *)
Theorem findConceptWithWorstOverallScore_minimal cs s w :
  findConceptWithWorstOverallScore cs s = Some (Some w) →
  w ∈ cs ∧
  ∀ c, c ∈ cs → (overallScoreAt s c <? overallScoreAt s w)%num = false.
Proof.
  unfold findConceptWithWorstOverallScore. intros Hrun.
  destruct (each _ cs _) as [[worst res]|] eqn:Heach; [|done].
  simpl in Hrun. injection Hrun as ->.
  apply (findWorst_min_loop s cs []) in Heach as [Hlow Hres].
  - simpl in *. destruct Hres as [?|(w' & [= <-] & -> & Hw)]; [done|].
    split; [done|]. exact Hlow.
  - simpl. split; [by intros c ?%elem_of_nil|by left].
Qed.

End WorstMember.

(** Binary64: no number is less than itself. *)
Lemma float_ltb_irrefl (x : float) : (x <? x)%num = false.
Proof.
  simpl. rewrite FloatAxioms.ltb_spec. unfold SFltb, SFcompare.
  destruct (Prim2SF x) as [[]|[]| |[] m e]; try done;
    rewrite Z.compare_refl;
    change (PosDef.Pos.compare_cont Eq m m) with (m ?= m)%positive;
    by rewrite Pos.compare_refl.
Qed.

(** ** The concept list of the diagram model *)

Section ConceptList.
Context {N : Type} `{JsNumber N}.
Implicit Types s t : Store N.

Lemma addConcept_preorder fuel s :
  ∀ c acc r, addConcept fuel s c acc = Some r →
    r = acc ++ preorder fuel s c ∧ ClosureInv.bounded (kids s) fuel c ∧
    ∀ x, x ∈ preorder fuel s c → is_Some (s !! x).
Proof.
  induction fuel as [|fuel IH]; intros c acc r Hrun; [done|].
  simpl in Hrun. destruct (s !! c) as [cm|] eqn:Hc; [|done]. simpl in Hrun.
  simpl. rewrite (kids_lookup _ _ _ Hc).
  assert (∀ ks acc r,
            each (λ acc child, addConcept fuel s child acc) ks acc = Some r →
            r = acc ++ (k ← ks; preorder fuel s k)
            ∧ (∀ y, y ∈ ks → ClosureInv.bounded (kids s) fuel y)
            ∧ ∀ x, x ∈ (k ← ks; preorder fuel s k) → is_Some (s !! x))
    as Hloop.
  { clear Hrun. induction ks as [|k ks IHk]; intros acc' r' Hrun; simpl in *.
    - injection Hrun as <-. rewrite app_nil_r. split; [done|].
      split; by intros y ?%elem_of_nil.
    - destruct (addConcept fuel s k acc') as [acc1|] eqn:Hk; [|done].
      simpl in Hrun. destruct (IH _ _ _ Hk) as (-> & Hbk & Hsk).
      destruct (IHk _ _ Hrun) as (-> & Hbks & Hsks).
      split; [by rewrite <- app_assoc|]. split.
      + intros y [->|Hy]%elem_of_cons; auto.
      + intros x [Hx|Hx]%elem_of_app; auto. }
  destruct (Hloop _ _ _ Hrun) as (-> & Hb & Hs). split; [|split; [done|]].
  - by rewrite <- app_assoc.
  - intros x [->|Hx]%elem_of_cons; [by eexists|auto].
Qed.

Lemma elem_of_preorder fuel s :
  ∀ c, ClosureInv.bounded (kids s) fuel c →
    ∀ x, x ∈ preorder fuel s c ↔ rtc (λ a b, b ∈ kids s a) c x.
Proof.
  induction fuel as [|fuel IH]; intros c Hb x; [done|]. simpl.
  rewrite elem_of_cons, list_elem_of_bind. split.
  - intros [->|(k & Hx & Hk)]; [apply rtc_refl|].
    eapply rtc_l; [exact Hk|]. apply IH; [by apply Hb|done].
  - intros Hcx. destruct (rtc_inv _ _ Hcx) as [->|(k & Hk & Hkx)]; [by left|].
    right. exists k. split; [|done]. apply IH; [by apply Hb|done].
Qed.

Lemma NoDup_bind_list {A B} (g : A → list B) (ks : list A) :
  NoDup ks → (∀ k, k ∈ ks → NoDup (g k)) →
  (∀ k k' x, k ∈ ks → k' ∈ ks → x ∈ g k → x ∈ g k' → k = k') →
  NoDup (ks ≫= g).
Proof.
  induction ks as [|k ks IH]; intros Hnd Hg Hdisj; [constructor|].
  rewrite bind_cons.
  apply NoDup_cons in Hnd as [Hk Hnd].
  apply NoDup_app. split_and!.
  - apply Hg. left.
  - intros x Hx (k' & Hxl & Hk')%list_elem_of_bind.
    apply Hk. by rewrite (Hdisj k k' x); [|left|right|..].
  - apply IH; [done|intros; apply Hg; by right|].
    intros k1 k2 x H1 H2. apply Hdisj; by right.
Qed.

(** With at most one parent per concept, the concepts above a concept
    form a chain. *)
Lemma ancestors_chain s a b x :
  links_consistent s → (∀ c, length (pars s c) ≤ 1) →
  rtc (λ u v, v ∈ kids s u) a x → rtc (λ u v, v ∈ kids s u) b x →
  rtc (λ u v, v ∈ kids s u) a b ∨ rtc (λ u v, v ∈ kids s u) b a.
Proof.
  intros Hlinks Hone Hax. revert b. revert x Hax.
  apply (rtc_ind_r (λ x, ∀ b, rtc (λ u v, v ∈ kids s u) b x →
           rtc (λ u v, v ∈ kids s u) a b ∨ rtc (λ u v, v ∈ kids s u) b a));
    [intros b Hbx; by right|].
  intros p x Hap Hpx IH b Hbx.
  destruct (rtc_inv_r _ _ Hbx) as [->|(p' & Hbp' & Hp'x)].
  - left. by eapply rtc_r.
  - assert (p' = p) as ->; [|by apply IH].
    apply Hlinks in Hpx, Hp'x. specialize (Hone x).
    destruct (pars s x) as [|q [|q' l]]; simpl in Hone; [| |lia].
    + by apply elem_of_nil in Hpx.
    + apply list_elem_of_singleton in Hpx, Hp'x. congruence.
Qed.

Lemma NoDup_preorder fuel s :
  links_consistent s → treeShaped s →
  ∀ c, ClosureInv.bounded (kids s) fuel c → NoDup (preorder fuel s c).
Proof.
  intros Hlinks Htree.
  assert (∀ c, length (pars s c) ≤ 1) as Hone by (intros c; apply Htree).
  induction fuel as [|fuel IH]; intros c Hb; [constructor|].
  assert (¬ tc (λ u v, v ∈ kids s u) c c) as Hacyc.
  { by apply (bounded_acyclic (kids s) (S fuel)). }
  simpl. apply NoDup_cons. split.
  - intros (k & Hc & Hk)%list_elem_of_bind.
    apply Hacyc. eapply tc_rtc_r; [by apply tc_once|].
    apply (elem_of_preorder fuel); [by apply Hb|done].
  - apply NoDup_bind_list; [apply Htree|intros k Hk; apply IH; by apply Hb|].
    intros k k' x Hk Hk' Hx Hx'.
    apply (elem_of_preorder fuel) in Hx; [|by apply Hb].
    apply (elem_of_preorder fuel) in Hx'; [|by apply Hb].
    assert (∀ u v, u ∈ kids s c → v ∈ kids s c →
              rtc (λ u v, v ∈ kids s u) u v → u = v) as Hsame.
    { intros u v Hu Hv Huv.
      destruct (rtc_inv_r _ _ Huv) as [|(p & Hup & Hpv)]; [done|].
      exfalso. assert (p = c) as ->.
      { apply Hlinks in Hpv, Hv. specialize (Hone v).
        destruct (pars s v) as [|q [|q' l]]; simpl in Hone; [| |lia].
        - by apply elem_of_nil in Hv.
        - apply list_elem_of_singleton in Hpv, Hv. congruence. }
      apply Hacyc. eapply (tc_rtc_r _ u); [by apply tc_once|done]. }
    destruct (ancestors_chain s k k' x Hlinks Hone Hx Hx') as [Hkk|Hkk].
    + by apply Hsame.
    + symmetry. by apply Hsame.
Qed.

(** The loop over the property counts changes the field
    [propertyCount] only. *)
Lemma propertyCount_loop (cs : list ref) (pcs : list (string * nat)) s s' :
  each (λ s item,
        match conceptsById s cs item.1 with
        | Some c => modify c (set_propertyCount item.2) s
        | None => Some s
        end) pcs s = Some s' →
  sameGraph s s' ∧ (∀ d, idAt s' d = idAt s d) ∧
  ∀ c, propertyCountAt s' c =
       match last (filter (λ item, conceptsById s cs item.1 = Some c) pcs) with
       | Some item => (λ _, item.2) <$> s !! c
       | None => propertyCountAt s c
       end.
Proof.
  revert s'. induction pcs as [|item pcs IH] using rev_ind; intros s' Hrun.
  - simpl in Hrun. injection Hrun as <-. split_and!; [apply sameGraph_refl|done..].
  - rewrite each_app in Hrun.
    destruct (each _ pcs s) as [s1|] eqn:Hpre; [|done]. simpl in Hrun.
    destruct (IH s1 eq_refl) as (Hg & Hid & Hpc).
    assert (∀ i, conceptsById s1 cs i = conceptsById s cs i) as Hby.
    { intros i. unfold conceptsById. f_equal. apply list_filter_iff.
      intros c. fold (idAt s1 c) (idAt s c). by rewrite Hid. }
    rewrite Hby in Hrun.
    destruct (conceptsById s cs item.1) as [c0|] eqn:Hc0; simpl in Hrun.
    + destruct (modify c0 _ s1) as [s2|] eqn:Hm; [|done].
      simpl in Hrun. injection Hrun as <-. rename Hm into Hrun.
      split_and!.
      * eapply sameGraph_trans; [exact Hg|]. by eapply sameGraph_modify.
      * intros d. rewrite <- Hid. unfold idAt.
        by rewrite (modify_frame id_ _ _ _ _ Hrun).
      * intros c. rewrite filter_app, filter_cons, filter_nil.
        unfold propertyCountAt.
        rewrite (modify_lookup _ _ _ _ _ Hrun).
        destruct (decide (c0 = c)) as [->|Hne].
        -- rewrite bool_decide_eq_true_2 by done.
           rewrite decide_True by done. rewrite last_snoc.
           destruct Hg as [Hlen _].
           destruct (s1 !! c) eqn:H1, (s !! c) eqn:H2; simpl; try done.
           ++ apply lookup_lt_Some in H1. apply lookup_ge_None in H2. lia.
           ++ apply lookup_lt_Some in H2. apply lookup_ge_None in H1. lia.
        -- rewrite decide_False by congruence.
           rewrite app_nil_r. rewrite bool_decide_eq_false_2 by congruence.
           apply Hpc.
    + injection Hrun as <-. split_and!; [done..|].
      intros c. rewrite filter_app, filter_cons, filter_nil.
      rewrite Hc0. rewrite decide_False by done. rewrite app_nil_r. apply Hpc.
Qed.

(** X12.  [setConceptTree] lists the concepts below the root, the root
    first and nothing else, and changes no [children] or [parent] array
    and no id; the paths are those of [calcAllPaths] from the root. *)
Theorem setConceptTree_concepts fuel s root propertyCounts maxA m :
  setConceptTree fuel s root propertyCounts maxA = Some m →
  head (concepts m) = Some root ∧
  (∀ c, c ∈ concepts m ↔ inTree s root c) ∧
  sameGraph s (heap m) ∧ (∀ d, idAt (heap m) d = idAt s d) ∧
  calcAllPaths fuel (heap m) root [] = Some (paths m).
Proof.
  unfold setConceptTree. intros Hrun.
  destruct (addConcept fuel s root []) as [cs|] eqn:Hcs; [|done].
  simpl in Hrun.
  destruct (each _ propertyCounts s) as [s1|] eqn:Hpc; [|done].
  simpl in Hrun.
  destruct (calcAllPaths fuel s1 root []) as [ps|] eqn:Hps; [|done].
  simpl in Hrun. injection Hrun as <-. simpl.
  destruct (addConcept_preorder _ _ _ _ _ Hcs) as (-> & Hb & _). simpl.
  destruct (propertyCount_loop _ _ _ _ Hpc) as (Hg & Hid & _).
  split_and!; [|by apply elem_of_preorder|done..].
  destruct fuel; [done|done].
Qed.

(** X13.  On a tree, where every concept has at most one parent, the
    concept list of [setConceptTree] names no concept twice. *)
Theorem setConceptTree_NoDup_on_tree fuel s root propertyCounts maxA m :
  setConceptTree fuel s root propertyCounts maxA = Some m →
  links_consistent s → treeShaped s →
  NoDup (concepts m).
Proof.
  unfold setConceptTree. intros Hrun Hlinks Htree.
  destruct (addConcept fuel s root []) as [cs|] eqn:Hcs; [|done].
  simpl in Hrun.
  destruct (each _ propertyCounts s) as [s1|] eqn:Hpc; [|done].
  simpl in Hrun.
  destruct (calcAllPaths fuel s1 root []) as [ps|] eqn:Hps; [|done].
  simpl in Hrun. injection Hrun as <-. simpl.
  destruct (addConcept_preorder _ _ _ _ _ Hcs) as (-> & Hb & _). simpl.
  by apply NoDup_preorder.
Qed.

(** X14.  Where the concepts below the root have distinct ids,
    [setConceptTree] gives each of them the count of the last item of
    [propertyCount] that names its id, and leaves the count of a concept
    that no item names as it is. *)
Theorem setConceptTree_propertyCount fuel s root propertyCounts maxA m :
  setConceptTree fuel s root propertyCounts maxA = Some m →
  (∀ a b, inTree s root a → inTree s root b → idAt s a = idAt s b → a = b) →
  ∀ c, inTree s root c →
    propertyCountAt (heap m) c =
    match last (filter (λ item, idAt s c = Some item.1) propertyCounts) with
    | Some item => Some item.2
    | None => propertyCountAt s c
    end.
Proof.
  unfold setConceptTree. intros Hrun Hinj c Hc.
  destruct (addConcept fuel s root []) as [cs|] eqn:Hcs; [|done].
  simpl in Hrun.
  destruct (each _ propertyCounts s) as [s1|] eqn:Hpc; [|done].
  simpl in Hrun.
  destruct (calcAllPaths fuel s1 root []) as [ps|] eqn:Hps; [|done].
  simpl in Hrun. injection Hrun as <-. simpl.
  destruct (addConcept_preorder _ _ _ _ _ Hcs) as (-> & Hb & Hobj).
  simpl in *.
  destruct (propertyCount_loop _ _ _ _ Hpc) as (_ & _ & Hcount).
  rewrite Hcount.
  pose proof (proj2 (elem_of_preorder _ _ _ Hb c) Hc) as Hin.
  destruct (Hobj c Hin) as [cm Hcm].
  assert (∀ i, conceptsById s (preorder fuel s root) i = Some c
               ↔ idAt s c = Some i) as Hby.
  { intros i. unfold conceptsById. fold (idAt s). split.
    - intros Hlast. apply last_Some in Hlast as [l Hl].
      assert (c ∈ filter (λ c', id_ <$> s !! c' = Some i) (preorder fuel s root))
        as Hcf by (rewrite Hl; apply elem_of_app; right; left).
      by apply list_elem_of_filter in Hcf as [? _].
    - intros Hi.
      destruct (last (filter (λ c', id_ <$> s !! c' = Some i)
                             (preorder fuel s root))) as [c'|] eqn:Hlast.
      + f_equal. apply last_Some in Hlast as [l Hl].
        assert (c' ∈ filter (λ c', id_ <$> s !! c' = Some i)
                            (preorder fuel s root))
          as Hcf by (rewrite Hl; apply elem_of_app; right; left).
        apply list_elem_of_filter in Hcf as [Hi' Hin'].
        apply Hinj; [by apply (elem_of_preorder fuel)|done|].
        rewrite Hi. exact Hi'.
      + apply last_None in Hlast.
        assert (c ∈ filter (λ c', id_ <$> s !! c' = Some i)
                           (preorder fuel s root)) as Hcf.
        { apply list_elem_of_filter. by split. }
        rewrite Hlast in Hcf. by apply elem_of_nil in Hcf. }
  rewrite (list_filter_iff _ (λ item, idAt s c = Some item.1))
    by (intros item; apply Hby).
  destruct (last _) as [item|]; [|done]. by rewrite Hcm.
Qed.

(** Sufficient conditions that are decided by evaluation on a concrete
    heap. *)
Lemma treeShaped_Forall s :
  Forall (λ cm, length (parent cm) ≤ 1 ∧ NoDup (children cm)) s →
  treeShaped s.
Proof.
  intros Hall c. unfold pars, kids.
  destruct (s !! c) as [cm|] eqn:Hc; simpl; [|split; [lia|constructor]].
  apply (proj1 (Forall_lookup _ _) Hall c cm Hc).
Qed.

Lemma inTree_lt s root c :
  refs_valid s → root < length s → inTree s root c → c < length s.
Proof.
  intros Hvalid Hroot Hc. induction Hc as [|a b c Hab _ IH]; [done|].
  apply IH. unfold kids in Hab.
  destruct (s !! a) as [am|] eqn:Ha; simpl in Hab;
    [|by apply elem_of_nil in Hab].
  by apply (proj1 (Hvalid a am Ha)).
Qed.

Lemma ids_distinct_NoDup s root :
  refs_valid s → root < length s → NoDup (id_ <$> s) →
  ∀ a b, inTree s root a → inTree s root b → idAt s a = idAt s b → a = b.
Proof.
  intros Hvalid Hroot Hnd a b Ha Hb Hab.
  apply (inTree_lt _ _ _ Hvalid Hroot) in Ha, Hb.
  destruct (lookup_lt_is_Some_2 s a Ha) as [am Ham].
  destruct (lookup_lt_is_Some_2 s b Hb) as [bm Hbm].
  unfold idAt in Hab. rewrite Ham, Hbm in Hab. simpl in Hab.
  injection Hab as Hab.
  apply (NoDup_lookup (id_ <$> s) a b (id_ am)); [done|..].
  - by rewrite list_lookup_fmap, Ham.
  - by rewrite list_lookup_fmap, Hbm, Hab.
Qed.

End ConceptList.

(** ** Local names *)

Section LocalNames.
Local Open Scope string_scope.

Lemma string_length_app (a b : string) :
  String.length (a ++ b) = String.length a + String.length b.
Proof. induction a as [|x a IH]; simpl; [done|]. by rewrite IH. Qed.

Lemma string_app_assoc (a b c : string) : (a ++ b) ++ c = a ++ b ++ c.
Proof.
  induction a as [|x a IH]; [done|].
  change (String x ((a ++ b) ++ c) = String x (a ++ b ++ c)). by rewrite IH.
Qed.

Lemma lastIndexOfFrom_app c a b i found :
  lastIndexOfFrom c (a ++ b) i found
  = lastIndexOfFrom c b (i + String.length a) (lastIndexOfFrom c a i found).
Proof.
  revert i found. induction a as [|x a IH]; intros i found; simpl.
  - by rewrite Nat.add_0_r.
  - rewrite IH. f_equal. lia.
Qed.

Lemma lastIndexOfFrom_absent c b i found :
  ¬ occursIn c b → lastIndexOfFrom c b i found = found.
Proof.
  revert i found. induction b as [|x b IH]; intros i found Hb; simpl; [done|].
  simpl in Hb. destruct (Ascii.eqb_spec x c) as [->|Hne]; [tauto|].
  apply IH. tauto.
Qed.

Lemma lastIndexOf_separator c a b :
  ¬ occursIn c b → lastIndexOf c (a ++ String c b) = Some (String.length a).
Proof.
  intros Hb. unfold lastIndexOf. rewrite lastIndexOfFrom_app. simpl.
  rewrite Ascii.eqb_refl. by apply lastIndexOfFrom_absent.
Qed.

Lemma occursIn_app c a b : occursIn c (a ++ b) ↔ occursIn c a ∨ occursIn c b.
Proof. induction a as [|x a IH]; simpl; tauto. Qed.

Lemma lastIndexOf_absent c a : ¬ occursIn c a → lastIndexOf c a = None.
Proof. apply lastIndexOfFrom_absent. Qed.

Lemma indexOfFrom_absent c a i :
  ¬ occursIn c a → Classes.indexOfFrom c a i = None.
Proof.
  revert i. induction a as [|x a IH]; intros i Ha; simpl; [done|].
  simpl in Ha. destruct (Ascii.eqb_spec x c) as [->|Hne]; [tauto|].
  apply IH. tauto.
Qed.

Lemma indexOfFrom_separator c a b i :
  ¬ occursIn c a →
  Classes.indexOfFrom c (a ++ String c b) i = Some (i + String.length a).
Proof.
  revert i. induction a as [|x a IH]; intros i Ha; simpl.
  - by rewrite Ascii.eqb_refl, Nat.add_0_r.
  - simpl in Ha. destruct (Ascii.eqb_spec x c) as [->|Hne]; [tauto|].
    rewrite IH by tauto. f_equal. lia.
Qed.

Lemma substringFrom_app a b : substringFrom (String.length a) (a ++ b) = b.
Proof. induction a as [|x a IH]; simpl; [by destruct b|done]. Qed.

Lemma substringFrom_separator a c b :
  substringFrom (String.length a + 1) (a ++ String c b) = b.
Proof.
  replace (a ++ String c b) with ((a ++ String c "") ++ b).
  - replace (String.length a + 1) with (String.length (a ++ String c "")).
    + apply substringFrom_app.
    + rewrite string_length_app. simpl. lia.
  - by rewrite string_app_assoc.
Qed.

Lemma length_separator a c b :
  b ≠ "" → S (String.length a) ≠ String.length (a ++ String c b).
Proof.
  intros Hb. rewrite string_length_app. simpl.
  destruct b; [done|]. simpl. lia.
Qed.

(** The second test of [uri2name]. *)
Lemma uri2name_last_part (ns name : string) :
  name ≠ "" → ¬ occursIn "/" name →
  match lastIndexOf "/" (ns ++ String "/" name) with
  | Some lastPartStart =>
    if negb (Nat.eqb (S lastPartStart)
               (String.length (ns ++ String "/" name)))
    then substringFrom (lastPartStart + 1) (ns ++ String "/" name)
    else ns ++ String "/" name
  | None => ns ++ String "/" name
  end = name.
Proof.
  intros Hne Hslash. rewrite lastIndexOf_separator by done.
  destruct (Nat.eqb_spec (S (String.length ns))
              (String.length (ns ++ String "/" name))) as [Heq|_].
  - by apply length_separator in Heq.
  - apply substringFrom_separator.
Qed.

(** X15.  [uri2name] gives back the local name of an IRI made of a
    namespace, a separator and a name: after [#] any non-empty name
    without [#], after [/] any non-empty name without [/], provided the
    IRI has no [#] at all.  When the IRI ends with its only [#], the
    [#] stays in the name. *)
Theorem uri2name_local_name (ns name : string) :
  name ≠ "" → ¬ occursIn "#" name →
  uri2name (ns ++ "#" ++ name) = name ∧
  (¬ occursIn "#" ns → ¬ occursIn "/" name →
   uri2name (ns ++ "/" ++ name) = name ∧
   uri2name (ns ++ "/" ++ name ++ "#") = name ++ "#").
Proof.
  intros Hne Hhash. split.
  - unfold uri2name. change ("#" ++ name) with (String "#" name).
    rewrite lastIndexOf_separator by done.
    destruct (Nat.eqb_spec (S (String.length ns))
                (String.length (ns ++ String "#" name))) as [Heq|_].
    + by apply length_separator in Heq.
    + apply substringFrom_separator.
  - intros Hns Hslash. split.
    + unfold uri2name. change ("/" ++ name) with (String "/" name).
      rewrite (lastIndexOf_absent "#").
      2:{ rewrite occursIn_app. simpl. intros [?|[?|?]]; done. }
      by apply uri2name_last_part.
    + unfold uri2name.
      assert (lastIndexOf "#" (ns ++ "/" ++ name ++ "#")
              = Some (String.length (ns ++ "/" ++ name))) as ->.
      { replace (ns ++ "/" ++ name ++ "#")
          with ((ns ++ "/" ++ name) ++ String "#" "").
        - apply lastIndexOf_separator. simpl. tauto.
        - by rewrite !string_app_assoc. }
      assert (Nat.eqb (S (String.length (ns ++ "/" ++ name)))
                      (String.length (ns ++ "/" ++ name ++ "#")) = true) as ->.
      { apply Nat.eqb_eq. repeat (rewrite ?string_length_app; simpl). lia. }
      cbn [negb].
      change ("/" ++ name ++ "#") with (String "/" (name ++ "#")).
      apply uri2name_last_part.
      * by destruct name.
      * rewrite occursIn_app. simpl. intros [?|[?|?]]; done.
Qed.

(** X16.  [getNameFromId] cuts an id at its first [#]: what follows a
    namespace without [#] is returned whole, be it empty or with further
    [#].  Without any [#], the name after the last [/] is returned. *)
Theorem getNameFromId_local_name (ns name : string) :
  ¬ occursIn "#" ns →
  Classes.getNameFromId (ns ++ "#" ++ name) = name ∧
  (¬ occursIn "#" name → ¬ occursIn "/" name →
   Classes.getNameFromId (ns ++ "/" ++ name) = name).
Proof.
  intros Hns. split.
  - unfold Classes.getNameFromId, Classes.indexOf. change ("#" ++ name) with (String "#" name).
    rewrite indexOfFrom_separator by done. simpl.
    apply substringFrom_separator.
  - intros Hhash Hslash. unfold Classes.getNameFromId, Classes.indexOf.
    change ("/" ++ name) with (String "/" name).
    rewrite indexOfFrom_absent.
    2:{ rewrite occursIn_app. simpl. intros [?|[?|?]]; done. }
    rewrite lastIndexOf_separator by done.
    apply substringFrom_separator.
Qed.

End LocalNames.

(** ** Labels in [getClassInfo] *)

Module ClassInfoFacts.
Import Classes ClassVocabulary ClassFacts.


Lemma someLocalizedEqual_undefined lbl values :
  someLocalizedEqual (lbl :: values) None = None.
Proof. simpl. by destruct lbl. Qed.



(** X18.  [getClassInfo] throws on a response that binds a class with a
    label and binds it again, later, without one: the comparison of the
    labels reads a field of [undefined]. *)
Theorem getClassInfo_throws_on_unlabelled_duplicate
    (pre mid post : list ClassBinding) (b1 b2 : ClassBinding) (i : string) :
  bclass b1 = Some i → blabel b1 ≠ None →
  bclass b2 = Some i → blabel b2 = None →
  getClassInfo (pre ++ b1 :: mid ++ b2 :: post) = None.
Proof.
  intros Hc1 Hl1 Hc2 Hl2. unfold getClassInfo.
  destruct (each classInfoStep (pre ++ b1 :: mid ++ b2 :: post) [])
    as [classes|] eqn:Hrun; [exfalso|done].
  rewrite each_app in Hrun.
  destruct (each classInfoStep pre []) as [c0|] eqn:Hpre; [|done].
  simpl in Hrun.
  destruct (classInfoStep c0 b1) as [c1|] eqn:Hb1; [|done]. simpl in Hrun.
  rewrite each_app in Hrun.
  destruct (each classInfoStep mid c1) as [c2|] eqn:Hmid; [|done].
  simpl in Hrun.
  destruct (classInfoStep c2 b2) as [c3|] eqn:Hb2; [|done].
  destruct (classInfoLoop_old pre [] c0) as [Hnd0 _]; [constructor|done|].
  destruct (classInfoStep_spec _ _ _ Hnd0 Hb1) as (Hnd1 & Hold1 & Hnew1).
  destruct (classInfoLoop_old mid c1 c2 Hnd1 Hmid) as [Hnd2 Hold2].
  destruct (blabel b1) as [lit|] eqn:Hlit; [|done].
  (* after [b1] the class has a label *)
  assert (∃ k m1, c1 !! k = Some m1 ∧ id_ m1 = i ∧ label m1 ≠ [])
    as (k & m1 & Hk1 & Hid1 & Hlab1).
  { unfold classInfoStep in Hb1. rewrite Hc1 in Hb1.
    destruct (findClass c0 i) as [[k model]|] eqn:Hfind.
    - apply list_find_Some in Hfind as (Hk & Hid & _).
      destruct (Hold1 k model Hk) as (m1 & Hk1 & Hid1 & _ & Hcase).
      rewrite Hid, bool_decide_eq_true_2 in Hcase by done.
      destruct Hcase as [_ Hin]. exists k, m1. split_and!; [done|congruence|].
      intros Hnil. rewrite Hnil in Hin. by apply elem_of_nil in Hin.
    - injection Hb1 as <-. exists (length c0). eexists.
      rewrite lookup_app_r, Nat.sub_diag by done. simpl.
      split_and!; [done..|]. rewrite Hlit. simpl. done. }
  destruct (Hold2 k m1 Hk1) as (m2 & Hk2 & Hid2 & Hsub & _).
  assert (label m2 ≠ []) as Hlab2.
  { destruct (label m1) as [|v l] eqn:Hl; [done|].
    intros Hnil. specialize (Hsub v). rewrite Hnil in Hsub.
    by apply elem_of_nil in Hsub; [|left]. }
  unfold classInfoStep in Hb2. rewrite Hc2, Hl2 in Hb2. simpl in Hb2.
  destruct (findClass c2 i) as [[k' model]|] eqn:Hfind.
  - apply list_find_Some in Hfind as (Hk' & Hid' & _).
    assert (k' = k) as ->.
    { apply (NoDup_lookup (id_ <$> c2) k' k i); [done|..].
      - by rewrite list_lookup_fmap, Hk', <- Hid'.
      - rewrite list_lookup_fmap, Hk2. simpl. congruence. }
    assert (model = m2) as -> by congruence.
    destruct (label m2) as [|lbl values]; [done|].
    by rewrite someLocalizedEqual_undefined in Hb2.
  - apply list_find_None in Hfind.
    apply (proj1 (Forall_lookup _ _) Hfind k m2 Hk2). congruence.
Qed.

End ClassInfoFacts.

(** ** The scoring passes return *)

Section ScoringReturns.
Context {N : Type} `{JsNumber N}.
Implicit Types s t : Store N.

Lemma arrays_valid_sameGraph s t :
  sameGraph s t → arrays_valid s → arrays_valid t.
Proof.
  intros [Hlen Hg] Hv d x. rewrite Hlen, (proj1 (Hg d)), (proj2 (Hg d)).
  apply Hv.
Qed.

Lemma sameGraph_sym s t : sameGraph s t → sameGraph t s.
Proof.
  intros [Hlen Hg]. split; [done|]. intros d. destruct (Hg d). by split.
Qed.

(** *** The neighbourhood *)

Lemma addSubConceptsKLevel_total s initLevel k :
  arrays_valid s →
  ∀ fuel c, c < length s → ClosureInv.bounded (kids s) fuel c →
    ∃ l, addSubConceptsKLevel fuel s initLevel c k = Some l
         ∧ ∀ x, x ∈ l → x < length s.
Proof.
  intros Hvalid. induction fuel as [|fuel IH]; intros c Hc Hb; [done|].
  simpl. destruct (lookup_lt_is_Some_2 s c Hc) as [cm Hcm].
  rewrite Hcm. simpl.
  destruct (subLevelWithin _ _ _).
  2:{ exists []. split; [done|]. by intros x ?%elem_of_nil. }
  apply (each_total (λ l : list ref, ∀ x, x ∈ l → x < length s));
    [|by intros x ?%elem_of_nil].
  intros result y Hy Hres.
  rewrite <- (kids_lookup _ _ _ Hcm) in Hy.
  destruct (IH y) as (sub & -> & Hsub);
    [by apply (proj1 (Hvalid c y))|by apply Hb|].
  simpl. eexists. split; [done|].
  intros x [[?| ->%list_elem_of_singleton]%elem_of_app|?]%elem_of_union_list;
    auto.
  by apply (proj1 (Hvalid c y)).
Qed.

Lemma addSuperConceptsKLevel_total s initLevel k :
  arrays_valid s →
  ∀ fuel c, c < length s → ClosureInv.bounded (pars s) fuel c →
    ∃ l, addSuperConceptsKLevel fuel s initLevel c k = Some l
         ∧ ∀ x, x ∈ l → x < length s.
Proof.
  intros Hvalid. induction fuel as [|fuel IH]; intros c Hc Hb; [done|].
  simpl. destruct (lookup_lt_is_Some_2 s c Hc) as [cm Hcm].
  rewrite Hcm. simpl.
  destruct (superLevelWithin _ _ _).
  2:{ exists []. split; [done|]. by intros x ?%elem_of_nil. }
  apply (each_total (λ l : list ref, ∀ x, x ∈ l → x < length s));
    [|by intros x ?%elem_of_nil].
  intros result y Hy Hres.
  rewrite <- (pars_lookup _ _ _ Hcm) in Hy.
  destruct (IH y) as (sub & -> & Hsub);
    [by apply (proj2 (Hvalid c y))|by apply Hb|].
  simpl. eexists. split; [done|].
  intros x [[?| ->%list_elem_of_singleton]%elem_of_app|?]%elem_of_union_list;
    auto.
  by apply (proj2 (Hvalid c y)).
Qed.

Lemma getNearestConceptsKLevel_total s fuel k c :
  arrays_valid s → c < length s →
  ClosureInv.bounded (kids s) fuel c → ClosureInv.bounded (pars s) fuel c →
  ∃ l, getNearestConceptsKLevel fuel s k c = Some l
       ∧ ∀ x, x ∈ l → x < length s.
Proof.
  intros Hvalid Hc Hbk Hbp. unfold getNearestConceptsKLevel.
  destruct (lookup_lt_is_Some_2 s c Hc) as [cm Hcm]. rewrite Hcm. simpl.
  destruct (addSubConceptsKLevel_total s (level cm) k Hvalid fuel c Hc Hbk)
    as (sub & -> & Hsub).
  destruct (addSuperConceptsKLevel_total s (level cm) k Hvalid fuel c Hc Hbp)
    as (sup & -> & Hsup).
  simpl. eexists. split; [done|].
  intros x [->%list_elem_of_singleton|[?|?]]%elem_of_union3; auto.
Qed.

(** *** Density *)

Lemma calcLocalDensity_total s fuel c :
  arrays_valid s → c < length s →
  ClosureInv.bounded (kids s) fuel c → ClosureInv.bounded (pars s) fuel c →
  ∃ s', calcLocalDensity fuel c s = Some s' ∧ sameGraph s s'.
Proof.
  intros Hvalid Hc Hbk Hbp. unfold calcLocalDensity.
  destruct (lookup_lt_is_Some_2 s c Hc) as [cm Hcm]. rewrite Hcm. simpl.
  destruct (getNearestConceptsKLevel_total s fuel 2 c) as (l & -> & Hl);
    [done..|].
  simpl.
  match goal with
  | |- context [each ?f l ?a] =>
    destruct (each_total (λ _ : N, True) f l a) as (mx & -> & _); [|done|]
  end.
  { intros acc x Hx _.
    destruct (lookup_lt_is_Some_2 s x (Hl x Hx)) as [nm ->]. simpl.
    by eexists. }
  simpl. destruct (modify_total c
    (set_localDensity (globalDensity cm / mx + WEIGHT_GDL * globalDensity cm)%num)
    s Hc) as [s' Hm].
  exists s'. split; [done|]. by eapply sameGraph_modify.
Qed.

(** The fuel that suffices at every concept of a heap without cycle. *)
Lemma acyclic_fuel s fuel :
  arrays_valid s → links_consistent s → (∀ c, ¬ descendant s c c) →
  length s < fuel →
  ∀ c, c < length s →
    ClosureInv.bounded (kids s) fuel c ∧ ClosureInv.bounded (pars s) fuel c.
Proof.
  intros Hvalid Hlinks Hacyc Hfuel c Hc. split.
  - apply (acyclic_bounded (kids s) (length s)
             (λ c y, proj1 (Hvalid c y)) Hacyc) with (path := []);
      [done|constructor|by intros x ?%elem_of_nil|simpl; lia].
  - apply (acyclic_bounded (pars s) (length s)
             (λ c y, proj2 (Hvalid c y))) with (path := []);
      [|done|constructor|by intros x ?%elem_of_nil|simpl; lia].
    intros d Hd. apply (Hacyc d). by apply pars_tc_descendant.
Qed.

Lemma bounded_sameGraph s t fuel c :
  sameGraph s t →
  ClosureInv.bounded (kids s) fuel c ∧ ClosureInv.bounded (pars s) fuel c →
  ClosureInv.bounded (kids t) fuel c ∧ ClosureInv.bounded (pars t) fuel c.
Proof.
  intros [_ Hg] [Hk Hp]. split.
  - eapply bounded_ext; [|exact Hk]. intros d. symmetry. apply Hg.
  - eapply bounded_ext; [|exact Hp]. intros d. symmetry. apply Hg.
Qed.

Lemma calcDensityOfConcepts_total s fuel cs maxA :
  arrays_valid s → (∀ c, c ∈ cs → c < length s) →
  (∀ c, c < length s →
     ClosureInv.bounded (kids s) fuel c ∧ ClosureInv.bounded (pars s) fuel c) →
  ∃ s' maxA', calcDensityOfConcepts fuel cs (s, maxA) = Some (s', maxA')
              ∧ sameGraph s s'.
Proof.
  intros Hvalid Hcs Hb. unfold calcDensityOfConcepts.
  match goal with
  | |- context [each ?f cs (s, maxA)] =>
    destruct (each_total (λ st : Store N * N, sameGraph s st.1) f cs (s, maxA))
      as ([s1 maxA1] & -> & Hg1); [|apply sameGraph_refl|]
  end.
  { intros [t mx] c Hc Ht. simpl in Ht.
    assert (c < length t) as Hct by (rewrite (proj1 Ht); by apply Hcs).
    destruct (lookup_lt_is_Some_2 t c Hct) as [cm ->]. simpl.
    destruct (modify_total c (set_aGlobalDensity
       (num_of_nat (length (children cm)) * WEIGHT_SUBCLASSES
        + num_of_nat (count cm) * WEIGHT_INSTANCES
        + num_of_nat (propertyCount cm) * WEIGHT_PROPERTIES)%num) t Hct)
      as [t' Hm].
    rewrite Hm. simpl. eexists. split; [done|]. simpl.
    eapply sameGraph_trans; [exact Ht|]. by eapply sameGraph_modify. }
  simpl in *.
  match goal with
  | |- context [each ?f cs s1] =>
    destruct (each_total (λ t : Store N, sameGraph s t) f cs s1)
      as (s2 & -> & Hg2); [|done|]
  end.
  { intros t c Hc Ht.
    assert (c < length t) as Hct by (rewrite (proj1 Ht); by apply Hcs).
    destruct (modify_total c (λ cm, set_globalDensity
                (aGlobalDensity cm / maxA1)%num cm) t Hct) as [ta Hma].
    rewrite Hma. simpl.
    assert (sameGraph s ta) as Hta.
    { eapply sameGraph_trans; [exact Ht|]. by eapply sameGraph_modify. }
    destruct (calcLocalDensity_total ta fuel c) as (tb & -> & Htb).
    - by eapply arrays_valid_sameGraph.
    - rewrite (proj1 Hta). by apply Hcs.
    - apply (bounded_sameGraph s ta); [done|]. apply Hb. by apply Hcs.
    - apply (bounded_sameGraph s ta); [done|]. apply Hb. by apply Hcs.
    - simpl.
      assert (sameGraph s tb) as Hsb by (by eapply sameGraph_trans).
      destruct (modify_total c (λ cm, set_density
                  (WEIGHT_GLOBAL_DENSITY * globalDensity cm
                   + WEIGHT_LOCAL_DENSITY * localDensity cm)%num cm) tb)
        as [tc Hmc]; [rewrite (proj1 Hsb); by apply Hcs|].
      exists tc. split; [done|].
      eapply sameGraph_trans; [exact Hsb|]. by eapply sameGraph_modify. }
  simpl. by exists s2, maxA1.
Qed.

(** *** Natural category value and score *)

Lemma each_modify_sameGraph (f : ConceptModel N → ConceptModel N) cs s :
  (∀ cm, children (f cm) = children cm) → (∀ cm, parent (f cm) = parent cm) →
  (∀ c, c ∈ cs → c < length s) →
  ∃ s', each (λ s c, modify c f s) cs s = Some s' ∧ sameGraph s s'.
Proof.
  intros Hk Hp Hcs.
  apply (each_total (λ t, sameGraph s t)); [|apply sameGraph_refl].
  intros t c Hc Ht.
  destruct (modify_total c f t) as [t' Hm];
    [rewrite (proj1 Ht); by apply Hcs|].
  exists t'. split; [done|].
  eapply sameGraph_trans; [exact Ht|]. by eapply sameGraph_modify.
Qed.

Lemma calcBasicLevelOfConcepts_total cs ps s :
  (∀ c, c ∈ cs → c < length s) →
  (∀ p c, p ∈ ps → c ∈ p → c < length s) →
  ∃ s', calcBasicLevelOfConcepts cs ps s = Some s' ∧ sameGraph s s'.
Proof.
  intros Hcs Hps. unfold calcBasicLevelOfConcepts.
  match goal with
  | |- context [each ?f ps ?a] =>
    destruct (each_total (λ st : Store N * N, sameGraph s st.1) f ps a)
      as ([s1 mx] & -> & Hg1); [|apply sameGraph_refl|]
  end.
  { intros st path Hpath Hst. case_bool_decide; [|by exists st].
    unfold voteInterior.
    apply (each_total (λ st' : Store N * N, sameGraph s st'.1)); [|done].
    intros [t m] c Hc Ht. simpl in Ht.
    assert (c ∈ path) as Hcp.
    { apply (subseteq_take (length path - 2) (drop 1 path)) in Hc.
      by apply (subseteq_drop 1 path). }
    assert (c < length t) as Hct by (rewrite (proj1 Ht); by eapply Hps).
    destruct (lookup_lt_is_Some_2 t c Hct) as [cm ->]. simpl.
    destruct (modify_total c (set_basicLevel (basicLevel cm + num_of_nat 1)%num)
                t Hct) as [t' Hm].
    rewrite Hm. simpl. eexists. split; [done|]. simpl.
    eapply sameGraph_trans; [exact Ht|]. by eapply sameGraph_modify. }
  simpl in *.
  destruct (each_modify_sameGraph
              (λ cm, set_basicLevel (basicLevel cm / mx)%num cm) cs s1)
    as (s2 & -> & Hg2); [done..| |].
  { intros c Hc. rewrite (proj1 Hg1). by apply Hcs. }
  exists s2. split; [done|]. by eapply sameGraph_trans.
Qed.

Lemma calcNaturalCategoryValueOfConcepts_total cs ps s :
  (∀ c, c ∈ cs → c < length s) →
  (∀ p c, p ∈ ps → c ∈ p → c < length s) →
  ∃ s', calcNaturalCategoryValueOfConcepts cs ps s = Some s' ∧ sameGraph s s'.
Proof.
  intros Hcs Hps. unfold calcNaturalCategoryValueOfConcepts,
    calcNameSimplicityOfConcepts.
  destruct (each_modify_sameGraph
              (λ cm, set_nameSimplicity
                 (nameSimplicityOf (numberOfCompound (uri2name (id_ cm)))) cm)
              cs s) as (s1 & -> & Hg1); [done..|].
  simpl.
  destruct (calcBasicLevelOfConcepts_total cs ps s1) as (s2 & -> & Hg2).
  { intros c Hc. rewrite (proj1 Hg1). by apply Hcs. }
  { intros p c Hp Hc. rewrite (proj1 Hg1). by eapply Hps. }
  simpl.
  destruct (each_modify_sameGraph
              (λ cm, set_ncValue
                 (WEIGHT_BASIC_LEVEL * basicLevel cm
                  + WEIGHT_NAME_SIMPLICITY * nameSimplicity cm)%num cm)
              cs s2) as (s3 & -> & Hg3); [done..| |].
  { intros c Hc. rewrite (proj1 Hg2), (proj1 Hg1). by apply Hcs. }
  exists s3. split; [done|].
  eapply sameGraph_trans; [exact Hg1|]. by eapply sameGraph_trans.
Qed.

Lemma scoreConcepts_total fuel (m : DiagramModel) :
  refs_valid (heap m) → links_consistent (heap m) →
  (∀ c, ¬ descendant (heap m) c c) →
  concepts_valid m → paths_valid m → length (heap m) < fuel →
  ∃ m', scoreConcepts fuel m = Some m' ∧
        concepts m' = concepts m ∧ paths m' = paths m ∧
        sameGraph (heap m) (heap m').
Proof.
  intros Hvalid%refs_valid_arrays Hlinks Hacyc Hcs Hps Hfuel.
  unfold scoreConcepts.
  destruct (calcDensityOfConcepts_total (heap m) fuel (concepts m)
              (maxAGlobalDensity m)) as (s1 & maxA & -> & Hg1); [done..| |].
  { by apply acyclic_fuel. }
  simpl.
  destruct (calcNaturalCategoryValueOfConcepts_total (concepts m) (paths m) s1)
    as (s2 & -> & Hg2).
  { intros c Hc. rewrite (proj1 Hg1). by apply Hcs. }
  { intros p c Hp Hc. rewrite (proj1 Hg1). by eapply Hps. }
  simpl. unfold calcScoreOfConcepts.
  destruct (each_modify_sameGraph
              (λ cm, set_score (ncValue cm + density cm)%num cm)
              (concepts m) s2) as (s3 & -> & Hg3); [done..| |].
  { intros c Hc. rewrite (proj1 Hg2), (proj1 Hg1). by apply Hcs. }
  simpl. eexists. split; [done|]. simpl. split_and!; [done..|].
  eapply sameGraph_trans; [exact Hg1|]. by eapply sameGraph_trans.
Qed.

(** Sufficient conditions that are decided by evaluation on a concrete
    model. *)
Lemma concepts_valid_Forall (m : DiagramModel (N := N)) :
  Forall (λ c, c < length (heap m)) (concepts m) → concepts_valid m.
Proof. intros Hall c Hc. by apply (proj1 (Forall_forall _ _) Hall c). Qed.

Lemma paths_valid_Forall (m : DiagramModel (N := N)) :
  Forall (Forall (λ c, c < length (heap m))) (paths m) → paths_valid m.
Proof.
  intros Hall p c Hp Hc.
  pose proof (proj1 (Forall_forall _ _) Hall p Hp) as Hpc.
  by apply (proj1 (Forall_forall _ _) Hpc c).
Qed.

End ScoringReturns.

(** ** The extraction as a whole *)

Section ExtractionReturns.
Context {N : Type} `{JsNumber N} `{!JsNumberLaws N}.
Implicit Types s t : Store N.

Lemma swapLoop_total rs s best avgC avgO :
  (∀ c, c ∈ best → c < length s) → (∀ r, r ∈ rs → r < length s) →
  ∃ s' best' avgC' avgO',
    each swapStep rs (s, best, avgC, avgO) = Some (s', best', avgC', avgO') ∧
    ∀ c, c ∈ best' → c ∈ best ∨ c ∈ rs.
Proof.
  revert s best avgC avgO.
  induction rs as [|r rs IH]; intros s best avgC avgO Hbest Hrs; simpl.
  - exists s, best, avgC, avgO. split; [done|]. auto.
  - destruct (findConceptWithWorstOverallScore_spec best s Hbest)
      as (worst & Hworst & _).
    destruct (swapStep_spec s best avgC avgO r Hbest) with (worst := worst)
      as (s1 & Hsame & _ & _ & Hstep); [apply Hrs; left|done|].
    rewrite Hstep. simpl.
    assert (∀ c, c ∈ candidateSet best worst r → c ∈ best ∨ c = r) as Hcand.
    { intros c [[? _]| ->]%candidateSet_elem; auto. }
    destruct (_ && _).
    + destruct (IH s1 (candidateSet best worst r)
                  (avgContributionOf s (candidateSet best worst r))
                  (avgOverallScoreOf s (candidateSet best worst r)))
        as (s' & best' & avgC' & avgO' & Hrun & Hsub).
      * intros c [Hc| ->]%Hcand; rewrite <- (proj1 Hsame);
          [by apply Hbest|apply Hrs; left].
      * intros x Hx. rewrite <- (proj1 Hsame). apply Hrs. by right.
      * exists s', best', avgC', avgO'. split; [done|].
        intros c [[?| ->]%Hcand|?]%Hsub; [by left|right; left|right; by right].
    + destruct (IH s1 best avgC avgO) as (s' & best' & avgC' & avgO' & Hrun & Hsub).
      * intros c Hc. rewrite <- (proj1 Hsame). by apply Hbest.
      * intros x Hx. rewrite <- (proj1 Hsame). apply Hrs. by right.
      * exists s', best', avgC', avgO'. split; [done|].
        intros c [?|?]%Hsub; [by left|right; by right].
Qed.

Lemma selectKeyConcepts_total (n : Z) (m : DiagramModel) :
  concepts_valid m →
  ∃ m' r, selectKeyConcepts n m = Some (m', r) ∧
          (∀ c, c ∈ r → c ∈ concepts m) ∧ concepts m' ≡ₚ concepts m.
Proof.
  intros Hvalid. unfold selectKeyConcepts.
  case_bool_decide; [by exists m, (concepts m)|].
  destruct (sortByScore_spec (concepts m) (heap m) Hvalid)
    as (sorted & -> & Hperm).
  simpl. set (best0 := take_ sorted n).
  assert (∀ c, c ∈ sorted → c < length (heap m)) as Hsorted.
  { intros c Hc. apply Hvalid. by rewrite <- Hperm. }
  assert (∀ c, c ∈ best0 → c ∈ sorted) as Hsub0.
  { intros c Hc. by apply (subseteq_take (Z.to_nat n) sorted). }
  destruct (averages_spec best0 (heap m))
    as (s1 & s2 & -> & Hrun2 & Hsame & _).
  { intros c Hc. by apply Hsorted, Hsub0. }
  simpl. rewrite Hrun2. simpl.
  destruct (swapLoop_total (difference sorted best0) s2 best0
              (avgContributionOf (heap m) best0)
              (avgOverallScoreOf (heap m) best0))
    as (s' & best' & avgC' & avgO' & -> & Hsub).
  - intros c Hc. rewrite <- (proj1 Hsame). by apply Hsorted, Hsub0.
  - intros r [Hr _]%elem_of_difference_list. rewrite <- (proj1 Hsame).
    by apply Hsorted.
  - simpl. eexists _, _. split; [done|]. simpl. split; [|done].
    intros c [Hc|[Hc _]%elem_of_difference_list]%Hsub; rewrite <- Hperm; auto.
Qed.

Lemma extractKeyConcepts_total fuel (n : Z) (m : DiagramModel) :
  refs_valid (heap m) → links_consistent (heap m) →
  (∀ c, ¬ descendant (heap m) c c) →
  concepts_valid m → paths_valid m → length (heap m) < fuel →
  ∃ m' r, extractKeyConcepts fuel n m = Some (m', r) ∧
          (∀ c, c ∈ r → c ∈ concepts m) ∧ concepts m' ≡ₚ concepts m.
Proof.
  intros Hvalid Hlinks Hacyc Hcs Hps Hfuel. unfold extractKeyConcepts.
  destruct (scoreConcepts_total fuel m) as (m1 & -> & Hc1 & _ & Hg1);
    [done..|].
  simpl.
  destruct (selectKeyConcepts_total n m1) as (m' & r & -> & Hr & Hperm).
  { intros c Hc. rewrite (proj1 Hg1). apply Hcs. by rewrite <- Hc1. }
  exists m', r. rewrite <- Hc1. done.
Qed.

(** X19.  [extractKeyConcepts(n)] returns for every [n] on every model
    whose heap has no cycle, once the recursion may go deeper than the
    number of concepts.  It returns concepts of the concept list, and the
    scoring before it changes neither the concept list, nor the paths,
    nor any [children] or [parent] array. *)
Theorem extractKeyConcepts_returns fuel (n : Z) (m : DiagramModel) :
  refs_valid (heap m) → links_consistent (heap m) →
  (∀ c, ¬ descendant (heap m) c c) →
  concepts_valid m → paths_valid m → length (heap m) < fuel →
  (∃ m1, scoreConcepts fuel m = Some m1 ∧
         concepts m1 = concepts m ∧ paths m1 = paths m ∧
         sameGraph (heap m) (heap m1)) ∧
  ∃ m' r, extractKeyConcepts fuel n m = Some (m', r) ∧
          (∀ c, c ∈ r → c ∈ concepts m) ∧ concepts m' ≡ₚ concepts m.
Proof.
  intros Hvalid Hlinks Hacyc Hcs Hps Hfuel. split.
  - by apply scoreConcepts_total.
  - by apply extractKeyConcepts_total.
Qed.

(** *** From the response to the key concepts *)






End ExtractionReturns.

(** ** On concrete heaps *)

(** The root-to-leaf paths of the tree R, A, B, C. *)
Lemma calcAllPaths_exact_witness :
  calcAllPaths 5 Examples.treeStore 0 [] = Some [[0; 1; 3]; [0; 2]] ∧
  ∀ p, p ∈ [[0; 1; 3]; [0; 2]] ↔
    ∃ q, p = [] ++ 0 :: q ∧ childChain Examples.treeStore (0 :: q) ∧
         isLeaf Examples.treeStore (List.last q 0) ∧
         NoDup (0 :: q) ∧ (∀ x, x ∈ 0 :: q → x ∉ ([] : list ref)).
Proof.
  split; [vm_compute; reflexivity|].
  apply (calcAllPaths_exact 5 Examples.treeStore 0 []).
  vm_compute. reflexivity.
Defined.

(** The traversal of the heap in which 0 and 1 are children of each
    other. *)
Lemma updateConceptTree_diverges_on_cycle_witness :
  descendant Examples.cyclicStore 0 0 ∧
  ∀ fuel, updateConceptTree fuel (Some 0) Examples.cyclicStore = None.
Proof.
  assert (descendant Examples.cyclicStore 0 0) as Hcycle.
  { eapply tc_l; [|apply tc_once].
    - instantiate (1 := 1). vm_compute. set_solver.
    - vm_compute. set_solver. }
  split; [exact Hcycle|].
  apply (updateConceptTree_diverges_on_cycle Examples.cyclicStore 0 0);
    [apply rtc_refl|exact Hcycle].
Defined.

(** The traversal of the graph with a shared child. *)
Lemma updateConceptTree_returns_on_acyclic_witness :
  ∃ s', updateConceptTree 6 (Some 0) Examples.dagLinked = Some s'
        ∧ sameGraph Examples.dagLinked s'.
Proof.
  apply (updateConceptTree_returns_on_acyclic Examples.dagLinked 0).
  - apply refs_valid_Forall. by_evaluation.
  - vm_compute. lia.
  - apply (ranked_acyclic _ (λ c, default 0 ([0; 2; 1; 3; 4] !! c))).
    apply kids_Forall. by_evaluation.
  - vm_compute. lia.
Defined.

(** The closures of A (1) in the graph with a shared child. *)
Lemma updateConceptTree_closures_witness :
  (∀ a, a ∈ subs Examples.dagStore 1 ↔ descendant Examples.dagLinked 1 a) ∧
  (∀ a, a ∈ sups Examples.dagStore 1 → descendant Examples.dagLinked a 1) ∧
  (∀ a, inTree Examples.dagLinked 0 a → descendant Examples.dagLinked a 1 →
        a ∈ sups Examples.dagStore 1).
Proof.
  apply (updateConceptTree_closures Examples.dagLinked Examples.dagStore 16 0).
  - apply links_consistent_Forall. by_evaluation.
  - apply closures_fresh_Forall. by_evaluation.
  - vm_compute. reflexivity.
  - eapply rtc_l; [|apply rtc_refl]. vm_compute. set_solver.
Defined.

(** The levels of the tree R, A, B, C, with the depths 0, 1, 1, 2. *)
Lemma updateConceptTree_levels_witness :
  (∀ x, inTree Examples.treeLinked 0 x →
        levelAt Examples.treeStore x
        = Some (S (default 0 ([0; 1; 1; 2] !! x)))) ∧
  (links_consistent Examples.treeLinked →
   (∀ d, d < length Examples.treeLinked → inTree Examples.treeLinked 0 d) →
   levels_consistent Examples.treeStore).
Proof.
  apply (updateConceptTree_levels (λ x, default 0 ([0; 1; 1; 2] !! x))
           Examples.treeLinked Examples.treeStore 16 0).
  - vm_compute. reflexivity.
  - reflexivity.
  - apply kids_Forall. by_evaluation.
Defined.






(** The branch ontology: A1 (2) is the worst member of the working set
    of A and A1. *)
Lemma findConceptWithWorstOverallScore_minimal_witness :
  let '(s, best, _, _) := Examples.branchSelecting in
  2 ∈ best ∧
  ∀ c, c ∈ best → (overallScoreAt s c <? overallScoreAt s 2)%num = false.
Proof.
  destruct Examples.branchSelecting as [[[s best] avgC] avgO] eqn:Hsel.
  injection Hsel as <- <- <- <-.
  apply (findConceptWithWorstOverallScore_minimal float_ltb_irrefl).
  vm_compute. reflexivity.
Defined.

(** The concept list of the graph with a shared child: A and what is
    below it are listed once for each of the two paths from the root. *)
Lemma setConceptTree_concepts_witness :
  concepts Examples.dagModel = [0; 1; 3; 4; 2; 1; 3; 4] ∧
  head (concepts Examples.dagModel) = Some 0 ∧
  (∀ c, c ∈ concepts Examples.dagModel ↔ inTree Examples.dagStore 0 c) ∧
  sameGraph Examples.dagStore (heap Examples.dagModel) ∧
  (∀ d, idAt (heap Examples.dagModel) d = idAt Examples.dagStore d) ∧
  calcAllPaths 16 (heap Examples.dagModel) 0 []
  = Some (paths Examples.dagModel).
Proof.
  split; [reflexivity|].
  apply (setConceptTree_concepts 16 Examples.dagStore 0 [] 0%float).
  vm_compute. reflexivity.
Defined.

(** The concept list of the branch ontology, a tree. *)
Lemma setConceptTree_NoDup_on_tree_witness :
  concepts Examples.branchModel = [0; 1; 2; 3; 4; 5; 6] ∧
  NoDup (concepts Examples.branchModel).
Proof.
  split; [reflexivity|].
  apply (setConceptTree_NoDup_on_tree 16 (heap Examples.branchModel) 0 []
           0%float).
  - vm_compute. reflexivity.
  - apply links_consistent_Forall. by_evaluation.
  - apply treeShaped_Forall. by_evaluation.
Defined.

(** Dog (2) gets the later of its two counts; Animal (1), which no item
    names, keeps its count. *)
Lemma setConceptTree_propertyCount_witness :
  propertyCountAt (heap Examples.chainCounted) 2 = Some 4 ∧
  propertyCountAt (heap Examples.chainCounted) 1 = Some 0.
Proof.
  assert (∀ a b, inTree Examples.chainStore 0 a →
            inTree Examples.chainStore 0 b →
            idAt Examples.chainStore a = idAt Examples.chainStore b → a = b)
    as Hids.
  { apply ids_distinct_NoDup.
    - apply refs_valid_Forall. by_evaluation.
    - vm_compute. lia.
    - by_evaluation. }
  split.
  - apply (setConceptTree_propertyCount 16 Examples.chainStore 0
             Examples.chainCounts 0%float Examples.chainCounted eq_refl Hids 2).
    eapply rtc_l; [|eapply rtc_l; [|apply rtc_refl]].
    + instantiate (1 := 1). vm_compute. set_solver.
    + vm_compute. set_solver.
  - apply (setConceptTree_propertyCount 16 Examples.chainStore 0
             Examples.chainCounts 0%float Examples.chainCounted eq_refl Hids 1).
    eapply rtc_l; [|apply rtc_refl]. vm_compute. set_solver.
Defined.

(** The local names of two IRIs of the zoo. *)
Lemma uri2name_local_name_witness :
  uri2name ("http://example.org/zoo" ++ "#" ++ "Dog") = "Dog"%string ∧
  (¬ occursIn "#" "http://example.org/zoo" → ¬ occursIn "/" "Dog" →
   uri2name ("http://example.org/zoo" ++ "/" ++ "Dog") = "Dog"%string ∧
   uri2name ("http://example.org/zoo" ++ "/" ++ "Dog" ++ "#")
   = ("Dog" ++ "#")%string).
Proof.
  apply (uri2name_local_name "http://example.org/zoo" "Dog").
  - done.
  - by_evaluation.
Defined.

Lemma getNameFromId_local_name_witness :
  Classes.getNameFromId ("http://example.org/zoo" ++ "#" ++ "Dog#2")
  = "Dog#2"%string ∧
  (¬ occursIn "#" "Dog#2" → ¬ occursIn "/" "Dog#2" →
   Classes.getNameFromId ("http://example.org/zoo" ++ "/" ++ "Dog#2")
   = "Dog#2"%string).
Proof.
  apply (getNameFromId_local_name "http://example.org/zoo" "Dog#2").
  by_evaluation.
Defined.


(** The class bound with a label and then without. *)
Lemma getClassInfo_throws_on_unlabelled_duplicate_witness :
  Classes.getClassInfo Examples.unlabelledAgain = None.
Proof.
  apply (ClassInfoFacts.getClassInfo_throws_on_unlabelled_duplicate [] [] []
           _ _ "http://example.org/zoo#Dog"); done.
Defined.

(** The extraction of two key concepts from the branch ontology. *)
Lemma extractKeyConcepts_returns_witness :
  (∃ m1, scoreConcepts 16 Examples.branchModel = Some m1 ∧
         concepts m1 = concepts Examples.branchModel ∧
         paths m1 = paths Examples.branchModel ∧
         sameGraph (heap Examples.branchModel) (heap m1)) ∧
  ∃ m' r, extractKeyConcepts 16 2 Examples.branchModel = Some (m', r) ∧
          (∀ c, c ∈ r → c ∈ concepts Examples.branchModel) ∧
          concepts m' ≡ₚ concepts Examples.branchModel.
Proof.
  apply (extractKeyConcepts_returns 16 2 Examples.branchModel).
  - apply refs_valid_Forall. by_evaluation.
  - apply links_consistent_Forall. by_evaluation.
  - apply (ranked_acyclic _ (λ c, default 0 ([0; 1; 2; 3; 2; 1; 2] !! c))).
    apply kids_Forall. by_evaluation.
  - apply concepts_valid_Forall. by_evaluation.
  - apply paths_valid_Forall. by_evaluation.
  - vm_compute. lia.
Defined.

